(** * A free-list allocator over sbrk: shallow embedding of src/alloc.c

    The C code does pointer arithmetic over the raw bytes of the region
    obtained from [sbrk], reinterpreting the same sixteen bytes as a
    [header] (allocated block) or a [free_block] (free-list node).  The
    embedding keeps that view: memory is a byte-addressed function, a field
    access is a little-endian load or store of the field's width, and an
    access outside the region is an error outcome. *)

From Stdlib Require Import ZArith Lia String Bool List.
From coqutil Require Import Byte Word.LittleEndianList.
Import ListNotations.
Local Open Scope Z_scope.

(** ** Machine integers *)

(** [size_t] and pointers are 64-bit unsigned. *)
Definition wrap64 (z : Z) : Z := z mod 2 ^ 64.

(** Conversion to [int] (the type of [split]'s second parameter). *)
Definition to_int (z : Z) : Z := (z + 2 ^ 31) mod 2 ^ 32 - 2 ^ 31.

(** Conversion to [intptr_t] (the type of [sbrk]'s parameter). *)
Definition to_intptr (z : Z) : Z := (z + 2 ^ 63) mod 2 ^ 64 - 2 ^ 63.

Definition NULL : Z := 0.
Definition ALIGNMENT : Z := 16.
Definition MAGIC : Z := 0x01234567.

(** Modelled from the spec: alloc.h, which declares [struct header] and
    [struct free_block], is not part of the sources.  The spec gives a
    header [{payload_size : unsigned; sentinel}] and a free node
    [{size : unsigned; next : link}], both overlaid on the same bytes and
    sized so that the payload stays on the 16-byte boundary.  The layout
    below is the LP64 one: an 8-byte [size] at offset 0 in both, a 4-byte
    [magic] at offset 8 of the header, an 8-byte [next] at offset 8 of the
    node, and both structs 16 bytes long. *)
Definition sizeof_header : Z := 16.
Definition sizeof_free_block : Z := 16.
Definition off_size : Z := 0.
Definition off_magic : Z := 8.
Definition off_next : Z := 8.

(** ** Memory and allocator state *)

Definition memory := Z -> byte.

Definition addrs (a : Z) (n : nat) : list Z :=
  map (fun i => a + Z.of_nat i) (seq 0 n).

Definition get_bytes (m : memory) (a : Z) (n : nat) : list byte :=
  map m (addrs a n).

Definition put_bytes (m : memory) (a : Z) (bs : list byte) : memory :=
  fun x =>
    if (a <=? x) && (x <? a + Z.of_nat (length bs))
    then nth (Z.to_nat (x - a)) bs Byte.x00
    else m x.

(** An [n]-byte little-endian integer read from, and written to, memory. *)
Definition rd (n : nat) (m : memory) (a : Z) : Z :=
  le_combine (get_bytes m a n).
Definition wr (n : nat) (m : memory) (a : Z) (v : Z) : memory :=
  put_bytes m a (le_split n v).

Record state := mkState {
  mem : memory;        (* contents of the address space *)
  heap_base : Z;       (* the program break before the first sbrk *)
  brk : Z;             (* the current program break (high-water mark) *)
  heap_limit : Z;      (* the break the system refuses to exceed *)
  HEAD : Z             (* static free_block *HEAD *)
}.

Definition set_mem (m : memory) (st : state) : state :=
  mkState m (heap_base st) (brk st) (heap_limit st) (HEAD st).
Definition set_brk (b : Z) (st : state) : state :=
  mkState (mem st) (heap_base st) b (heap_limit st) (HEAD st).
Definition set_HEAD (h : Z) (st : state) : state :=
  mkState (mem st) (heap_base st) (brk st) (heap_limit st) h.

(** ** Outcomes and the state-and-error monad *)

Inductive outcome (A : Type) : Type :=
| Ok (a : A) (st : state)   (* the call returns [a] *)
| Fault                     (* access outside the region: undefined behaviour *)
| Aborted (msg : string)    (* printf of [msg], then abort() *)
| OutOfFuel.                (* a loop ran longer than the fuel given *)
Arguments Ok {A} a st.
Arguments Fault {A}.
Arguments Aborted {A} msg.
Arguments OutOfFuel {A}.

Definition M (A : Type) : Type := state -> outcome A.

Definition ret {A} (a : A) : M A := fun st => Ok a st.
Definition bind {A B} (c : M A) (k : A -> M B) : M B :=
  fun st =>
    match c st with
    | Ok a st' => k a st'
    | Fault => Fault
    | Aborted msg => Aborted msg
    | OutOfFuel => OutOfFuel
    end.
Definition abort_with {A} (msg : string) : M A := fun _ => Aborted msg.
Definition out_of_fuel {A} : M A := fun _ => OutOfFuel.

Notation "x <- c ;; k" := (bind c (fun x => k))
  (at level 61, c at next level, right associativity).
Notation "c ;;; k" := (bind c (fun _ => k))
  (at level 61, right associativity).

(** An access of [n] bytes at [a] is defined when it lies in the region. *)
Definition valid (a : Z) (n : nat) (st : state) : bool :=
  (heap_base st <=? a) && (a + Z.of_nat n <=? brk st).

Definition load (n : nat) (a : Z) : M Z :=
  fun st =>
    if valid a n st then Ok (rd n (mem st) a) st
    else Fault.

Definition store (n : nat) (a : Z) (v : Z) : M unit :=
  fun st =>
    if valid a n st then Ok tt (set_mem (wr n (mem st) a v) st)
    else Fault.

Definition get_HEAD : M Z := fun st => Ok (HEAD st) st.
Definition put_HEAD (h : Z) : M unit := fun st => Ok tt (set_HEAD h st).

(** Field accesses, for a pointer [p] to a header or a free node. *)
Definition load_size (p : Z) : M Z := load 8 (p + off_size).
Definition load_next (p : Z) : M Z := load 8 (p + off_next).
Definition load_magic (p : Z) : M Z := load 4 (p + off_magic).
Definition store_size (p v : Z) : M unit := store 8 (p + off_size) v.
Definition store_next (p v : Z) : M unit := store 8 (p + off_next) v.
Definition store_magic (p v : Z) : M unit := store 4 (p + off_magic) v.

(** ** The C library calls the allocator makes *)

(** [sbrk(incr)]: moves the break by [incr] and returns the old break, or
    returns [(void * )-1] when the new break would leave
    [heap_base .. heap_limit]. *)
Definition sbrk (incr : Z) : M Z :=
  fun st =>
    let nb := brk st + incr in
    if (heap_base st <=? nb) && (nb <=? heap_limit st)
    then Ok (brk st) (set_brk nb st)
    else Ok (wrap64 (-1)) st.

Definition ranges_overlap (a b : Z) (n : nat) : bool :=
  (0 <? Z.of_nat n) && (a <? b + Z.of_nat n) && (b <? a + Z.of_nat n).

(** [memcpy(dst, src, n)]; overlapping ranges are undefined behaviour. *)
Definition memcpy (dst src : Z) (n : Z) : M unit :=
  fun st =>
    let k := Z.to_nat n in
    if valid dst k st && valid src k st && negb (ranges_overlap dst src k)
    then Ok tt (set_mem (put_bytes (mem st) dst (get_bytes (mem st) src k)) st)
    else Fault.

(** [memset(p, 0, n)]. *)
Definition memset0 (p : Z) (n : Z) : M unit :=
  fun st =>
    let k := Z.to_nat n in
    if valid p k st
    then Ok tt (set_mem (put_bytes (mem st) p (repeat Byte.x00 k)) st)
    else Fault.

(** ** alloc.c *)

(** [void *split(free_block *block, int size)] *)
Definition split (block size : Z) : M Z :=
  bs <- load_size block ;;
  if bs <? wrap64 (size + sizeof_free_block) then ret NULL
  else
    let split_pnt := wrap64 (block + size + sizeof_free_block) in
    let new_block := split_pnt in
    bs' <- load_size block ;;
    store_size new_block (wrap64 (bs' - size - sizeof_free_block)) ;;;
    nx <- load_next block ;;
    store_next new_block nx ;;;
    store_size block (wrap64 size) ;;;
    ret block.

(** [free_block *find_prev(free_block *block)] *)
Fixpoint find_prev_loop (fuel : nat) (block curr : Z) : M Z :=
  match fuel with
  | O => out_of_fuel
  | S f =>
    if curr =? NULL then ret NULL
    else
      sz <- load_size curr ;;
      let next := wrap64 (curr + sz + sizeof_free_block) in
      if next =? block then ret curr
      else
        nx <- load_next curr ;;
        find_prev_loop f block nx
  end.

Definition find_prev (fuel : nat) (block : Z) : M Z :=
  curr <- get_HEAD ;;
  find_prev_loop fuel block curr.

(** [free_block *find_next(free_block *block)] *)
Fixpoint find_next_loop (fuel : nat) (block_end curr : Z) : M Z :=
  match fuel with
  | O => out_of_fuel
  | S f =>
    if curr =? NULL then ret NULL
    else if curr =? block_end then ret curr
    else
      nx <- load_next curr ;;
      find_next_loop f block_end nx
  end.

Definition find_next (fuel : nat) (block : Z) : M Z :=
  sz <- load_size block ;;
  let block_end := wrap64 (block + sz + sizeof_free_block) in
  curr <- get_HEAD ;;
  find_next_loop fuel block_end curr.

(** [void remove_free_block(free_block *block)] *)
Fixpoint remove_free_block_loop (fuel : nat) (block curr : Z) : M unit :=
  match fuel with
  | O => out_of_fuel
  | S f =>
    if curr =? NULL then ret tt
    else
      nx <- load_next curr ;;
      if nx =? block then
        bn <- load_next block ;;
        store_next curr bn
      else remove_free_block_loop f block nx
  end.

Definition remove_free_block (fuel : nat) (block : Z) : M unit :=
  curr <- get_HEAD ;;
  if curr =? block then
    bn <- load_next block ;;
    put_HEAD bn
  else remove_free_block_loop fuel block curr.

(** [void *coalesce(free_block *block)] *)
Definition coalesce_prev (block prev : Z) : M Z :=
  if prev =? NULL then ret block
  else
    ps <- load_size prev ;;
    let end_of_prev := wrap64 (prev + ps + sizeof_free_block) in
    if end_of_prev =? block then
      ps' <- load_size prev ;;
      bs <- load_size block ;;
      store_size prev (wrap64 (ps' + wrap64 (bs + sizeof_free_block))) ;;;
      pn <- load_next prev ;;
      (if pn =? block then
         bn <- load_next block ;;
         store_next prev bn
       else ret tt) ;;;
      ret prev
    else ret block.

Definition coalesce_next (block next : Z) : M unit :=
  if next =? NULL then ret tt
  else
    bs <- load_size block ;;
    let end_of_block := wrap64 (block + bs + sizeof_free_block) in
    if end_of_block =? next then
      bs' <- load_size block ;;
      ns <- load_size next ;;
      store_size block (wrap64 (bs' + wrap64 (ns + sizeof_free_block))) ;;;
      nn <- load_next next ;;
      store_next block nn
    else ret tt.

Definition coalesce (fuel : nat) (block : Z) : M Z :=
  if block =? NULL then ret NULL
  else
    prev <- find_prev fuel block ;;
    next <- find_next fuel block ;;
    block <- coalesce_prev block prev ;;
    coalesce_next block next ;;;
    ret block.

(** [void *do_alloc(size_t size)] *)
Definition do_alloc (size : Z) : M Z :=
  if size <=? 0 then ret NULL
  else
    let size :=
      Z.land (wrap64 (size + ALIGNMENT - 1)) (wrap64 (Z.lnot (ALIGNMENT - 1))) in
    ptr <- sbrk (to_intptr size) ;;
    if ptr =? wrap64 (-1) then ret NULL
    else ret ptr.

(** The three statements that stamp a header and return the payload. *)
Definition stamp (hdr size : Z) : M Z :=
  store_size hdr size ;;;
  store_magic hdr MAGIC ;;;
  ret (wrap64 (hdr + sizeof_header)).

(** The [while (block != NULL)] loop of [tumalloc]: [Some p] when the body
    returns [p], [None] when the loop runs off the end of the list. *)
Fixpoint tumalloc_loop (fuel : nat) (F : nat) (size block : Z) : M (option Z) :=
  match fuel with
  | O => out_of_fuel
  | S f =>
    if block =? NULL then ret None
    else
      bs <- load_size block ;;
      if wrap64 (size + sizeof_header) <=? bs then
        hdr <- split block (to_int (wrap64 (size + sizeof_header))) ;;
        hdr <- (if hdr =? NULL then
                  remove_free_block F block ;;;
                  ret block
                else
                  remove_free_block F hdr ;;;
                  ret hdr) ;;
        p <- stamp hdr size ;;
        ret (Some p)
      else
        nx <- load_next block ;;
        tumalloc_loop f F size nx
  end.

(** [void *tumalloc(size_t size)] *)
Definition tumalloc (fuel : nat) (size : Z) : M Z :=
  head <- get_HEAD ;;
  if head =? NULL then
    raw <- do_alloc (wrap64 (size + sizeof_header)) ;;
    if raw =? NULL then ret NULL
    else stamp raw size
  else
    r <- tumalloc_loop fuel fuel size head ;;
    match r with
    | Some p => ret p
    | None =>
      raw <- do_alloc (wrap64 (size + sizeof_header)) ;;
      stamp raw size
    end.

(** [void *tucalloc(size_t num, size_t size)] *)
Definition tucalloc (fuel : nat) (num size : Z) : M Z :=
  let total_size := wrap64 (num * size) in
  if total_size =? 0 then ret NULL
  else
    ptr <- tumalloc fuel total_size ;;
    if ptr =? NULL then ret NULL
    else
      memset0 ptr total_size ;;;
      ret ptr.

(** The line [tufree] prints before it aborts. *)
Definition corruption_msg : string :=
  "MEMORY CORRUPTION DETECTED" ++ String (Ascii.ascii_of_nat 10) EmptyString.

(** [void tufree(void *ptr)] *)
Definition tufree (fuel : nat) (ptr : Z) : M unit :=
  let hdr := wrap64 (ptr - sizeof_header) in
  magic <- load_magic hdr ;;
  if magic =? MAGIC then
    let block := hdr in
    sz <- load_size hdr ;;
    store_size block sz ;;;
    head <- get_HEAD ;;
    store_next block head ;;;
    put_HEAD block ;;;
    coalesce fuel block ;;;
    ret tt
  else
    abort_with corruption_msg.

(** [void *turealloc(void *ptr, size_t new_size)] *)
Definition turealloc (fuel : nat) (ptr new_size : Z) : M Z :=
  if ptr =? NULL then tumalloc fuel new_size
  else if new_size =? 0 then
    tufree fuel ptr ;;;
    ret NULL
  else
    let old_header := wrap64 (ptr - sizeof_header) in
    old <- load_size old_header ;;
    if new_size <=? old then ret ptr
    else
      new_ptr <- tumalloc fuel new_size ;;
      if new_ptr =? NULL then ret NULL
      else
        old' <- load_size old_header ;;
        let copy_size := if old' <? new_size then old' else new_size in
        memcpy new_ptr ptr copy_size ;;;
        ret new_ptr.

(** ** Concrete states for evaluation *)

Definition init_state (base limit : Z) : state :=
  mkState (fun _ => Byte.x00) base base limit NULL.

Definition result {A} (o : outcome A) : option A :=
  match o with Ok a _ => Some a | _ => None end.
(** The free list as the loops see it: the nodes met from [HEAD] on, each
    with its recorded size, or [None] when the walk faults or outlives the
    fuel. *)
Fixpoint walk (fuel : nat) (curr : Z) (st : state) : option (list (Z * Z)) :=
  match fuel with
  | O => None
  | S f =>
    if curr =? NULL then Some []
    else
      match load_size curr st, load_next curr st with
      | Ok sz _, Ok nx _ =>
        match walk f nx st with
        | Some l => Some ((curr, sz) :: l)
        | None => None
        end
      | _, _ => None
      end
  end.

Definition free_list (fuel : nat) (st : state) : option (list (Z * Z)) :=
  walk fuel (HEAD st) st.

(** * Properties *)

(** ** Memory: reads after writes *)

Lemma map_nth_seq {A} (d : A) (l : list A) :
  map (fun i => nth i l d) (seq 0 (length l)) = l.
Proof.
  induction l as [|x l IH]; simpl; [reflexivity|].
  f_equal. rewrite <- seq_shift, map_map. exact IH.
Qed.

Lemma get_put_same m a bs :
  get_bytes (put_bytes m a bs) a (length bs) = bs.
Proof.
  unfold get_bytes, addrs. rewrite map_map.
  transitivity (map (fun i => nth i bs Byte.x00) (seq 0 (length bs)));
    [|apply map_nth_seq].
  apply map_ext_in. intros i Hi. apply in_seq in Hi.
  unfold put_bytes.
  replace ((a <=? a + Z.of_nat i) && (a + Z.of_nat i <? a + Z.of_nat (length bs)))
    with true by (symmetry; apply andb_true_intro; split;
                  [apply Z.leb_le | apply Z.ltb_lt]; lia).
  f_equal. lia.
Qed.

Lemma put_bytes_outside m a bs x :
  x < a \/ a + Z.of_nat (length bs) <= x -> put_bytes m a bs x = m x.
Proof.
  intros H. unfold put_bytes.
  destruct (Z.leb_spec a x), (Z.ltb_spec x (a + Z.of_nat (length bs)));
    simpl; try reflexivity; lia.
Qed.

Lemma get_put_other m a bs b n :
  b + Z.of_nat n <= a \/ a + Z.of_nat (length bs) <= b ->
  get_bytes (put_bytes m a bs) b n = get_bytes m b n.
Proof.
  intros H. unfold get_bytes, addrs. rewrite !map_map.
  apply map_ext_in. intros i Hi. apply in_seq in Hi.
  apply put_bytes_outside. lia.
Qed.

Lemma rd_wr_same n m a v : rd n (wr n m a v) a = v mod 2 ^ (8 * Z.of_nat n).
Proof.
  unfold rd, wr.
  rewrite <- (length_le_split n v) at 2.
  rewrite get_put_same, le_combine_split. f_equal. f_equal. lia.
Qed.

Lemma rd_wr_other n' n m a v b :
  b + Z.of_nat n' <= a \/ a + Z.of_nat n <= b ->
  rd n' (wr n m a v) b = rd n' m b.
Proof.
  intros H. unfold rd, wr. rewrite get_put_other; [reflexivity|].
  now rewrite length_le_split.
Qed.

Lemma rd_range n m a : 0 <= rd n m a < 2 ^ (8 * Z.of_nat n).
Proof.
  unfold rd. pose proof (le_combine_bound (get_bytes m a n)) as H.
  unfold get_bytes, addrs in *. rewrite !length_map, length_seq in H.
  exact H.
Qed.

Lemma rd8_range m a : 0 <= rd 8 m a < 2 ^ 64.
Proof. apply (rd_range 8). Qed.

Lemma rd8_wr8_same m a v : 0 <= v < 2 ^ 64 -> rd 8 (wr 8 m a v) a = v.
Proof. intros H. rewrite rd_wr_same. apply Z.mod_small. exact H. Qed.

(** ** Stepping through the monad *)

Lemma valid_intro a n st :
  heap_base st <= a -> a + Z.of_nat n <= brk st -> valid a n st = true.
Proof.
  intros H1 H2. unfold valid. apply andb_true_intro.
  split; apply Z.leb_le; assumption.
Qed.

Lemma valid_elim a n st :
  valid a n st = true -> heap_base st <= a /\ a + Z.of_nat n <= brk st.
Proof.
  unfold valid. intros H. apply andb_prop in H as [H1 H2].
  split; apply Z.leb_le; assumption.
Qed.

Lemma load_Ok n a st :
  valid a n st = true -> load n a st = Ok (rd n (mem st) a) st.
Proof. intros H. unfold load. now rewrite H. Qed.

Lemma store_Ok n a v st :
  valid a n st = true -> store n a v st = Ok tt (set_mem (wr n (mem st) a v) st).
Proof. intros H. unfold store. now rewrite H. Qed.

Lemma load_inv n a st v st' :
  load n a st = Ok v st' ->
  valid a n st = true /\ v = rd n (mem st) a /\ st' = st.
Proof.
  unfold load. destruct (valid a n st); [|discriminate].
  intros H. inversion H. auto.
Qed.

Lemma store_inv n a v st u st' :
  store n a v st = Ok u st' ->
  valid a n st = true /\ st' = set_mem (wr n (mem st) a v) st.
Proof.
  unfold store. destruct (valid a n st); [|discriminate].
  intros H. inversion H. auto.
Qed.

(** The region is a range of user-space addresses: it does not contain the
    null address and does not reach the top of the address space. *)
Definition region_ok (st : state) : Prop :=
  0 < heap_base st /\ heap_base st <= brk st /\
  brk st <= heap_limit st /\ heap_limit st < 2 ^ 63.

(** ** Evaluation on a small heap *)

Definition heap0 : state := init_state 4096 8192.
Definition get_brk : M Z := fun st => Ok (brk st) st.
Definition get_free_list (fuel : nat) : M (option (list (Z * Z))) :=
  fun st => Ok (free_list fuel st) st.

(** allocate(s); release; allocate(s'): both addresses and the break
    before and after the second allocation. *)
Definition alloc_free_alloc (s s' : Z) : M (Z * Z * Z * Z) :=
  p <- tumalloc 8 s ;;
  tufree 8 p ;;;
  b <- get_brk ;;
  q <- tumalloc 8 s' ;;
  b' <- get_brk ;;
  ret (p, q, b, b').

(** C1 fails as stated: on a fresh heap, allocate(32), release,
    allocate(32) returns 4160, not 4112 again, and the break moves from
    4144 to 4192. *)
Lemma C1_counterexample :
  result (alloc_free_alloc 32 32 heap0) = Some (4112, 4160, 4144, 4192).
Proof. vm_compute. reflexivity. Qed.

(** ** Machine arithmetic without overflow *)

Lemma wrap64_small z : 0 <= z < 2 ^ 64 -> wrap64 z = z.
Proof. apply Z.mod_small. Qed.

Lemma wrap64_add_ne b d :
  0 <= b < 2 ^ 64 -> 0 < d < 2 ^ 64 -> wrap64 (b + d) <> b.
Proof.
  intros Hb Hd E. unfold wrap64 in E.
  pose proof (Z.div_mod (b + d) (2 ^ 64) ltac:(lia)) as H.
  rewrite E in H. lia.
Qed.

Lemma to_int_small z : - 2 ^ 31 <= z < 2 ^ 31 -> to_int z = z.
Proof. intros H. unfold to_int. rewrite Z.mod_small; lia. Qed.

Lemma to_intptr_small z : - 2 ^ 63 <= z < 2 ^ 63 -> to_intptr z = z.
Proof. intros H. unfold to_intptr. rewrite Z.mod_small; lia. Qed.

Ltac valid_tac :=
  apply valid_intro; cbn [heap_base brk set_mem set_HEAD set_brk Z.of_nat];
  unfold off_size, off_next, off_magic, sizeof_header, sizeof_free_block in *;
  lia.

Ltac step_load :=
  rewrite load_Ok by valid_tac; cbv beta iota.
Ltac step_store :=
  rewrite store_Ok by valid_tac; cbv beta iota.

(** ** split *)

Section Split.
Variables (st : state) (block n : Z).
Hypothesis Hreg : region_ok st.
Hypothesis Hn : 0 <= n < 2 ^ 31.
Hypothesis Hblock : valid block 16 st = true.
(** The bytes the node accounts for lie in the region. *)
Hypothesis Hextent :
  block + sizeof_free_block + rd 8 (mem st) block <= brk st.

Let S := rd 8 (mem st) block.
Let new_block := block + sizeof_free_block + n.

Lemma split_fails :
  S < n + sizeof_free_block -> split block n st = Ok NULL st.
Proof.
  intros HS. subst S. apply valid_elim in Hblock as [Hb1 Hb2].
  unfold split, load_size, bind.
  replace (block + off_size) with block by (unfold off_size; lia).
  step_load.
  rewrite wrap64_small by (unfold sizeof_free_block; lia).
  destruct (Z.ltb_spec (rd 8 (mem st) block) (n + sizeof_free_block)); [reflexivity | lia].
Qed.

(** The memory after a successful split. *)
Definition split_mem : memory :=
  wr 8 (wr 8 (wr 8 (mem st) new_block (S - n - sizeof_free_block))
              (new_block + off_next) (rd 8 (mem st) (block + off_next)))
       block n.

Lemma split_succeeds :
  n + sizeof_free_block <= S ->
  split block n st = Ok block (set_mem split_mem st).
Proof.
  intros HS. unfold split_mem. subst S new_block.
  apply valid_elim in Hblock as [Hb1 Hb2].
  destruct Hreg as (Hr1 & Hr0 & Hr2 & Hr3).
  pose proof (rd8_range (mem st) block) as HSr.
  unfold split, load_size, load_next, store_size, store_next, bind.
  unfold off_size, off_next, sizeof_free_block in *.
  rewrite !Z.add_0_r.
  step_load.
  rewrite (wrap64_small (n + 16)) by lia.
  destruct (Z.ltb_spec (rd 8 (mem st) block) (n + 16)); [lia|].
  rewrite (wrap64_small (block + n + 16)) by lia.
  rewrite (wrap64_small n) by lia.
  step_load. rewrite wrap64_small by lia.
  step_store. step_load. step_store. step_store.
  cbn [mem set_mem].
  rewrite rd_wr_other by (cbn [Z.of_nat]; lia).
  unfold ret, set_mem; cbn [mem heap_base brk heap_limit HEAD].
  replace (block + n + 16) with (block + 16 + n) by lia.
  reflexivity.
Qed.

End Split.

(** C7. For a free block of recorded size [S] lying in the region and a
    first-piece size [n] (a non-negative [int]), [split] succeeds exactly
    when [S >= n + sizeof(free_block)].  On failure it returns NULL and
    leaves the state as it was.  On success it returns [block] itself, now
    of size [n]; the node at [block + sizeof(free_block) + n] has size
    [S - n - sizeof(free_block)] and [block]'s old successor, which
    [block] keeps as well; HEAD and the break are untouched. *)
Theorem split_correct (st : state) (block n : Z) :
  region_ok st ->
  0 <= n < 2 ^ 31 ->
  valid block 16 st = true ->
  block + sizeof_free_block + rd 8 (mem st) block <= brk st ->
  let S := rd 8 (mem st) block in
  let new_block := block + sizeof_free_block + n in
  (forall r st', split block n st = Ok r st' ->
     (r <> NULL <-> n + sizeof_free_block <= S)) /\
  (S < n + sizeof_free_block -> split block n st = Ok NULL st) /\
  (n + sizeof_free_block <= S ->
   exists st',
     split block n st = Ok block st' /\
     load_size block st' = Ok n st' /\
     load_size new_block st' = Ok (S - n - sizeof_free_block) st' /\
     load_next new_block st' = Ok (rd 8 (mem st) (block + off_next)) st' /\
     load_next block st' = Ok (rd 8 (mem st) (block + off_next)) st' /\
     HEAD st' = HEAD st /\ brk st' = brk st).
Proof.
  intros Hreg Hn Hblock Hext S new_block.
  pose proof (split_fails st block n Hn Hblock) as Hfail.
  pose proof (split_succeeds st block n Hreg Hn Hblock Hext) as Hsucc.
  fold S in Hfail, Hsucc.
  assert (Hnz : block <> NULL).
  { apply valid_elim in Hblock as [Hb _]. destruct Hreg as [Hr _].
    unfold NULL. lia. }
  split; [|split].
  - intros r st' Hrun.
    destruct (Z.lt_ge_cases S (n + sizeof_free_block)) as [Hlt | Hge].
    + rewrite (Hfail Hlt) in Hrun. inversion Hrun; subst.
      split; [congruence | lia].
    + rewrite (Hsucc Hge) in Hrun. inversion Hrun; subst.
      split; auto.
  - exact Hfail.
  - intros Hge. eexists. split; [exact (Hsucc Hge)|].
    apply valid_elim in Hblock as [Hb1 Hb2].
    destruct Hreg as (Hr1 & Hr0 & Hr2 & Hr3).
    pose proof (rd8_range (mem st) block) as HSr.
    subst S new_block.
    unfold load_size, load_next, split_mem,
      off_size, off_next, sizeof_free_block in *.
    rewrite !Z.add_0_r.
    repeat split.
    + step_load. cbn [mem set_mem]. f_equal.
      apply rd8_wr8_same. lia.
    + step_load. cbn [mem set_mem]. f_equal.
      rewrite !rd_wr_other by (cbn [Z.of_nat]; lia).
      apply rd8_wr8_same. lia.
    + step_load. cbn [mem set_mem]. f_equal.
      rewrite rd_wr_other by (cbn [Z.of_nat]; lia).
      apply rd8_wr8_same. apply rd8_range.
    + step_load. cbn [mem set_mem]. f_equal.
      rewrite !rd_wr_other by (cbn [Z.of_nat]; lia).
      reflexivity.
Qed.

Lemma split_correct_witness :
  exists st',
    split 4096 32 (mkState (wr 8 (fun _ => Byte.x00) 4096 64) 4096 4176 8192 4096)
      = Ok 4096 st' /\
    load_size 4096 st' = Ok 32 st' /\
    load_size 4144 st' = Ok 16 st'.
Proof.
  pose (st := mkState (wr 8 (fun _ => Byte.x00) 4096 64) 4096 4176 8192 4096).
  assert (Hreg : region_ok st) by (unfold region_ok; simpl; lia).
  assert (Hn : 0 <= 32 < 2 ^ 31) by lia.
  assert (Hv : valid 4096 16 st = true) by reflexivity.
  assert (He : 4096 + sizeof_free_block + rd 8 (mem st) 4096 <= brk st)
    by (vm_compute; discriminate).
  destruct (split_correct st 4096 32 Hreg Hn Hv He) as (_ & _ & Hs).
  destruct Hs as (st' & H1 & H2 & H3 & _).
  - vm_compute. discriminate.
  - exists st'. auto.
Defined.

(** ** turealloc: the two delegating paths *)

(** C9. [turealloc(NULL, s)] is [tumalloc(s)]: same outcome, same state,
    for every [s].  For a non-null [p], [turealloc(p, 0)] is [tufree(p)]
    followed by returning NULL: the state is the one [tufree] leaves, and
    where [tufree] does not return neither does [turealloc]. *)
Theorem turealloc_delegates (fuel : nat) (p s : Z) (st : state) :
  turealloc fuel NULL s st = tumalloc fuel s st /\
  (p <> NULL ->
   turealloc fuel p 0 st =
   match tufree fuel p st with
   | Ok _ st' => Ok NULL st'
   | Fault => Fault
   | Aborted msg => Aborted msg
   | OutOfFuel => OutOfFuel
   end).
Proof.
  split; [reflexivity|].
  intros Hp. unfold turealloc.
  destruct (Z.eqb_spec p NULL) as [|_]; [contradiction|].
  cbn [Z.eqb]. unfold bind, ret.
  destruct (tufree fuel p st); reflexivity.
Qed.

Lemma turealloc_delegates_witness :
  turealloc 8 NULL 32 heap0 = tumalloc 8 32 heap0 /\
  turealloc 8 4112 0 heap0 =
  match tufree 8 4112 heap0 with
  | Ok _ st' => Ok NULL st'
  | Fault => Fault
  | Aborted msg => Aborted msg
  | OutOfFuel => OutOfFuel
  end.
Proof.
  destruct (turealloc_delegates 8 4112 32 heap0) as [H1 H2].
  split; [exact H1|]. apply H2. unfold NULL. lia.
Defined.

(** ** tufree *)

(** [tufree] starts by reading the sentinel of the header in front of
    [ptr], whatever [ptr] is. *)
Lemma tufree_reads_sentinel_first (fuel : nat) (ptr : Z) (st : state) :
  (load_magic (wrap64 (ptr - sizeof_header)) st = Fault ->
   tufree fuel ptr st = Fault) /\
  (forall v, load_magic (wrap64 (ptr - sizeof_header)) st = Ok v st ->
             v <> MAGIC ->
             tufree fuel ptr st = Aborted corruption_msg).
Proof.
  unfold tufree, bind. split.
  - intros ->. reflexivity.
  - intros v -> Hv. destruct (Z.eqb_spec v MAGIC); [contradiction|].
    reflexivity.
Qed.

(** C10. There is no null check in [tufree]: for the null pointer the
    header address is [0 - sizeof(header)], which wraps to the top of the
    address space, outside every region; the sentinel read there is an
    invalid access and [tufree(NULL)] does not return. *)
Theorem tufree_null_faults (fuel : nat) (st : state) :
  region_ok st ->
  wrap64 (NULL - sizeof_header) = 2 ^ 64 - 16 /\
  load_magic (wrap64 (NULL - sizeof_header)) st = Fault /\
  tufree fuel NULL st = Fault.
Proof.
  intros (Hr1 & Hr0 & Hr2 & Hr3).
  assert (Hw : wrap64 (NULL - sizeof_header) = 2 ^ 64 - 16) by reflexivity.
  assert (Hl : load_magic (wrap64 (NULL - sizeof_header)) st = Fault).
  { rewrite Hw. unfold load_magic, load, valid, off_magic.
    destruct (Z.leb_spec (2 ^ 64 - 16 + 8 + Z.of_nat 4) (brk st)) as [H|H].
    - cbn [Z.of_nat] in H. lia.
    - now rewrite andb_false_r. }
  repeat split; [exact Hl|].
  now apply tufree_reads_sentinel_first.
Qed.

Lemma tufree_null_faults_witness : tufree 8 NULL heap0 = Fault.
Proof.
  apply (tufree_null_faults 8 heap0).
  unfold region_ok; simpl; lia.
Defined.

(** ** do_alloc *)

(** The rounding expression of [do_alloc]. *)
Lemma align_mask_eq x :
  0 <= x < 2 ^ 64 ->
  Z.land x (wrap64 (Z.lnot (ALIGNMENT - 1))) = 16 * (x / 16).
Proof.
  intros Hx.
  change (wrap64 (Z.lnot (ALIGNMENT - 1))) with (Z.ldiff (Z.ones 64) (Z.ones 4)).
  transitivity (Z.ldiff x (Z.ones 4)).
  - apply Z.bits_inj'. intros i Hi.
    rewrite Z.land_spec, !Z.ldiff_spec.
    destruct (Z.lt_ge_cases i 64) as [Hlt | Hge].
    + rewrite (Z.ones_spec_low 64 i) by lia. now rewrite andb_true_l.
    + replace (Z.testbit x i) with false; [reflexivity|].
      symmetry. rewrite <- (Z.mod_small x (2 ^ 64)) by lia.
      apply Z.mod_pow2_bits_high. lia.
  - rewrite Z.ldiff_ones_r by lia.
    rewrite Z.shiftl_mul_pow2, Z.shiftr_div_pow2 by lia.
    change (2 ^ 4) with 16. lia.
Qed.

(** What [do_alloc] asks [sbrk] for: [size] rounded up to the alignment. *)
Definition round_up (size : Z) : Z := 16 * ((size + 15) / 16).

Lemma round_up_bounds size : size <= round_up size < size + 16.
Proof.
  unfold round_up.
  pose proof (Z.div_mod (size + 15) 16 ltac:(lia)).
  pose proof (Z.mod_pos_bound (size + 15) 16 ltac:(lia)). lia.
Qed.

Lemma round_up_aligned size : round_up size mod 16 = 0.
Proof. unfold round_up. rewrite Z.mul_comm. apply Z.mod_mul. lia. Qed.

Lemma do_alloc_zero st : do_alloc 0 st = Ok NULL st.
Proof. reflexivity. Qed.

Lemma do_alloc_grows size st :
  region_ok st -> 0 < size < 2 ^ 62 ->
  brk st + round_up size <= heap_limit st ->
  do_alloc size st = Ok (brk st) (set_brk (brk st + round_up size) st).
Proof.
  intros (Hr1 & Hr0 & Hr2 & Hr3) Hs Hroom.
  pose proof (round_up_bounds size) as Hb.
  unfold do_alloc.
  destruct (Z.leb_spec size 0); [lia|].
  unfold ALIGNMENT. replace (size + 16 - 1) with (size + 15) by lia.
  rewrite (wrap64_small (size + 15)) by lia.
  change 16 with ALIGNMENT at 1.
  rewrite align_mask_eq by lia. fold (round_up size).
  rewrite to_intptr_small by lia.
  unfold bind, sbrk.
  destruct (Z.leb_spec (heap_base st) (brk st + round_up size)); [|lia].
  destruct (Z.leb_spec (brk st + round_up size) (heap_limit st)); [|lia].
  cbn [andb].
  destruct (Z.eqb_spec (brk st) (wrap64 (-1))) as [E|_]; [|reflexivity].
  exfalso. change (wrap64 (-1)) with (2 ^ 64 - 1) in E. lia.
Qed.

Lemma do_alloc_refused size st :
  region_ok st -> 0 < size < 2 ^ 62 ->
  heap_limit st < brk st + round_up size ->
  do_alloc size st = Ok NULL st.
Proof.
  intros (Hr1 & Hr0 & Hr2 & Hr3) Hs Hroom.
  pose proof (round_up_bounds size) as Hb.
  unfold do_alloc.
  destruct (Z.leb_spec size 0); [lia|].
  unfold ALIGNMENT. replace (size + 16 - 1) with (size + 15) by lia.
  rewrite (wrap64_small (size + 15)) by lia.
  change 16 with ALIGNMENT at 1.
  rewrite align_mask_eq by lia. fold (round_up size).
  rewrite to_intptr_small by lia.
  unfold bind, sbrk.
  destruct (Z.leb_spec (brk st + round_up size) (heap_limit st)); [lia|].
  rewrite andb_false_r. reflexivity.
Qed.

(** ** Stamping a header *)

Definition stamp_mem (m : memory) (hdr size : Z) : memory :=
  wr 4 (wr 8 m hdr size) (hdr + off_magic) MAGIC.

Lemma stamp_Ok hdr size st :
  region_ok st -> valid hdr 16 st = true ->
  stamp hdr size st =
  Ok (hdr + sizeof_header) (set_mem (stamp_mem (mem st) hdr size) st).
Proof.
  intros (Hr1 & Hr0 & Hr2 & Hr3) Hv. apply valid_elim in Hv as [Hv1 Hv2].
  change (Z.of_nat 16) with 16 in Hv2.
  unfold stamp, stamp_mem, store_size, store_magic, bind, ret.
  unfold off_size, off_magic, sizeof_header. rewrite Z.add_0_r.
  step_store. step_store.
  rewrite wrap64_small by lia. reflexivity.
Qed.

Lemma stamp_mem_size m hdr size :
  0 <= size < 2 ^ 64 -> rd 8 (stamp_mem m hdr size) hdr = size.
Proof.
  intros H. unfold stamp_mem, off_magic.
  rewrite rd_wr_other by (cbn [Z.of_nat]; lia).
  now apply rd8_wr8_same.
Qed.

Lemma stamp_mem_magic m hdr size :
  rd 4 (stamp_mem m hdr size) (hdr + off_magic) = MAGIC.
Proof. unfold stamp_mem. rewrite rd_wr_same. reflexivity. Qed.

(** ** tumalloc with an empty free list *)

Section Fresh.
Variables (fuel : nat) (size : Z) (st : state).
Hypothesis Hreg : region_ok st.
Hypothesis Hhead : HEAD st = NULL.
Hypothesis Hsize : 0 <= size < 2 ^ 61.

Lemma tumalloc_fresh :
  brk st + round_up (size + sizeof_header) <= heap_limit st ->
  tumalloc fuel size st =
  Ok (brk st + sizeof_header)
     (set_mem (stamp_mem (mem st) (brk st) size)
        (set_brk (brk st + round_up (size + sizeof_header)) st)).
Proof.
  intros Hroom. pose proof Hreg as (Hr1 & Hr0 & Hr2 & Hr3).
  pose proof (round_up_bounds (size + sizeof_header)) as Hb.
  unfold sizeof_header in *.
  unfold tumalloc, bind, get_HEAD. rewrite Hhead. cbn [Z.eqb NULL].
  unfold sizeof_header. rewrite (wrap64_small (size + 16)) by lia.
  rewrite do_alloc_grows by (assumption || lia).
  destruct (Z.eqb_spec (brk st) NULL) as [E|_]; [unfold NULL in E; lia|].
  rewrite stamp_Ok.
  - reflexivity.
  - unfold region_ok. cbn [heap_base brk heap_limit set_brk]. lia.
  - apply valid_intro; cbn [heap_base brk set_brk Z.of_nat]; lia.
Qed.

Lemma tumalloc_fresh_refused :
  heap_limit st < brk st + round_up (size + sizeof_header) ->
  tumalloc fuel size st = Ok NULL st.
Proof.
  intros Hroom. unfold sizeof_header in *.
  unfold tumalloc, bind, get_HEAD. rewrite Hhead. cbn [Z.eqb NULL].
  unfold sizeof_header. rewrite (wrap64_small (size + 16)) by lia.
  rewrite do_alloc_refused by (assumption || lia).
  reflexivity.
Qed.
End Fresh.

(** ** tumalloc when the head of the free list fits *)

Section TakeHead.
Variables (fuel : nat) (size : Z) (st : state).
Hypothesis Hreg : region_ok st.
Hypothesis Hfuel : (1 <= fuel)%nat.
Hypothesis Hsize : 0 <= size /\ size + sizeof_header < 2 ^ 31.
Let b := HEAD st.
Hypothesis Hnode : valid b 16 st = true.
Hypothesis Hextent : b + sizeof_free_block + rd 8 (mem st) b <= brk st.
Hypothesis Hfit : size + sizeof_header <= rd 8 (mem st) b.

Lemma tumalloc_takes_head :
  exists m',
    tumalloc fuel size st =
    Ok (b + sizeof_header)
       (set_mem (stamp_mem m' b size)
          (set_HEAD (rd 8 (mem st) (b + off_next)) st)).
Proof.
  pose proof Hreg as (Hr1 & Hr0 & Hr2 & Hr3).
  pose proof Hnode as Hnode'. apply valid_elim in Hnode' as [Hb1 Hb2].
  change (Z.of_nat 16) with 16 in Hb2.
  pose proof (rd8_range (mem st) b) as HS.
  assert (Hint : to_int (wrap64 (size + sizeof_header)) = size + sizeof_header).
  { unfold sizeof_header in *. rewrite wrap64_small by lia.
    apply to_int_small. lia. }
  assert (Hn : 0 <= size + sizeof_header < 2 ^ 31)
    by (unfold sizeof_header in *; lia).
  destruct fuel as [|f]; [lia|].
  unfold tumalloc, bind, get_HEAD. fold b.
  destruct (Z.eqb_spec b NULL) as [E|_]; [unfold NULL in E; lia|].
  cbn [tumalloc_loop]. unfold bind.
  destruct (Z.eqb_spec b NULL) as [E|_]; [unfold NULL in E; lia|].
  unfold load_size at 1. unfold off_size. rewrite Z.add_0_r.
  step_load. rewrite Hint.
  rewrite (wrap64_small (size + sizeof_header)) by lia.
  destruct (Z.leb_spec (size + sizeof_header) (rd 8 (mem st) b)); [|lia].
  destruct (Z.lt_ge_cases (rd 8 (mem st) b)
              (size + sizeof_header + sizeof_free_block)) as [Hlt | Hge].
  - (* not enough slack: the whole block is used *)
    rewrite (split_fails st b (size + sizeof_header) Hn Hnode Hlt).
    cbn [Z.eqb NULL]. unfold remove_free_block, bind, get_HEAD. fold b.
    rewrite Z.eqb_refl. unfold load_next, put_HEAD, ret.
    step_load. rewrite stamp_Ok by assumption.
    exists (mem st). reflexivity.
  - (* the block is split *)
    rewrite (split_succeeds st b (size + sizeof_header) Hreg Hn Hnode Hextent Hge).
    destruct (Z.eqb_spec b NULL) as [E|_]; [unfold NULL in E; lia|].
    unfold remove_free_block, bind, get_HEAD.
    cbn [HEAD set_mem]. fold b. rewrite Z.eqb_refl.
    unfold load_next, put_HEAD, ret.
    step_load. rewrite stamp_Ok by assumption.
    cbn [mem set_mem set_HEAD heap_base brk heap_limit HEAD].
    eexists. unfold split_mem.
    rewrite rd_wr_other by (unfold off_next; cbn [Z.of_nat]; lia).
    rewrite rd_wr_other
      by (unfold off_next, sizeof_free_block, sizeof_header in *;
          cbn [Z.of_nat]; lia).
    rewrite rd_wr_other
      by (unfold off_next, sizeof_free_block, sizeof_header in *;
          cbn [Z.of_nat]; lia).
    reflexivity.
Qed.
End TakeHead.

(** ** The free list as a list of node addresses *)

(** [is_list st curr l]: following [next] from [curr] in [st] visits exactly
    the nodes [l], each a non-null pointer to sixteen bytes of the region,
    and then reaches NULL. *)
Fixpoint is_list (st : state) (curr : Z) (l : list Z) : Prop :=
  match l with
  | [] => curr = NULL
  | a :: r =>
    curr = a /\ a <> NULL /\ valid a 16 st = true /\
    is_list st (rd 8 (mem st) (a + off_next)) r
  end.

(** What the two neighbour scans compute over that list. *)
Definition prev_in (m : memory) (block : Z) (l : list Z) : Z :=
  match find (fun a => wrap64 (a + rd 8 m a + sizeof_free_block) =? block) l with
  | Some a => a
  | None => NULL
  end.

Definition next_in (block_end : Z) (l : list Z) : Z :=
  match find (fun a => a =? block_end) l with
  | Some a => a
  | None => NULL
  end.

Lemma node_valid_fields a st :
  valid a 16 st = true ->
  valid (a + off_size) 8 st = true /\ valid (a + off_next) 8 st = true.
Proof.
  intros H. apply valid_elim in H as [H1 H2].
  change (Z.of_nat 16) with 16 in H2.
  split; valid_tac.
Qed.

Lemma load_size_Ok a st :
  valid a 16 st = true -> load_size a st = Ok (rd 8 (mem st) a) st.
Proof.
  intros H. unfold load_size. rewrite load_Ok by now apply node_valid_fields.
  unfold off_size. now rewrite Z.add_0_r.
Qed.

Lemma load_next_Ok a st :
  valid a 16 st = true ->
  load_next a st = Ok (rd 8 (mem st) (a + off_next)) st.
Proof.
  intros H. unfold load_next. now rewrite load_Ok by now apply node_valid_fields.
Qed.

Lemma find_prev_loop_spec st block l :
  forall fuel curr,
    is_list st curr l -> (length l < fuel)%nat ->
    find_prev_loop fuel block curr st = Ok (prev_in (mem st) block l) st.
Proof.
  induction l as [|a r IH]; intros fuel curr Hl Hf;
    (destruct fuel as [|f]; [cbn [length] in Hf; lia|]); cbn [find_prev_loop].
  - cbn in Hl. subst curr. reflexivity.
  - destruct Hl as (-> & Hnz & Hv & Hr).
    destruct (Z.eqb_spec a NULL) as [E|_]; [contradiction|].
    unfold bind. rewrite load_size_Ok by exact Hv.
    unfold prev_in. cbn [find].
    destruct (wrap64 (a + rd 8 (mem st) a + sizeof_free_block) =? block);
      [reflexivity|].
    rewrite load_next_Ok by exact Hv.
    apply IH; [exact Hr | cbn [length] in Hf; lia].
Qed.

Lemma find_next_loop_spec st block_end l :
  forall fuel curr,
    is_list st curr l -> (length l < fuel)%nat ->
    find_next_loop fuel block_end curr st = Ok (next_in block_end l) st.
Proof.
  induction l as [|a r IH]; intros fuel curr Hl Hf;
    (destruct fuel as [|f]; [cbn [length] in Hf; lia|]); cbn [find_next_loop].
  - cbn in Hl. subst curr. reflexivity.
  - destruct Hl as (-> & Hnz & Hv & Hr).
    destruct (Z.eqb_spec a NULL) as [E|_]; [contradiction|].
    unfold next_in. cbn [find].
    destruct (a =? block_end); [reflexivity|].
    unfold bind. rewrite load_next_Ok by exact Hv.
    apply IH; [exact Hr | cbn [length] in Hf; lia].
Qed.

(** A list survives any change of memory that leaves its nodes' [next]
    fields alone, and any change of HEAD. *)
Lemma is_list_frame st st' l :
  heap_base st' = heap_base st -> brk st <= brk st' ->
  (forall a, In a l ->
     rd 8 (mem st') (a + off_next) = rd 8 (mem st) (a + off_next)) ->
  forall curr, is_list st curr l -> is_list st' curr l.
Proof.
  intros Hb Hk. induction l as [|a r IH]; intros Hm curr Hl; [exact Hl|].
  destruct Hl as (-> & Hnz & Hv & Hr).
  cbn [is_list]. repeat split; try assumption.
  - apply valid_elim in Hv as [H1 H2]. apply valid_intro; lia.
  - rewrite Hm by (left; reflexivity).
    apply IH; [|exact Hr]. intros x Hx. apply Hm. now right.
Qed.

Lemma find_ext_in {A} (f g : A -> bool) l :
  (forall a, In a l -> f a = g a) -> find f l = find g l.
Proof.
  induction l as [|x r IH]; intros H; [reflexivity|]. cbn [find].
  rewrite (H x) by (left; reflexivity).
  destruct (g x); [reflexivity|]. apply IH. intros a Ha. apply H. now right.
Qed.

Lemma is_list_In_valid st l :
  forall curr a, is_list st curr l -> In a l ->
                 a <> NULL /\ valid a 16 st = true.
Proof.
  induction l as [|x r IH]; intros curr a Hl Ha; [destruct Ha|].
  destruct Hl as (-> & Hnz & Hv & Hr).
  destruct Ha as [<- | Ha]; [auto|]. eapply IH; eassumption.
Qed.

Lemma is_list_next_In st l :
  forall curr a, is_list st curr l -> In a l ->
    rd 8 (mem st) (a + off_next) = NULL \/ In (rd 8 (mem st) (a + off_next)) l.
Proof.
  induction l as [|x r IH]; intros curr a Hl Ha; [destruct Ha|].
  destruct Hl as (-> & Hnz & Hv & Hr).
  destruct Ha as [<- | Ha].
  - destruct r as [|y r']; cbn [is_list] in Hr.
    + now left.
    + destruct Hr as (-> & _). right. right. now left.
  - destruct (IH _ _ Hr Ha) as [H|H]; [now left | right; now right].
Qed.

Lemma is_list_head st curr l :
  is_list st curr l -> curr = NULL \/ (In curr l /\ valid curr 16 st = true).
Proof.
  destruct l as [|a r]; cbn [is_list].
  - now left.
  - intros (-> & _ & Hv & _). right. split; [now left | exact Hv].
Qed.

Lemma store_size_Ok a v st :
  valid a 16 st = true ->
  store_size a v st = Ok tt (set_mem (wr 8 (mem st) a v) st).
Proof.
  intros H. unfold store_size. rewrite store_Ok by now apply node_valid_fields.
  unfold off_size. now rewrite Z.add_0_r.
Qed.

Lemma store_next_Ok a v st :
  valid a 16 st = true ->
  store_next a v st = Ok tt (set_mem (wr 8 (mem st) (a + off_next) v) st).
Proof.
  intros H. unfold store_next. now rewrite store_Ok by now apply node_valid_fields.
Qed.

Lemma load_magic_Ok a st :
  valid a 16 st = true ->
  load_magic a st = Ok (rd 4 (mem st) (a + off_magic)) st.
Proof.
  intros H. unfold load_magic. rewrite load_Ok; [reflexivity|].
  apply valid_elim in H as [H1 H2]. change (Z.of_nat 16) with 16 in H2.
  valid_tac.
Qed.

(** ** tufree *)

(** The node [tufree] writes over the header. *)
Definition node_mem (m : memory) (blk sz nx : Z) : memory :=
  wr 8 (wr 8 m blk sz) (blk + off_next) nx.

Lemma node_mem_size m blk sz nx :
  0 <= sz < 2 ^ 64 -> rd 8 (node_mem m blk sz nx) blk = sz.
Proof.
  intros H. unfold node_mem, off_next.
  rewrite rd_wr_other by (cbn [Z.of_nat]; lia). now apply rd8_wr8_same.
Qed.

Lemma node_mem_next m blk sz nx :
  0 <= nx < 2 ^ 64 -> rd 8 (node_mem m blk sz nx) (blk + off_next) = nx.
Proof. intros H. unfold node_mem. now apply rd8_wr8_same. Qed.

Lemma node_mem_outside m blk sz nx n a :
  a + Z.of_nat n <= blk \/ blk + 16 <= a ->
  rd n (node_mem m blk sz nx) a = rd n m a.
Proof.
  intros H. unfold node_mem, off_next.
  rewrite !rd_wr_other by (cbn [Z.of_nat]; lia). reflexivity.
Qed.

Section Free.
Variables (fuel : nat) (b : Z) (st : state) (l : list Z).
Hypothesis Hreg : region_ok st.
(** The free list is [l], shorter than the fuel. *)
Hypothesis Hlist : is_list st (HEAD st) l.
Hypothesis Hfuel : (length l + 1 < fuel)%nat.
(** Each node of it accounts for bytes of the region. *)
Hypothesis Hext_l :
  forall a, In a l -> a + sizeof_free_block + rd 8 (mem st) a <= brk st.
(** [b] is the header of an allocated block lying in the region, apart
    from every free node. *)
Hypothesis Hnode : valid b 16 st = true.
Hypothesis Hmagic : rd 4 (mem st) (b + off_magic) = MAGIC.
Hypothesis Hextent : b + sizeof_header + rd 8 (mem st) b <= brk st.
Hypothesis Hapart : forall a, In a l -> a + 16 <= b \/ b + 16 <= a.

Let s := rd 8 (mem st) b.

(** The state once the block is pushed on the list, before [coalesce]. *)
Definition pushed : state :=
  set_HEAD b (set_mem (node_mem (mem st) b s (HEAD st)) st).

Lemma tufree_pushes :
  tufree fuel (b + sizeof_header) st =
  (coalesce fuel b ;;; ret tt) pushed.
Proof.
  pose proof Hreg as (Hr1 & Hr0 & Hr2 & Hr3).
  pose proof Hnode as Hnode'. apply valid_elim in Hnode' as [Hb1 Hb2].
  change (Z.of_nat 16) with 16 in Hb2.
  unfold tufree. replace (b + sizeof_header - sizeof_header) with b by lia.
  rewrite (wrap64_small b) by lia.
  unfold bind at 1. rewrite load_magic_Ok by exact Hnode.
  rewrite Hmagic, Z.eqb_refl.
  unfold bind at 1. rewrite load_size_Ok by exact Hnode. fold s.
  unfold bind at 1. rewrite store_size_Ok by exact Hnode.
  unfold bind at 1. unfold get_HEAD at 1. cbn [HEAD set_mem].
  unfold bind at 1. rewrite store_next_Ok by exact Hnode.
  unfold bind at 1. unfold put_HEAD at 1.
  reflexivity.
Qed.

Lemma head_range : 0 <= HEAD st < 2 ^ 64.
Proof.
  destruct Hreg as (Hr1 & Hr0 & Hr2 & Hr3).
  destruct (is_list_head _ _ _ Hlist) as [-> | [_ Hv]].
  - unfold NULL. lia.
  - apply valid_elim in Hv as [H1 H2]. change (Z.of_nat 16) with 16 in H2. lia.
Qed.

Lemma s_range : 0 <= s /\ s + 16 < 2 ^ 63.
Proof.
  destruct Hreg as (Hr1 & Hr0 & Hr2 & Hr3).
  apply valid_elim in Hnode as [Hb1 Hb2].
  pose proof (rd8_range (mem st) b). subst s.
  unfold sizeof_header in *. lia.
Qed.

Lemma pushed_size : rd 8 (mem pushed) b = s.
Proof.
  unfold pushed. cbn [mem set_mem set_HEAD].
  apply node_mem_size. pose proof s_range. lia.
Qed.

Lemma pushed_next : rd 8 (mem pushed) (b + off_next) = HEAD st.
Proof.
  unfold pushed. cbn [mem set_mem set_HEAD].
  apply node_mem_next. apply head_range.
Qed.

Lemma pushed_other n a :
  a + Z.of_nat n <= b \/ b + 16 <= a ->
  rd n (mem pushed) a = rd n (mem st) a.
Proof.
  intros H. unfold pushed. cbn [mem set_mem set_HEAD].
  now apply node_mem_outside.
Qed.

Lemma pushed_node a :
  In a l ->
  rd 8 (mem pushed) a = rd 8 (mem st) a /\
  rd 8 (mem pushed) (a + off_next) = rd 8 (mem st) (a + off_next).
Proof.
  intros Ha. destruct (Hapart a Ha);
    split; apply pushed_other; unfold off_next; cbn [Z.of_nat]; lia.
Qed.

Lemma pushed_list : is_list pushed b (b :: l).
Proof.
  destruct Hreg as (Hr1 & Hr0 & Hr2 & Hr3).
  cbn [is_list]. repeat split.
  - apply valid_elim in Hnode as [Hb1 _]. unfold NULL. lia.
  - exact Hnode.
  - rewrite pushed_next.
    apply is_list_frame with (st := st); try reflexivity; [|exact Hlist].
    intros a Ha. now apply pushed_node.
Qed.

Let P := prev_in (mem st) b l.
Let N := next_in (b + sizeof_free_block + s) l.

Lemma block_not_own_end : wrap64 (b + s + sizeof_free_block) <> b.
Proof.
  destruct Hreg as (Hr1 & Hr0 & Hr2 & Hr3). pose proof s_range.
  apply valid_elim in Hnode as [Hb1 Hb2]. change (Z.of_nat 16) with 16 in Hb2.
  unfold sizeof_free_block. rewrite <- Z.add_assoc.
  apply wrap64_add_ne; lia.
Qed.

Lemma find_prev_pushed : find_prev fuel b pushed = Ok P pushed.
Proof.
  unfold find_prev, bind, get_HEAD. cbn [HEAD pushed set_HEAD].
  fold pushed.
  rewrite (find_prev_loop_spec pushed b (b :: l))
    by (apply pushed_list || (cbn [length]; lia)).
  f_equal. unfold prev_in. cbn [find]. rewrite pushed_size.
  destruct (Z.eqb_spec (wrap64 (b + s + sizeof_free_block)) b) as [E|_];
    [now apply block_not_own_end in E|].
  subst P. unfold prev_in.
  rewrite (find_ext_in _
             (fun a => wrap64 (a + rd 8 (mem st) a + sizeof_free_block) =? b));
    [reflexivity|].
  intros a Ha. destruct (pushed_node a Ha) as [-> _]. reflexivity.
Qed.

Lemma block_end_eq :
  wrap64 (b + s + sizeof_free_block) = b + sizeof_free_block + s.
Proof.
  destruct Hreg as (Hr1 & Hr0 & Hr2 & Hr3). pose proof s_range.
  apply valid_elim in Hnode as [Hb1 Hb2]. change (Z.of_nat 16) with 16 in Hb2.
  unfold sizeof_free_block. rewrite wrap64_small; lia.
Qed.

Lemma find_next_pushed : find_next fuel b pushed = Ok N pushed.
Proof.
  unfold find_next, bind. rewrite load_size_Ok by exact Hnode.
  rewrite pushed_size, block_end_eq.
  unfold get_HEAD. cbn [HEAD pushed set_HEAD]. fold pushed.
  rewrite (find_next_loop_spec pushed _ (b :: l))
    by (apply pushed_list || (cbn [length]; lia)).
  f_equal. unfold next_in. cbn [find].
  destruct (Z.eqb_spec b (b + sizeof_free_block + s)) as [E|_]; [|reflexivity].
  pose proof s_range. unfold sizeof_free_block in E. lia.
Qed.

Lemma P_cases :
  P = NULL \/
  (In P l /\ P <> NULL /\ valid P 16 st = true /\
   P + sizeof_free_block + rd 8 (mem st) P = b).
Proof.
  subst P. unfold prev_in.
  destruct (find _ l) as [a|] eqn:E; [right | now left].
  apply find_some in E as [Ha Ht]. apply Z.eqb_eq in Ht.
  destruct (is_list_In_valid _ _ _ _ Hlist Ha) as [Hnz Hv].
  repeat split; try assumption.
  destruct Hreg as (Hr1 & Hr0 & Hr2 & Hr3).
  pose proof (Hext_l a Ha) as He. pose proof (rd8_range (mem st) a).
  apply valid_elim in Hv as [Ha1 Ha2].
  unfold sizeof_free_block in *. rewrite wrap64_small in Ht by lia. lia.
Qed.

Lemma N_cases :
  N = NULL \/
  (In N l /\ N <> NULL /\ valid N 16 st = true /\
   N = b + sizeof_free_block + s).
Proof.
  subst N. unfold next_in.
  destruct (find _ l) as [a|] eqn:E; [right | now left].
  apply find_some in E as [Ha Ht]. apply Z.eqb_eq in Ht.
  destruct (is_list_In_valid _ _ _ _ Hlist Ha) as [Hnz Hv].
  repeat split; assumption.
Qed.

(** The block a merge ends up in, and the memory after each merge. *)
Definition merged_block : Z := if P =? NULL then b else P.

Definition merge_prev_mem (m : memory) : memory :=
  if P =? NULL then m
  else wr 8 m P (rd 8 (mem st) P + (s + sizeof_free_block)).

Definition merge_next_mem (m : memory) : memory :=
  if N =? NULL then m
  else
    wr 8 (wr 8 m merged_block
              (rd 8 m merged_block + (rd 8 (mem st) N + sizeof_free_block)))
         (merged_block + off_next) (rd 8 (mem st) (N + off_next)).

Lemma coalesce_prev_pushed :
  coalesce_prev b P pushed =
  Ok merged_block (set_mem (merge_prev_mem (mem pushed)) pushed).
Proof.
  unfold coalesce_prev, merged_block, merge_prev_mem.
  destruct P_cases as [HP | (HPin & HPnz & HPv & HPend)].
  - rewrite HP. reflexivity.
  - destruct (Z.eqb_spec P NULL) as [E|_]; [contradiction|].
    pose proof Hreg as (Hr1 & Hr0 & Hr2 & Hr3).
    pose proof s_range as Hs.
    pose proof (rd8_range (mem st) P) as Hps.
    pose proof (Hext_l P HPin) as HPe.
    pose proof HPv as HPv'. apply valid_elim in HPv' as [HP1 HP2].
    change (Z.of_nat 16) with 16 in HP2.
    pose proof Hnode as Hn'. apply valid_elim in Hn' as [Hb1 Hb2].
    change (Z.of_nat 16) with 16 in Hb2.
    destruct (pushed_node P HPin) as [HPs HPn].
    unfold sizeof_free_block in *.
    unfold bind at 1. rewrite load_size_Ok by exact HPv. rewrite HPs.
    rewrite (wrap64_small (P + rd 8 (mem st) P + 16)) by lia.
    destruct (Z.eqb_spec (P + rd 8 (mem st) P + 16) b) as [_|E]; [|lia].
    unfold bind at 1. rewrite load_size_Ok by exact HPv. rewrite HPs.
    unfold bind at 1. rewrite load_size_Ok by exact Hnode. rewrite pushed_size.
    rewrite (wrap64_small (s + 16)) by lia.
    rewrite (wrap64_small (rd 8 (mem st) P + (s + 16))) by lia.
    unfold bind at 1. rewrite store_size_Ok by exact HPv.
    unfold bind at 1. rewrite load_next_Ok by exact HPv.
    cbn [mem set_mem].
    rewrite rd_wr_other by (unfold off_next; cbn [Z.of_nat]; lia).
    rewrite HPn.
    destruct (Z.eqb_spec (rd 8 (mem st) (P + off_next)) b) as [E|_].
    + exfalso.
      destruct (is_list_next_In _ _ _ _ Hlist HPin) as [H0 | Hin].
      * rewrite H0 in E. unfold NULL in E. lia.
      * rewrite E in Hin. specialize (Hapart b Hin). lia.
    + reflexivity.
Qed.

Lemma merged_block_valid : valid merged_block 16 st = true.
Proof.
  unfold merged_block.
  destruct P_cases as [HP | (HPin & HPnz & HPv & HPend)].
  - rewrite HP. exact Hnode.
  - destruct (Z.eqb_spec P NULL) as [E|_]; [contradiction | exact HPv].
Qed.

(** After the first merge the block ends where [block] ended. *)
Lemma merged_block_size :
  merged_block + 16 <= b + 16 /\
  merged_block + sizeof_free_block + rd 8 (merge_prev_mem (mem pushed)) merged_block
  = b + sizeof_free_block + s.
Proof.
  unfold merged_block, merge_prev_mem.
  destruct P_cases as [HP | (HPin & HPnz & HPv & HPend)].
  - rewrite HP. cbn [Z.eqb NULL]. rewrite pushed_size. lia.
  - destruct (Z.eqb_spec P NULL) as [E|_]; [contradiction|].
    pose proof Hreg as (Hr1 & Hr0 & Hr2 & Hr3).
    pose proof s_range as Hs.
    pose proof (rd8_range (mem st) P) as Hps.
    pose proof (Hext_l P HPin) as HPe.
    apply valid_elim in HPv as [HP1 HP2].
    unfold sizeof_free_block in *.
    rewrite rd8_wr8_same by lia. lia.
Qed.

Lemma merge_prev_outside n a :
  b + 16 <= a ->
  rd n (merge_prev_mem (mem pushed)) a = rd n (mem st) a.
Proof.
  intros Ha. unfold merge_prev_mem.
  destruct P_cases as [HP | (HPin & HPnz & HPv & HPend)].
  - rewrite HP. cbn [Z.eqb NULL]. apply pushed_other. lia.
  - destruct (Z.eqb_spec P NULL) as [E|_]; [contradiction|].
    pose proof (rd8_range (mem st) P) as Hps.
    unfold sizeof_free_block in *.
    rewrite rd_wr_other by (cbn [Z.of_nat]; lia).
    apply pushed_other. lia.
Qed.

Lemma coalesce_next_pushed :
  coalesce_next merged_block N
    (set_mem (merge_prev_mem (mem pushed)) pushed) =
  Ok tt (set_mem (merge_next_mem (merge_prev_mem (mem pushed))) pushed).
Proof.
  unfold coalesce_next, merge_next_mem.
  destruct N_cases as [HN | (HNin & HNnz & HNv & HNeq)].
  - rewrite HN. reflexivity.
  - destruct (Z.eqb_spec N NULL) as [E|_]; [contradiction|].
    pose proof Hreg as (Hr1 & Hr0 & Hr2 & Hr3).
    pose proof s_range as Hs.
    pose proof (rd8_range (mem st) N) as Hns.
    pose proof (Hext_l N HNin) as HNe.
    pose proof merged_block_valid as Hmv.
    pose proof Hmv as Hmv'. apply valid_elim in Hmv' as [Hm1 Hm2].
    change (Z.of_nat 16) with 16 in Hm2.
    destruct merged_block_size as [Hle Hsz].
    pose proof (merge_prev_outside 8 N) as HNs.
    pose proof (merge_prev_outside 8 (N + off_next)) as HNn.
    set (m1 := merge_prev_mem (mem pushed)) in *.
    set (blk := merged_block) in *.
    pose proof (rd8_range m1 blk) as Hbs.
    unfold sizeof_free_block, off_next in *.
    specialize (HNs ltac:(lia)). specialize (HNn ltac:(lia)).
    unfold bind at 1. rewrite load_size_Ok by exact Hmv. cbn [mem set_mem].
    rewrite (wrap64_small (blk + rd 8 m1 blk + 16)) by lia.
    destruct (Z.eqb_spec (blk + rd 8 m1 blk + 16) N) as [_|E]; [|lia].
    unfold bind at 1. rewrite load_size_Ok by exact Hmv. cbn [mem set_mem].
    unfold bind at 1. rewrite load_size_Ok by exact HNv. cbn [mem set_mem].
    rewrite HNs.
    rewrite (wrap64_small (rd 8 (mem st) N + 16)) by lia.
    rewrite (wrap64_small (rd 8 m1 blk + (rd 8 (mem st) N + 16))) by lia.
    unfold bind at 1. rewrite store_size_Ok by exact Hmv. cbn [mem set_mem].
    unfold bind at 1. rewrite load_next_Ok by exact HNv. cbn [mem set_mem].
    unfold off_next.
    rewrite rd_wr_other by (cbn [Z.of_nat]; lia).
    rewrite HNn.
    rewrite store_next_Ok by exact Hmv.
    reflexivity.
Qed.

(** The state [tufree] leaves. *)
Definition freed : state :=
  set_mem (merge_next_mem (merge_prev_mem (mem pushed))) pushed.

Lemma tufree_Ok : tufree fuel (b + sizeof_header) st = Ok tt freed.
Proof.
  rewrite tufree_pushes. unfold bind at 1. unfold coalesce.
  destruct (Z.eqb_spec b NULL) as [E|_].
  { destruct Hreg as (Hr1 & _). apply valid_elim in Hnode as [Hb1 _].
    unfold NULL in E. lia. }
  unfold bind at 1. rewrite find_prev_pushed.
  unfold bind at 1. rewrite find_next_pushed.
  unfold bind at 1. rewrite coalesce_prev_pushed.
  unfold bind at 1. rewrite coalesce_next_pushed.
  reflexivity.
Qed.

Lemma freed_region :
  HEAD freed = b /\ heap_base freed = heap_base st /\
  brk freed = brk st /\ heap_limit freed = heap_limit st.
Proof. repeat split. Qed.

(** The freed block heads the list, is at least as large as the payload
    it held, and still accounts for bytes of the region only. *)
Lemma freed_head_size :
  s <= rd 8 (mem freed) b /\
  b + sizeof_free_block + rd 8 (mem freed) b <= brk st.
Proof.
  pose proof Hreg as (Hr1 & Hr0 & Hr2 & Hr3).
  pose proof s_range as Hs.
  pose proof Hnode as Hn'. apply valid_elim in Hn' as [Hb1 Hb2].
  change (Z.of_nat 16) with 16 in Hb2.
  unfold freed. cbn [mem set_mem].
  unfold merge_next_mem, merge_prev_mem, merged_block.
  destruct P_cases as [HP | (HPin & HPnz & HPv & HPend)];
    destruct N_cases as [HN | (HNin & HNnz & HNv & HNeq)].
  - rewrite HP, HN. cbn [Z.eqb NULL]. rewrite pushed_size.
    unfold sizeof_header, sizeof_free_block in *. lia.
  - rewrite HP. cbn [Z.eqb NULL].
    destruct (Z.eqb_spec N NULL) as [E|_]; [contradiction|].
    pose proof (rd8_range (mem st) N) as Hns.
    pose proof (Hext_l N HNin) as HNe.
    unfold sizeof_header, sizeof_free_block, off_next in *.
    rewrite rd_wr_other by (cbn [Z.of_nat]; lia).
    rewrite !pushed_size. rewrite rd8_wr8_same by lia. lia.
  - rewrite HN. cbn [Z.eqb NULL].
    destruct (Z.eqb_spec P NULL) as [E|_]; [contradiction|].
    pose proof (rd8_range (mem st) P) as Hps.
    unfold sizeof_header, sizeof_free_block, off_next in *.
    rewrite rd_wr_other by (cbn [Z.of_nat]; lia).
    rewrite pushed_size. lia.
  - destruct (Z.eqb_spec N NULL) as [E|_]; [contradiction|].
    destruct (Z.eqb_spec P NULL) as [E|_]; [contradiction|].
    pose proof (rd8_range (mem st) P) as Hps.
    unfold sizeof_header, sizeof_free_block, off_next in *.
    rewrite !rd_wr_other by (cbn [Z.of_nat]; lia).
    rewrite pushed_size. lia.
Qed.
End Free.

(** ** Reading a run backwards *)

Lemma bind_inv {A B} (c : M A) (k : A -> M B) st r st' :
  bind c k st = Ok r st' ->
  exists a st1, c st = Ok a st1 /\ k a st1 = Ok r st'.
Proof.
  unfold bind. destruct (c st) as [a st1| | |]; try discriminate.
  intros H. now exists a, st1.
Qed.

Lemma ret_inv {A} (a : A) st r st' : ret a st = Ok r st' -> r = a /\ st' = st.
Proof. unfold ret. intros H. inversion H. auto. Qed.

(** Steps that touch memory or HEAD leave the region as it is. *)
Definition same_region (st st' : state) : Prop :=
  heap_base st' = heap_base st /\ brk st' = brk st /\
  heap_limit st' = heap_limit st.

Lemma same_region_refl st : same_region st st.
Proof. repeat split. Qed.

Lemma same_region_trans st1 st2 st3 :
  same_region st1 st2 -> same_region st2 st3 -> same_region st1 st3.
Proof. unfold same_region. intuition congruence. Qed.

Lemma load_same n a st v st' : load n a st = Ok v st' -> st' = st.
Proof. intros H. now apply load_inv in H. Qed.

Lemma store_same_region n a v st u st' :
  store n a v st = Ok u st' -> same_region st st'.
Proof. intros H. apply store_inv in H as [_ ->]. repeat split. Qed.

Lemma split_inv block n st r st' :
  split block n st = Ok r st' ->
  (r = NULL \/ r = block) /\ same_region st st'.
Proof.
  unfold split. intros H.
  apply bind_inv in H as (bs & s1 & H1 & H).
  apply load_same in H1. subst s1.
  destruct (bs <? wrap64 (n + sizeof_free_block)).
  - apply ret_inv in H as [-> ->]. split; [now left | apply same_region_refl].
  - apply bind_inv in H as (bs' & s1 & H1 & H). apply load_same in H1. subst s1.
    apply bind_inv in H as (u1 & s1 & H1 & H). apply store_same_region in H1.
    apply bind_inv in H as (nx & s2 & H2 & H). apply load_same in H2. subst s2.
    apply bind_inv in H as (u2 & s2 & H2 & H). apply store_same_region in H2.
    apply bind_inv in H as (u3 & s3 & H3 & H). apply store_same_region in H3.
    apply ret_inv in H as [-> ->]. split; [now right|].
    eauto using same_region_trans.
Qed.

Lemma remove_free_block_loop_region block :
  forall fuel curr st u st',
    remove_free_block_loop fuel block curr st = Ok u st' -> same_region st st'.
Proof.
  induction fuel as [|f IH]; intros curr st u st' H; [discriminate|].
  cbn [remove_free_block_loop] in H.
  destruct (curr =? NULL).
  - apply ret_inv in H as [_ ->]. apply same_region_refl.
  - apply bind_inv in H as (nx & s1 & H1 & H). apply load_same in H1. subst s1.
    destruct (nx =? block).
    + apply bind_inv in H as (bn & s1 & H1 & H). apply load_same in H1. subst s1.
      now apply store_same_region in H.
    + eapply IH; eassumption.
Qed.

Lemma remove_free_block_region fuel block st u st' :
  remove_free_block fuel block st = Ok u st' -> same_region st st'.
Proof.
  unfold remove_free_block. intros H.
  apply bind_inv in H as (curr & s1 & H1 & H).
  unfold get_HEAD in H1. injection H1 as <- <-.
  destruct (HEAD st =? block).
  - apply bind_inv in H as (bn & s1 & H1 & H). apply load_same in H1. subst s1.
    unfold put_HEAD in H. inversion H. repeat split.
  - eapply remove_free_block_loop_region; eassumption.
Qed.

(** A returned [stamp] has written the header it returns the payload of. *)
Lemma stamp_inv hdr size st p st' :
  stamp hdr size st = Ok p st' ->
  brk st < 2 ^ 63 -> 0 < heap_base st -> 0 <= size < 2 ^ 64 ->
  p = hdr + sizeof_header /\ p <> NULL /\ same_region st st' /\
  heap_base st <= hdr /\ hdr + 12 <= brk st /\
  HEAD st' = HEAD st /\
  rd 8 (mem st') hdr = size /\ rd 4 (mem st') (hdr + off_magic) = MAGIC.
Proof.
  unfold stamp. intros H Hk Hb Hs.
  apply bind_inv in H as (u1 & s1 & H1 & H).
  apply store_inv in H1 as [Hv1 ->].
  apply bind_inv in H as (u2 & s2 & H2 & H).
  apply store_inv in H2 as [Hv2 ->].
  apply ret_inv in H as [-> ->].
  apply valid_elim in Hv1 as [Ha Hb1]. apply valid_elim in Hv2 as [Hc Hd].
  cbn [heap_base brk set_mem] in *.
  unfold off_size, off_magic, sizeof_header, NULL in *.
  change (Z.of_nat 8) with 8 in *. change (Z.of_nat 4) with 4 in *.
  rewrite Z.add_0_r in *.
  rewrite wrap64_small by lia.
  repeat split; try lia.
  - cbn [mem set_mem].
    rewrite rd_wr_other by (cbn [Z.of_nat]; lia). now apply rd8_wr8_same.
  - cbn [mem set_mem]. rewrite rd_wr_same. reflexivity.
Qed.

(** ** Alignment *)

(** The first [fuel] nodes met from [curr] on sit on the alignment. *)
Fixpoint aligned_walk (fuel : nat) (curr : Z) (st : state) : bool :=
  match fuel with
  | O => true
  | S f =>
    if curr =? NULL then true
    else (curr mod ALIGNMENT =? 0)
         && aligned_walk f (rd 8 (mem st) (curr + off_next)) st
  end.

Lemma to_intptr_aligned z : z mod 16 = 0 -> to_intptr z mod 16 = 0.
Proof.
  intros H. unfold to_intptr.
  rewrite (Z.mod_eq (z + 2 ^ 63) (2 ^ 64)) by lia.
  replace (z + 2 ^ 63 - 2 ^ 64 * ((z + 2 ^ 63) / 2 ^ 64) - 2 ^ 63)
    with (z + (- (2 ^ 60 * ((z + 2 ^ 63) / 2 ^ 64))) * 16) by lia.
  now rewrite Z.mod_add by lia.
Qed.

Lemma do_alloc_inv size st raw st' :
  do_alloc size st = Ok raw st' -> region_ok st ->
  (raw = NULL /\ st' = st) \/
  (raw = brk st /\ mem st' = mem st /\ HEAD st' = HEAD st /\
   heap_base st' = heap_base st /\ heap_limit st' = heap_limit st /\
   heap_base st <= brk st' <= heap_limit st /\
   (brk st' - brk st) mod 16 = 0).
Proof.
  unfold do_alloc. intros H (Hr1 & Hr0 & Hr2 & Hr3).
  destruct (size <=? 0).
  { apply ret_inv in H as [-> ->]. now left. }
  apply bind_inv in H as (ptr & s1 & H1 & H).
  unfold sbrk in H1.
  set (incr := to_intptr _) in H1.
  assert (Hincr : incr mod 16 = 0).
  { apply to_intptr_aligned. rewrite align_mask_eq.
    - rewrite Z.mul_comm. apply Z.mod_mul. lia.
    - apply Z.mod_pos_bound. lia. }
  destruct (Z.leb_spec (heap_base st) (brk st + incr));
    destruct (Z.leb_spec (brk st + incr) (heap_limit st));
    cbn [andb] in H1; injection H1 as <- <-.
  2-4: rewrite Z.eqb_refl in H; apply ret_inv in H as [-> ->]; now left.
  destruct (Z.eqb_spec (brk st) (wrap64 (-1))) as [E|_].
  { change (wrap64 (-1)) with (2 ^ 64 - 1) in E. lia. }
  apply ret_inv in H as [-> ->]. right.
  cbn [mem HEAD heap_base heap_limit brk set_brk].
  repeat split; try lia.
  now replace (brk st + incr - brk st) with incr by lia.
Qed.

Lemma tumalloc_loop_inv F size :
  forall fuel block st r st',
    tumalloc_loop fuel F size block st = Ok r st' ->
    match r with
    | None => st' = st
    | Some p =>
      exists hdr st1,
        stamp hdr size st1 = Ok p st' /\ same_region st st1 /\
        (aligned_walk fuel block st = true -> hdr mod 16 = 0)
    end.
Proof.
  induction fuel as [|f IH]; intros block st r st' H; [discriminate|].
  cbn [tumalloc_loop] in H.
  destruct (Z.eqb_spec block NULL) as [E|Hnz].
  { apply ret_inv in H as [-> ->]. reflexivity. }
  apply bind_inv in H as (bs & s1 & H1 & H).
  apply load_same in H1. subst s1.
  destruct (wrap64 (size + sizeof_header) <=? bs).
  - apply bind_inv in H as (hdr1 & s1 & H1 & H).
    apply split_inv in H1 as [Hhdr1 Hreg1].
    apply bind_inv in H as (hdr2 & s2 & H2 & H).
    assert (Hhdr2 : hdr2 = block /\ same_region s1 s2).
    { destruct (Z.eqb_spec hdr1 NULL) as [E|Hn1].
      - apply bind_inv in H2 as (u & s3 & H3 & H2).
        apply remove_free_block_region in H3.
        apply ret_inv in H2 as [-> ->]. auto.
      - apply bind_inv in H2 as (u & s3 & H3 & H2).
        apply remove_free_block_region in H3.
        apply ret_inv in H2 as [-> ->].
        destruct Hhdr1; [contradiction | auto]. }
    destruct Hhdr2 as [-> Hreg2].
    apply bind_inv in H as (p & s3 & H3 & H).
    apply ret_inv in H as [-> ->].
    exists block, s2. repeat split; try assumption.
    + eapply same_region_trans; eassumption.
    + eapply same_region_trans; eassumption.
    + eapply same_region_trans; eassumption.
    + cbn [aligned_walk].
      destruct (Z.eqb_spec block NULL) as [E|_]; [contradiction|].
      intros Ha. apply andb_prop in Ha as [Ha _].
      now apply Z.eqb_eq in Ha.
  - apply bind_inv in H as (nx & s1 & H1 & H).
    apply load_inv in H1 as (_ & -> & ->).
    apply IH in H. destruct r as [p|]; [|exact H].
    destruct H as (hdr & s1 & Hs & Hr & Ha).
    exists hdr, s1. repeat split; try assumption; try apply Hr.
    cbn [aligned_walk].
    destruct (Z.eqb_spec block NULL) as [E|_]; [contradiction|].
    intros Hw. apply andb_prop in Hw as [_ Hw]. auto.
Qed.

(** Every pointer [tumalloc] returns is NULL, with the state untouched, or
    the payload of a header it has just stamped. *)
Lemma tumalloc_inv fuel size st p st' :
  tumalloc fuel size st = Ok p st' -> region_ok st ->
  (p = NULL /\ st' = st) \/
  (exists hdr st1,
     stamp hdr size st1 = Ok p st' /\
     heap_base st1 = heap_base st /\ heap_limit st1 = heap_limit st /\
     heap_base st <= brk st1 <= heap_limit st /\
     (brk st1 - brk st) mod 16 = 0 /\
     (brk st mod 16 = 0 -> aligned_walk fuel (HEAD st) st = true ->
      hdr mod 16 = 0)).
Proof.
  unfold tumalloc. intros H Hreg.
  pose proof Hreg as (Hr1 & Hr0 & Hr2 & Hr3).
  apply bind_inv in H as (head & s0 & H0 & H).
  unfold get_HEAD in H0. injection H0 as <- <-.
  destruct (HEAD st =? NULL).
  - apply bind_inv in H as (raw & s1 & H1 & H).
    destruct (do_alloc_inv _ _ _ _ H1 Hreg)
      as [[-> ->] | (-> & Hm & Hh & Hb & Hl & Hk & Hd)].
    + cbn [Z.eqb NULL] in H. apply ret_inv in H as [-> ->]. now left.
    + destruct (Z.eqb_spec (brk st) NULL) as [E|_];
        [unfold NULL in E; lia|].
      right. exists (brk st), s1. repeat split; try assumption; try lia.
  - apply bind_inv in H as (r & s1 & H1 & H).
    apply tumalloc_loop_inv in H1. destruct r as [q|].
    + apply ret_inv in H as [-> ->].
      destruct H1 as (hdr & s2 & Hs & (Hb & Hk & Hl) & Ha).
      right. exists hdr, s2. repeat split; try assumption; try lia.
      * rewrite Hk. replace (brk st - brk st) with 0 by lia. reflexivity.
      * auto.
    + subst s1. apply bind_inv in H as (raw & s1 & H1 & H).
      right. exists raw, s1. split; [exact H|].
      destruct (do_alloc_inv _ _ _ _ H1 Hreg)
        as [[-> ->] | (-> & Hm & Hh & Hb & Hl & Hk & Hd)].
      * repeat split; try lia.
        now rewrite Z.sub_diag.
      * repeat split; try assumption; try lia.
Qed.

Lemma wrap64_aligned z : z mod 16 = 0 -> wrap64 z mod 16 = 0.
Proof.
  intros H. unfold wrap64.
  rewrite (Z.mod_eq z (2 ^ 64)) by lia.
  replace (z - 2 ^ 64 * (z / 2 ^ 64))
    with (z + (- (2 ^ 60 * (z / 2 ^ 64))) * 16) by lia.
  now rewrite Z.mod_add by lia.
Qed.

Lemma stamp_result hdr size st p st' :
  stamp hdr size st = Ok p st' ->
  p = wrap64 (hdr + sizeof_header) /\ same_region st st'.
Proof.
  unfold stamp. intros H.
  apply bind_inv in H as (u1 & s1 & H1 & H). apply store_same_region in H1.
  apply bind_inv in H as (u2 & s2 & H2 & H). apply store_same_region in H2.
  apply ret_inv in H as [-> ->].
  split; [reflexivity | eauto using same_region_trans].
Qed.

(** As long as the break and the free-list nodes sit on the 16-byte
    boundary, every pointer [tumalloc] returns is 16-byte aligned, whichever
    path produced it (fresh region, whole free block, split free block),
    and the break stays on the boundary.  The calls themselves do not
    keep the list that way, as the evaluation over overlapping entries
    further down shows. *)
Theorem tumalloc_aligned (fuel : nat) (size : Z) (st : state) (p : Z) (st' : state) :
  region_ok st ->
  brk st mod ALIGNMENT = 0 ->
  aligned_walk fuel (HEAD st) st = true ->
  tumalloc fuel size st = Ok p st' ->
  p mod ALIGNMENT = 0 /\ brk st' mod ALIGNMENT = 0.
Proof.
  intros Hreg Hbrk Hwalk Hrun. unfold ALIGNMENT in *.
  destruct (tumalloc_inv _ _ _ _ _ Hrun Hreg)
    as [[-> ->] | (hdr & st1 & Hs & Hb & Hl & Hk & Hd & Ha)].
  - split; [reflexivity | exact Hbrk].
  - apply stamp_result in Hs as (-> & _ & Hk' & _).
    specialize (Ha Hbrk Hwalk). split.
    + apply wrap64_aligned. unfold sizeof_header.
      rewrite <- Z.add_mod_idemp_l, Ha by lia. reflexivity.
    + rewrite Hk'.
      replace (brk st1) with (brk st + (brk st1 - brk st)) by lia.
      rewrite Z.add_mod, Hbrk, Hd by lia. reflexivity.
Qed.

Lemma tumalloc_aligned_witness :
  exists p st',
    tumalloc 8 32 heap0 = Ok p st' /\
    p mod ALIGNMENT = 0 /\ brk st' mod ALIGNMENT = 0.
Proof.
  assert (Hreg : region_ok heap0) by (unfold region_ok; simpl; lia).
  assert (Hrun : tumalloc 8 32 heap0 = _)
    by (apply (tumalloc_fresh 8 32 heap0 Hreg); [reflexivity | lia |
        vm_compute; discriminate]).
  eexists _, _. split; [exact Hrun|].
  apply (tumalloc_aligned 8 32 heap0 _ _ Hreg); [reflexivity | reflexivity | exact Hrun].
Defined.

(** ** What a successful allocation leaves behind *)

Lemma tumalloc_header fuel size st p st' :
  tumalloc fuel size st = Ok p st' -> region_ok st ->
  0 <= size < 2 ^ 64 -> p <> NULL ->
  region_ok st' /\
  heap_base st' <= p - sizeof_header /\ p - 4 <= brk st' /\
  rd 8 (mem st') (p - sizeof_header) = size /\
  rd 4 (mem st') (p - sizeof_header + off_magic) = MAGIC.
Proof.
  intros Hrun Hreg Hs Hp. pose proof Hreg as (Hr1 & Hr0 & Hr2 & Hr3).
  destruct (tumalloc_inv _ _ _ _ _ Hrun Hreg)
    as [[-> ->] | (hdr & st1 & Hst & Hb & Hl & Hk & Hd & Ha)];
    [contradiction|].
  apply stamp_inv in Hst; [|lia|lia|exact Hs].
  destruct Hst as (-> & _ & (Hb' & Hk' & Hl') & H1 & H2 & Hh & Hsz & Hmg).
  replace (hdr + sizeof_header - sizeof_header) with hdr by lia.
  unfold region_ok, sizeof_header in *. repeat split; try assumption; lia.
Qed.

(** ** Reuse of a released block *)

(** C1, as the code has it.  Let [p = allocate(s)] succeed and leave a heap
    whose free list [l] is well formed and apart from the new block.  Then
    [release(p)] returns and puts the block at the head of the list, and a
    following [allocate(s')] with [s' + sizeof(header) <= s] (both fitting
    [split]'s [int]) returns [p] again and leaves the break where it was. *)
Theorem reuse_after_free
    (fuel : nat) (st0 st : state) (l : list Z) (s s' p : Z) :
  region_ok st0 ->
  0 < s < 2 ^ 64 ->
  tumalloc fuel s st0 = Ok p st ->
  p <> NULL ->
  p + s <= brk st ->
  is_list st (HEAD st) l ->
  (length l + 1 < fuel)%nat ->
  (forall a, In a l -> a + sizeof_free_block + rd 8 (mem st) a <= brk st) ->
  (forall a, In a l -> a + 16 <= p - sizeof_header \/ p <= a) ->
  0 < s' ->
  s' + sizeof_header < 2 ^ 31 ->
  s' + sizeof_header <= s ->
  exists st2 st3,
    tufree fuel p st = Ok tt st2 /\
    tumalloc fuel s' st2 = Ok p st3 /\
    brk st2 = brk st /\ brk st3 = brk st2.
Proof.
  intros Hreg0 Hs Hrun Hp Hpay Hlist Hfuel Hext Hapart Hs' Hint Hfit.
  destruct (tumalloc_header _ _ _ _ _ Hrun Hreg0 ltac:(lia) Hp)
    as (Hreg & Hlo & Hhi & Hsz & Hmg).
  set (b := p - sizeof_header) in *.
  assert (Hpb : p = b + sizeof_header) by (unfold b; lia).
  assert (Hnode : valid b 16 st = true).
  { apply valid_intro; [exact Hlo|].
    change (Z.of_nat 16) with 16. unfold sizeof_header in *. lia. }
  assert (Hextent : b + sizeof_header + rd 8 (mem st) b <= brk st).
  { rewrite Hsz. unfold sizeof_header in *. lia. }
  assert (Hapart' : forall a, In a l -> a + 16 <= b \/ b + 16 <= a).
  { intros a Ha. specialize (Hapart a Ha). unfold sizeof_header in *. lia. }
  pose proof (tufree_Ok fuel b st l Hreg Hlist Hfuel Hext Hnode Hmg Hextent Hapart')
    as Hfree.
  pose proof (freed_head_size fuel b st l Hreg Hlist Hfuel Hext Hnode Hextent)
    as [Hge Hin].
  set (st2 := freed b st l) in *.
  assert (Htake : exists m',
             tumalloc fuel s' st2 =
             Ok (HEAD st2 + sizeof_header)
                (set_mem (stamp_mem m' (HEAD st2) s')
                   (set_HEAD (rd 8 (mem st2) (HEAD st2 + off_next)) st2))).
  { apply tumalloc_takes_head.
    - exact Hreg.
    - lia.
    - lia.
    - exact Hnode.
    - exact Hin.
    - change (HEAD st2) with b. rewrite Hsz in Hge. lia. }
  destruct Htake as (m' & Htake).
  eexists st2, _. rewrite Hpb.
  split; [exact Hfree|]. split; [exact Htake|].
  split; reflexivity.
Qed.

Lemma reuse_after_free_witness :
  exists st st2 st3,
    tumalloc 8 64 heap0 = Ok 4112 st /\
    tufree 8 4112 st = Ok tt st2 /\
    tumalloc 8 16 st2 = Ok 4112 st3 /\
    brk st2 = brk st /\ brk st3 = brk st2.
Proof.
  assert (Hreg : region_ok heap0) by (unfold region_ok; simpl; lia).
  assert (Hrun : tumalloc 8 64 heap0 = _)
    by (apply (tumalloc_fresh 8 64 heap0 Hreg); [reflexivity | lia |
        vm_compute; discriminate]).
  change (brk heap0 + sizeof_header) with 4112 in Hrun.
  eexists. 
  destruct (reuse_after_free 8 heap0 _ [] 64 16 4112 Hreg ltac:(lia) Hrun)
    as (st2 & st3 & H1 & H2 & H3 & H4).
  - unfold NULL. lia.
  - vm_compute. discriminate.
  - reflexivity.
  - cbn [length]. lia.
  - intros a [].
  - intros a [].
  - lia.
  - unfold sizeof_header. lia.
  - unfold sizeof_header. lia.
  - exists st2, st3. repeat split; assumption.
Defined.

(** ** Zero-sized requests *)

(** C4 on the code: a zero size is refused where it is checked, in
    [do_alloc] and in [tucalloc], but [tumalloc] has no check of its own
    and hands [do_alloc] the size plus [sizeof(header)].  On a fresh heap
    [tumalloc(0)] returns 4112, the payload pointer of a header-only block,
    and after allocate(32), release, it returns the released block, 4112
    again, with the break where it was. *)
Theorem tumalloc_zero_returns_block :
  result (do_alloc 0 heap0) = Some NULL /\
  result (tucalloc 8 0 8 heap0) = Some NULL /\
  result (tucalloc 8 8 0 heap0) = Some NULL /\
  result (tumalloc 8 0 heap0) = Some 4112 /\
  result (alloc_free_alloc 32 0 heap0) = Some (4112, 4112, 4144, 4144).
Proof. repeat split; vm_compute; reflexivity. Qed.

(** The same on every heap.  [do_alloc(0)] is NULL, but [tumalloc(0)] with
    an empty free list returns the payload pointer of a fresh header-only
    block whenever the region can grow by [sizeof(header)], and NULL only
    when it cannot; with a free list whose head records at least
    [sizeof(header)] bytes it returns the payload pointer of that head. *)
Theorem allocate_zero (fuel : nat) (st : state) :
  region_ok st -> (1 <= fuel)%nat ->
  do_alloc 0 st = Ok NULL st /\
  (HEAD st = NULL -> brk st + sizeof_header <= heap_limit st ->
   exists st',
     tumalloc fuel 0 st = Ok (brk st + sizeof_header) st' /\
     brk st + sizeof_header <> NULL /\
     brk st' = brk st + sizeof_header) /\
  (HEAD st = NULL -> heap_limit st < brk st + sizeof_header ->
   tumalloc fuel 0 st = Ok NULL st) /\
  (valid (HEAD st) 16 st = true ->
   HEAD st + sizeof_free_block + rd 8 (mem st) (HEAD st) <= brk st ->
   sizeof_header <= rd 8 (mem st) (HEAD st) ->
   exists st',
     tumalloc fuel 0 st = Ok (HEAD st + sizeof_header) st' /\
     HEAD st + sizeof_header <> NULL /\
     brk st' = brk st).
Proof.
  intros Hreg Hfuel. pose proof Hreg as (Hr1 & Hr0 & Hr2 & Hr3).
  assert (Hround : round_up (0 + sizeof_header) = sizeof_header) by reflexivity.
  split; [reflexivity|]. split; [|split].
  - intros Hhead Hroom. eexists. split.
    + apply (tumalloc_fresh fuel 0 st Hreg Hhead); [lia | rewrite Hround; lia].
    + split; [unfold NULL, sizeof_header; lia|].
      cbn [brk set_mem set_brk]. rewrite Hround. reflexivity.
  - intros Hhead Hroom.
    apply (tumalloc_fresh_refused fuel 0 st Hreg Hhead);
      [lia | rewrite Hround; lia].
  - intros Hv Hext Hfit.
    destruct (tumalloc_takes_head fuel 0 st Hreg Hfuel) as (m' & Hrun);
      try assumption.
    + unfold sizeof_header. lia.
    + eexists. split; [exact Hrun|].
      apply valid_elim in Hv as [Hv _].
      split; [unfold NULL, sizeof_header; lia | reflexivity].
Qed.

Lemma allocate_zero_witness :
  exists st',
    tumalloc 8 0 heap0 = Ok 4112 st' /\ 4112 <> NULL /\ brk st' = 4112.
Proof.
  assert (Hreg : region_ok heap0) by (unfold region_ok; simpl; lia).
  destruct (allocate_zero 8 heap0 Hreg ltac:(lia)) as (_ & H & _).
  apply H; [reflexivity | vm_compute; discriminate].
Defined.

(** ** Evaluation of the defects *)

Definition get_head : M Z := get_HEAD.

(** allocate(64); release; allocate(16): the block is split, and the state
    afterwards is observed: both addresses, HEAD, the free list, and the
    size recorded in the remainder node at [4096 + 16 + 32]. *)
Definition split_and_observe : M (Z * Z * Z * option (list (Z * Z)) * Z) :=
  p <- tumalloc 8 64 ;;
  tufree 8 p ;;;
  q <- tumalloc 8 16 ;;
  h <- get_head ;;
  fl <- get_free_list 8 ;;
  rest <- load_size (4096 + sizeof_free_block + (16 + sizeof_header)) ;;
  ret (p, q, h, fl, rest).

(** C2 on the code: the split writes the remainder node (16 bytes are
    left in it), but nothing links to it; after the allocation HEAD is NULL
    and the free list is empty. *)
Theorem split_remainder_unreachable :
  result (split_and_observe heap0) = Some (4112, 4112, NULL, Some [], 16).
Proof. vm_compute. reflexivity. Qed.

(** A 48-byte region, used up by one 32-byte block that is then released:
    the free list is not empty and the region cannot grow. *)
Definition exhausted : state :=
  match (p <- tumalloc 8 32 ;; tufree 8 p) (init_state 4096 4144) with
  | Ok _ st => st
  | _ => init_state 4096 4144
  end.

(** C3 on the code: with the one free block too small and the region
    exhausted, [tumalloc(64)] writes the header through the NULL that
    [do_alloc] returned; with the list empty the same request returns
    NULL. *)
Theorem fallback_dereferences_null :
  free_list 8 exhausted = Some [(4096, 32)] /\
  brk exhausted = heap_limit exhausted /\
  result (do_alloc (64 + sizeof_header) exhausted) = Some NULL /\
  tumalloc 8 64 exhausted = Fault /\
  result (tumalloc 8 64 (set_HEAD NULL exhausted)) = Some NULL.
Proof. repeat split; vm_compute; reflexivity. Qed.

(** Two 16-byte blocks allocated back to back, released in the order
    given by [first_a]; the addresses and the free list afterwards, and
    what a 32-byte request then returns. *)
Definition free_adjacent (first_a : bool)
  : M (Z * Z * option (list (Z * Z)) * Z * Z * Z) :=
  a <- tumalloc 8 16 ;;
  b <- tumalloc 8 16 ;;
  (if first_a then tufree 8 a ;;; tufree 8 b
   else tufree 8 b ;;; tufree 8 a) ;;;
  fl <- get_free_list 8 ;;
  k <- get_brk ;;
  c <- tumalloc 8 32 ;;
  k' <- get_brk ;;
  ret (a, b, fl, c, k, k').

(** C5 on the code: released lower block first, the merged entry of size
    [16 + 16 + 16] is there, but so is the second block, still at the head
    of the list; released the other way round, the list is the merged
    entry alone.  Either way a 32-byte request is served from the merged
    block and the break stays. *)
Theorem coalesce_leaves_two_entries :
  result (free_adjacent true heap0)
  = Some (4112, 4144, Some [(4128, 16); (4096, 48)], 4112, 4160, 4160) /\
  result (free_adjacent false heap0)
  = Some (4112, 4144, Some [(4096, 48)], 4112, 4160, 4160).
Proof. split; vm_compute; reflexivity. Qed.

(** ** Footprints: which bytes a call may change *)

Lemma wr_outside n m a v x :
  x < a \/ a + Z.of_nat n <= x -> wr n m a v x = m x.
Proof.
  intros H. unfold wr. apply put_bytes_outside.
  now rewrite length_le_split.
Qed.

Lemma rd_ext n m m' a :
  (forall x, a <= x < a + Z.of_nat n -> m' x = m x) ->
  rd n m' a = rd n m a.
Proof.
  intros H. unfold rd, get_bytes, addrs. f_equal. rewrite !map_map.
  apply map_ext_in. intros i Hi. apply in_seq in Hi. apply H. lia.
Qed.

Lemma get_bytes_length m a n : length (get_bytes m a n) = n.
Proof. unfold get_bytes, addrs. now rewrite !length_map, length_seq. Qed.

Lemma put_get_bytes m m' dst src n i :
  0 <= i < Z.of_nat n ->
  put_bytes m dst (get_bytes m' src n) (dst + i) = m' (src + i).
Proof.
  intros Hi. unfold put_bytes. rewrite get_bytes_length.
  destruct (Z.leb_spec dst (dst + i)); [|lia].
  destruct (Z.ltb_spec (dst + i) (dst + Z.of_nat n)); [|lia].
  cbn [andb]. replace (dst + i - dst) with i by lia.
  unfold get_bytes, addrs. rewrite map_map.
  rewrite nth_indep with (d' := m' (src + Z.of_nat 0))
    by (rewrite length_map, length_seq; lia).
  rewrite (map_nth (fun k => m' (src + Z.of_nat k))).
  rewrite seq_nth by lia. f_equal. lia.
Qed.

(** [remove_free_block] returns on every well-formed list, and writes at
    most one [next] field of a node of the list. *)
Lemma remove_free_block_loop_total block st l :
  valid block 16 st = true ->
  forall fuel curr,
    is_list st curr l -> (length l < fuel)%nat ->
    exists st',
      remove_free_block_loop fuel block curr st = Ok tt st' /\
      same_region st st' /\ HEAD st' = HEAD st /\
      forall x, (forall c, In c l -> x < c + 8 \/ c + 16 <= x) ->
                mem st' x = mem st x.
Proof.
  intros Hb. induction l as [|a r IH]; intros fuel curr Hl Hf;
    (destruct fuel as [|f]; [cbn [length] in Hf; lia|]);
    cbn [remove_free_block_loop].
  - cbn in Hl. subst curr. exists st. cbn [Z.eqb NULL].
    repeat split; reflexivity.
  - destruct Hl as (-> & Hnz & Hv & Hr).
    destruct (Z.eqb_spec a NULL) as [E|_]; [contradiction|].
    unfold bind at 1. rewrite load_next_Ok by exact Hv.
    destruct (rd 8 (mem st) (a + off_next) =? block).
    + unfold bind. rewrite load_next_Ok by exact Hb.
      rewrite store_next_Ok by exact Hv.
      eexists. split; [reflexivity|]. repeat split.
      intros x Hx. cbn [mem set_mem]. apply wr_outside.
      specialize (Hx a (or_introl eq_refl)). unfold off_next.
      change (Z.of_nat 8) with 8. lia.
    + destruct (IH f _ Hr ltac:(cbn [length] in Hf; lia))
        as (st' & Hrun & Hreg & Hh & Hm).
      exists st'. repeat split; try assumption; try apply Hreg.
      intros x Hx. apply Hm. intros c Hc. apply Hx. now right.
Qed.

Lemma remove_free_block_total fuel block st l :
  valid block 16 st = true ->
  is_list st (HEAD st) l -> (length l < fuel)%nat ->
  exists st',
    remove_free_block fuel block st = Ok tt st' /\
    same_region st st' /\
    forall x, (forall c, In c l -> x < c + 8 \/ c + 16 <= x) ->
              mem st' x = mem st x.
Proof.
  intros Hb Hl Hf. unfold remove_free_block, bind, get_HEAD.
  destruct (HEAD st =? block).
  - rewrite load_next_Ok by exact Hb. unfold put_HEAD.
    eexists. split; [reflexivity|]. repeat split.
  - destruct (remove_free_block_loop_total block st l Hb fuel _ Hl Hf)
      as (st' & Hrun & Hreg & _ & Hm).
    exists st'. auto.
Qed.

Lemma stamp_mem_byte_outside m hdr size x :
  x < hdr \/ hdr + 16 <= x -> stamp_mem m hdr size x = m x.
Proof.
  intros H. unfold stamp_mem, off_magic.
  rewrite !wr_outside; [reflexivity | |];
    (change (Z.of_nat 8) with 8 || change (Z.of_nat 4) with 4); lia.
Qed.

(** ** tumalloc over a well-formed free list *)

(** [x] lies in none of the free blocks of [l]. *)
Definition outside_free (st : state) (l : list Z) (x : Z) : Prop :=
  forall c, In c l -> x < c \/ c + sizeof_free_block + rd 8 (mem st) c <= x.

Section FirstFit.
Variables (F : nat) (size : Z) (st : state) (l : list Z).
Hypothesis Hreg : region_ok st.
Hypothesis Hlist : is_list st (HEAD st) l.
Hypothesis HF : (length l < F)%nat.
(** Free blocks lie in the region and do not overlap one another. *)
Hypothesis Hext_l :
  forall a, In a l -> a + sizeof_free_block + rd 8 (mem st) a <= brk st.
Hypothesis Hapart_l :
  forall a c, In a l -> In c l -> a <> c ->
    a + sizeof_free_block + rd 8 (mem st) a <= c \/
    c + sizeof_free_block + rd 8 (mem st) c <= a.
Hypothesis Hsize : 0 <= size /\ size + sizeof_header < 2 ^ 31.

Lemma split_step a :
  In a l -> size + sizeof_header <= rd 8 (mem st) a ->
  exists hdr s1,
    split a (to_int (wrap64 (size + sizeof_header))) st = Ok hdr s1 /\
    (hdr = NULL \/ hdr = a) /\
    same_region st s1 /\ HEAD s1 = HEAD st /\ is_list s1 (HEAD s1) l /\
    (forall x, x < a \/ a + sizeof_free_block + rd 8 (mem st) a <= x ->
               mem s1 x = mem st x).
Proof.
  intros Ha Hfit.
  destruct (is_list_In_valid _ _ _ _ Hlist Ha) as [Hnz Hv].
  pose proof (Hext_l a Ha) as He.
  pose proof (rd8_range (mem st) a) as HS.
  assert (Hint : to_int (wrap64 (size + sizeof_header)) = size + sizeof_header).
  { unfold sizeof_header in *. rewrite wrap64_small by lia.
    apply to_int_small. lia. }
  assert (Hn : 0 <= size + sizeof_header < 2 ^ 31)
    by (unfold sizeof_header in *; lia).
  rewrite Hint.
  destruct (Z.lt_ge_cases (rd 8 (mem st) a)
              (size + sizeof_header + sizeof_free_block)) as [Hlt | Hge].
  - exists NULL, st. rewrite (split_fails st a _ Hn Hv Hlt).
    repeat split; auto.
  - exists a, (set_mem (split_mem st a (size + sizeof_header)) st).
    rewrite (split_succeeds st a _ Hreg Hn Hv He Hge).
    split; [reflexivity|]. split; [now right|].
    split; [repeat split|]. split; [reflexivity|].
    unfold sizeof_header, sizeof_free_block, off_next in *.
    split.
    + cbn [HEAD set_mem].
      apply is_list_frame with (st := st); try reflexivity; [|exact Hlist].
      intros c Hc. cbn [mem set_mem]. unfold split_mem, off_next, sizeof_free_block.
      pose proof (rd8_range (mem st) c) as HSc.
      destruct (Z.eq_dec a c) as [<- | Hne].
      * rewrite !rd_wr_other by (cbn [Z.of_nat]; lia). reflexivity.
      * destruct (Hapart_l a c Ha Hc Hne);
          unfold sizeof_free_block in *;
          rewrite !rd_wr_other by (cbn [Z.of_nat]; lia); reflexivity.
    + intros x Hx. cbn [mem set_mem]. unfold split_mem, off_next, sizeof_free_block.
      rewrite !wr_outside; [reflexivity | | |];
        change (Z.of_nat 8) with 8; lia.
Qed.

Lemma take_fit a f :
  In a l -> size + sizeof_header <= rd 8 (mem st) a ->
  exists st1,
    tumalloc_loop (S f) F size a st = Ok (Some (a + sizeof_header)) st1 /\
    same_region st st1 /\
    (forall x, outside_free st l x -> mem st1 x = mem st x) /\
    rd 8 (mem st1) a = size /\
    rd 4 (mem st1) (a + off_magic) = MAGIC.
Proof.
  intros Ha Hfit.
  destruct (is_list_In_valid _ _ _ _ Hlist Ha) as [Hnz Hv].
  pose proof (rd8_range (mem st) a) as HS.
  destruct (split_step a Ha Hfit)
    as (hdr & s1 & Hsplit & Hhdr & Hreg1 & Hh1 & Hl1 & Hm1).
  assert (Hv1 : valid a 16 s1 = true).
  { destruct Hreg1 as (Hb & Hk & _). apply valid_elim in Hv as [H1 H2].
    apply valid_intro; lia. }
  destruct (remove_free_block_total F a s1 l Hv1 Hl1 HF)
    as (s2 & Hrem & Hreg2 & Hm2).
  assert (Hreg' : region_ok s2).
  { destruct Hreg1 as (Hb & Hk & Hl'), Hreg2 as (Hb2 & Hk2 & Hl2).
    unfold region_ok in *. rewrite Hb2, Hk2, Hl2, Hb, Hk, Hl'. exact Hreg. }
  assert (Hv2 : valid a 16 s2 = true).
  { destruct Hreg2 as (Hb & Hk & _). apply valid_elim in Hv1 as [H1 H2].
    apply valid_intro; lia. }
  assert (Hw : wrap64 (size + sizeof_header) = size + sizeof_header)
    by (unfold sizeof_header in *; apply wrap64_small; lia).
  exists (set_mem (stamp_mem (mem s2) a size) s2).
  split; [|split; [|split; [|split]]].
  - cbn [tumalloc_loop].
    destruct (Z.eqb_spec a NULL) as [E|_]; [contradiction|].
    unfold bind at 1. rewrite load_size_Ok by exact Hv.
    destruct (Z.leb_spec (wrap64 (size + sizeof_header)) (rd 8 (mem st) a))
      as [_|Hc]; [|rewrite Hw in Hc; lia].
    unfold bind at 1. rewrite Hsplit.
    assert (Hinner :
              (if hdr =? NULL
               then remove_free_block F a ;;; ret a
               else remove_free_block F hdr ;;; ret hdr) s1 = Ok a s2).
    { destruct Hhdr as [-> | ->].
      - cbn [Z.eqb NULL]. unfold bind. now rewrite Hrem.
      - destruct (Z.eqb_spec a NULL) as [E|_]; [contradiction|].
        unfold bind. now rewrite Hrem. }
    unfold bind at 1. rewrite Hinner.
    unfold bind at 1. rewrite stamp_Ok by assumption.
    reflexivity.
  - destruct Hreg1 as (Hb & Hk & Hl'), Hreg2 as (Hb2 & Hk2 & Hl2).
    unfold same_region. cbn [heap_base brk heap_limit set_mem].
    repeat split; congruence.
  - intros x Hx. cbn [mem set_mem].
    pose proof (Hx a Ha) as Hxa. unfold sizeof_free_block in *.
    rewrite stamp_mem_byte_outside by lia.
    rewrite Hm2.
    + apply Hm1. exact Hxa.
    + intros c Hc. specialize (Hx c Hc). unfold sizeof_free_block in Hx.
      pose proof (rd8_range (mem st) c). lia.
  - cbn [mem set_mem]. apply stamp_mem_size. unfold sizeof_header in *. lia.
  - cbn [mem set_mem]. apply stamp_mem_magic.
Qed.

(** The scan either stops at the first block that fits, or runs off the end
    of the list with the state untouched. *)
Lemma scan_list l' :
  forall fuel curr,
    is_list st curr l' -> (forall a, In a l' -> In a l) ->
    (length l' < fuel)%nat ->
    (exists a st1,
        In a l /\ size + sizeof_header <= rd 8 (mem st) a /\
        tumalloc_loop fuel F size curr st = Ok (Some (a + sizeof_header)) st1 /\
        same_region st st1 /\
        (forall x, outside_free st l x -> mem st1 x = mem st x) /\
        rd 8 (mem st1) a = size /\
        rd 4 (mem st1) (a + off_magic) = MAGIC) \/
    ((forall a, In a l' -> rd 8 (mem st) a < size + sizeof_header) /\
     tumalloc_loop fuel F size curr st = Ok None st).
Proof.
  assert (Hw : wrap64 (size + sizeof_header) = size + sizeof_header)
    by (unfold sizeof_header in *; apply wrap64_small; lia).
  induction l' as [|a r IH]; intros fuel curr Hl Hsub Hf;
    (destruct fuel as [|f]; [cbn [length] in Hf; lia|]).
  - right. cbn in Hl. subst curr. split; [intros a []|reflexivity].
  - destruct Hl as (-> & Hnz & Hv & Hr).
    assert (Ha : In a l) by (apply Hsub; now left).
    destruct (Z.le_gt_cases (size + sizeof_header) (rd 8 (mem st) a))
      as [Hfit | Hno].
    + left. destruct (take_fit a f Ha Hfit) as (st1 & H1 & H2 & H3 & H4 & H5).
      exists a, st1. repeat split; try assumption; apply H2.
    + assert (Hstep : tumalloc_loop (S f) F size a st =
                      tumalloc_loop f F size (rd 8 (mem st) (a + off_next)) st).
      { cbn [tumalloc_loop].
        destruct (Z.eqb_spec a NULL) as [E|_]; [contradiction|].
        unfold bind at 1. rewrite load_size_Ok by exact Hv.
        destruct (Z.leb_spec (wrap64 (size + sizeof_header)) (rd 8 (mem st) a))
          as [Hc|_]; [rewrite Hw in Hc; lia|].
        unfold bind. now rewrite load_next_Ok by exact Hv. }
      rewrite Hstep.
      destruct (IH f _ Hr) as [Hfound | [Hnone Hrun]].
      * intros x Hx. apply Hsub. now right.
      * cbn [length] in Hf. lia.
      * left. exact Hfound.
      * right. split; [|exact Hrun].
        intros x [<- | Hx]; [lia | now apply Hnone].
Qed.

(** The state after a fresh block of [size] bytes is carved from the
    region. *)
Definition fresh_state : state :=
  set_mem (stamp_mem (mem st) (brk st) size)
    (set_brk (brk st + round_up (size + sizeof_header)) st).

Lemma stamp_null_faults : stamp NULL size st = Fault.
Proof.
  destruct Hreg as (Hr1 & _).
  unfold stamp, bind, store_size, store, valid, off_size, NULL.
  destruct (Z.leb_spec (heap_base st) (0 + 0)); [lia | reflexivity].
Qed.

(** Every way [tumalloc] can go on a well-formed heap. *)
Lemma tumalloc_cases :
  (exists a st1,
      In a l /\ size + sizeof_header <= rd 8 (mem st) a /\
      tumalloc F size st = Ok (a + sizeof_header) st1 /\
      same_region st st1 /\
      (forall x, outside_free st l x -> mem st1 x = mem st x) /\
      rd 8 (mem st1) a = size /\
      rd 4 (mem st1) (a + off_magic) = MAGIC) \/
  ((forall a, In a l -> rd 8 (mem st) a < size + sizeof_header) /\
   ((brk st + round_up (size + sizeof_header) <= heap_limit st /\
     tumalloc F size st = Ok (brk st + sizeof_header) fresh_state) \/
    (heap_limit st < brk st + round_up (size + sizeof_header) /\
     ((HEAD st = NULL /\ tumalloc F size st = Ok NULL st) \/
      (HEAD st <> NULL /\ tumalloc F size st = Fault))))).
Proof.
  pose proof Hreg as (Hr1 & Hr0 & Hr2 & Hr3).
  assert (Hw : wrap64 (size + sizeof_header) = size + sizeof_header)
    by (unfold sizeof_header in *; apply wrap64_small; lia).
  assert (Hsz : 0 < size + sizeof_header < 2 ^ 62)
    by (unfold sizeof_header in *; lia).
  destruct (Z.eqb_spec (HEAD st) NULL) as [Hh | Hh].
  - (* empty list *)
    right. split.
    { rewrite Hh in Hlist. destruct l as [|a r]; [intros a []|].
      destruct Hlist as (E & Hnz & _). congruence. }
    destruct (Z.le_gt_cases (brk st + round_up (size + sizeof_header))
                (heap_limit st)) as [Hroom | Hroom].
    + left. split; [exact Hroom|].
      apply tumalloc_fresh; try assumption. unfold sizeof_header in *. lia.
    + right. split; [exact Hroom|]. left. split; [exact Hh|].
      apply tumalloc_fresh_refused; try assumption.
      unfold sizeof_header in *. lia.
  - destruct (scan_list l F (HEAD st) Hlist (fun a H => H) HF)
      as [(a & st1 & Ha & Hfit & Hrun & Hrest) | [Hnone Hrun]].
    + left. exists a, st1. repeat split; try assumption; try apply Hrest.
      unfold tumalloc, bind, get_HEAD.
      destruct (Z.eqb_spec (HEAD st) NULL) as [E|_]; [contradiction|].
      now rewrite Hrun.
    + right. split; [exact Hnone|].
      assert (Hfall : tumalloc F size st =
                      (raw <- do_alloc (wrap64 (size + sizeof_header)) ;;
                       stamp raw size) st).
      { unfold tumalloc at 1, bind at 1, get_HEAD.
        destruct (Z.eqb_spec (HEAD st) NULL) as [E|_]; [contradiction|].
        unfold bind at 1. now rewrite Hrun. }
      rewrite Hfall, Hw. unfold bind.
      destruct (Z.le_gt_cases (brk st + round_up (size + sizeof_header))
                  (heap_limit st)) as [Hroom | Hroom].
      * left. split; [exact Hroom|].
        rewrite do_alloc_grows by assumption.
        pose proof (round_up_bounds (size + sizeof_header)) as Hb.
        rewrite stamp_Ok; [reflexivity | |].
        -- unfold region_ok. cbn [heap_base brk heap_limit set_brk]. lia.
        -- apply valid_intro; cbn [heap_base brk set_brk];
             change (Z.of_nat 16) with 16; unfold sizeof_header in *; lia.
      * right. split; [exact Hroom|]. right. split; [exact Hh|].
        rewrite do_alloc_refused by assumption.
        apply stamp_null_faults.
Qed.

(** A NULL result leaves the state as it was. *)
Lemma tumalloc_null st1 :
  tumalloc F size st = Ok NULL st1 -> st1 = st.
Proof.
  intros Hrun. pose proof Hreg as (Hr1 & Hr0 & Hr2 & Hr3).
  destruct tumalloc_cases
    as [(a & s1 & Ha & Hfit & Hr & _) |
        [_ [[_ Hr] | [_ [[_ Hr] | [_ Hr]]]]]];
    rewrite Hr in Hrun; try discriminate.
  - exfalso. injection Hrun as E _.
    destruct (is_list_In_valid _ _ _ _ Hlist Ha) as [_ Hv].
    apply valid_elim in Hv as [Hv _].
    unfold NULL, sizeof_header in *. lia.
  - exfalso. injection Hrun as E _. unfold NULL, sizeof_header in *. lia.
  - now injection Hrun as <-.
Qed.

(** A non-NULL result is the payload of a stamped header; the block is
    carved from a free block or from the region beyond the old break, and
    no byte below the old break and outside the free blocks has changed. *)
Lemma tumalloc_post q st1 :
  tumalloc F size st = Ok q st1 -> q <> NULL ->
  heap_base st1 = heap_base st /\ brk st <= brk st1 /\
  heap_limit st1 = heap_limit st /\ brk st1 <= heap_limit st /\
  heap_base st <= q - sizeof_header /\ q + size <= brk st1 /\
  rd 8 (mem st1) (q - sizeof_header) = size /\
  rd 4 (mem st1) (q - sizeof_header + off_magic) = MAGIC /\
  (forall x, outside_free st l x -> x < brk st -> mem st1 x = mem st x) /\
  (forall x, q - sizeof_header <= x < q + size ->
             outside_free st l x -> brk st <= x).
Proof.
  intros Hrun Hq. pose proof Hreg as (Hr1 & Hr0 & Hr2 & Hr3).
  destruct tumalloc_cases
    as [(a & s1 & Ha & Hfit & Hr & (Hb & Hk & Hl) & Hm & Hs & Hg) |
        [_ [[Hroom Hr] | [_ [[_ Hr] | [_ Hr]]]]]];
    rewrite Hr in Hrun; try discriminate.
  - injection Hrun as <- <-.
    destruct (is_list_In_valid _ _ _ _ Hlist Ha) as [_ Hv].
    apply valid_elim in Hv as [Hv1 Hv2].
    pose proof (Hext_l a Ha) as He.
    replace (a + sizeof_header - sizeof_header) with a by lia.
    unfold sizeof_header, sizeof_free_block in *.
    repeat split; try assumption; try lia.
    + intros x Hx _. now apply Hm.
    + intros x Hx Hout. specialize (Hout a Ha).
      unfold sizeof_free_block in Hout. lia.
  - injection Hrun as <- <-.
    pose proof (round_up_bounds (size + sizeof_header)) as Hb.
    replace (brk st + sizeof_header - sizeof_header) with (brk st) by lia.
    unfold fresh_state. cbn [heap_base brk heap_limit mem set_mem set_brk].
    unfold sizeof_header in *.
    repeat split; try lia.
    + apply stamp_mem_size. lia.
    + apply stamp_mem_magic.
    + intros x _ Hx. apply stamp_mem_byte_outside. lia.
  - injection Hrun as <- _. contradiction.
Qed.

(** With an empty list, room in the region, or a block that fits,
    [tumalloc] returns. *)
Lemma tumalloc_total :
  HEAD st = NULL \/
  brk st + round_up (size + sizeof_header) <= heap_limit st \/
  (exists a, In a l /\ size + sizeof_header <= rd 8 (mem st) a) ->
  exists q st1, tumalloc F size st = Ok q st1.
Proof.
  intros H.
  destruct tumalloc_cases
    as [(a & s1 & Ha & Hfit & Hr & _) |
        [Hnone [[_ Hr] | [Hroom [[_ Hr] | [Hh Hr]]]]]]; eauto.
  exfalso. destruct H as [H | [H | (a & Ha & Hfit)]].
  - contradiction.
  - lia.
  - specialize (Hnone a Ha). lia.
Qed.
End FirstFit.

(** ** turealloc *)

Lemma memcpy_Ok dst src n st :
  0 <= n ->
  heap_base st <= dst -> dst + n <= brk st ->
  heap_base st <= src -> src + n <= brk st ->
  dst + n <= src \/ src + n <= dst ->
  memcpy dst src n st =
  Ok tt (set_mem (put_bytes (mem st) dst (get_bytes (mem st) src (Z.to_nat n))) st).
Proof.
  intros Hn Hd1 Hd2 Hs1 Hs2 Hapart. unfold memcpy.
  rewrite !valid_intro by lia.
  unfold ranges_overlap. rewrite Z2Nat.id by lia.
  destruct (Z.ltb_spec 0 n); [|reflexivity].
  destruct (Z.ltb_spec dst (src + n)), (Z.ltb_spec src (dst + n));
    try reflexivity; lia.
Qed.

(** [turealloc] where [tumalloc] returns.  Let [p] be a live block of a
    well-formed heap: its header lies in
    the region and records [old] payload bytes, the payload lies in the
    region, and header and payload are outside every free block.  For a
    request [new_size > 0] (fitting [split]'s [int]):
    - if [old >= new_size], [turealloc] returns [p] and changes nothing;
    - otherwise it calls [tumalloc(new_size)]; when that returns NULL,
      [turealloc] returns NULL and the state is untouched; when it
      returns [q], [turealloc] returns [q], the first [old] bytes at [q]
      are the bytes that were at [p], the old header and payload are
      intact, and the header of [q] records [new_size];
    - [turealloc] does return whenever the list is empty, the region has
      room, or a free block fits. *)
Theorem turealloc_correct
    (fuel : nat) (st : state) (l : list Z) (p new_size : Z) :
  region_ok st ->
  is_list st (HEAD st) l ->
  (length l < fuel)%nat ->
  (forall a, In a l -> a + sizeof_free_block + rd 8 (mem st) a <= brk st) ->
  (forall a c, In a l -> In c l -> a <> c ->
     a + sizeof_free_block + rd 8 (mem st) a <= c \/
     c + sizeof_free_block + rd 8 (mem st) c <= a) ->
  p <> NULL ->
  valid (p - sizeof_header) 16 st = true ->
  let old := rd 8 (mem st) (p - sizeof_header) in
  p + old <= brk st ->
  (forall x, p - sizeof_header <= x < p + old -> outside_free st l x) ->
  0 < new_size -> new_size + sizeof_header < 2 ^ 31 ->
  (new_size <= old -> turealloc fuel p new_size st = Ok p st) /\
  (old < new_size ->
   (forall st1, tumalloc fuel new_size st = Ok NULL st1 ->
      st1 = st /\ turealloc fuel p new_size st = Ok NULL st) /\
   (forall q st1, tumalloc fuel new_size st = Ok q st1 -> q <> NULL ->
      exists st2,
        turealloc fuel p new_size st = Ok q st2 /\
        (forall i, 0 <= i < old -> mem st2 (q + i) = mem st (p + i)) /\
        (forall x, p - sizeof_header <= x < p + old -> mem st2 x = mem st x) /\
        rd 8 (mem st2) (q - sizeof_header) = new_size) /\
   (HEAD st = NULL \/
    brk st + round_up (new_size + sizeof_header) <= heap_limit st \/
    (exists a, In a l /\ new_size + sizeof_header <= rd 8 (mem st) a) ->
    exists q st2, turealloc fuel p new_size st = Ok q st2)).
Proof.
  intros Hreg Hlist Hfuel Hext Hapart Hp Hhdr old Hpay Hout Hpos Hint.
  pose proof Hreg as (Hr1 & Hr0 & Hr2 & Hr3).
  pose proof Hhdr as Hhdr'. apply valid_elim in Hhdr' as [Hh1 Hh2].
  change (Z.of_nat 16) with 16 in Hh2.
  pose proof (rd8_range (mem st) (p - sizeof_header)) as Hold. fold old in Hold.
  assert (Hw : wrap64 (p - sizeof_header) = p - sizeof_header)
    by (apply wrap64_small; lia).
  assert (Hsz : 0 <= new_size /\ new_size + sizeof_header < 2 ^ 31) by lia.
  (* the common prefix of every path *)
  assert (Hstart :
             turealloc fuel p new_size st =
             (if new_size <=? old then ret p
              else
                new_ptr <- tumalloc fuel new_size ;;
                if new_ptr =? NULL then ret NULL
                else
                  old' <- load_size (p - sizeof_header) ;;
                  let copy_size := if old' <? new_size then old' else new_size in
                  memcpy new_ptr p copy_size ;;;
                  ret new_ptr) st).
  { unfold turealloc.
    destruct (Z.eqb_spec p NULL) as [E|_]; [contradiction|].
    destruct (Z.eqb_spec new_size 0) as [E|_]; [lia|].
    rewrite Hw. unfold bind at 1. rewrite load_size_Ok by exact Hhdr.
    reflexivity. }
  split.
  - intros Hle. rewrite Hstart.
    destruct (Z.leb_spec new_size old); [reflexivity | lia].
  - intros Hlt. rewrite Hstart.
    destruct (Z.leb_spec new_size old) as [|_]; [lia|].
    assert (Hgrow : forall q st1,
               tumalloc fuel new_size st = Ok q st1 -> q <> NULL ->
               exists st2,
                 (new_ptr <- tumalloc fuel new_size ;;
                  if new_ptr =? NULL then ret NULL
                  else
                    old' <- load_size (p - sizeof_header) ;;
                    let copy_size :=
                      if old' <? new_size then old' else new_size in
                    memcpy new_ptr p copy_size ;;;
                    ret new_ptr) st = Ok q st2 /\
                 (forall i, 0 <= i < old -> mem st2 (q + i) = mem st (p + i)) /\
                 (forall x, p - sizeof_header <= x < p + old ->
                            mem st2 x = mem st x) /\
                 rd 8 (mem st2) (q - sizeof_header) = new_size).
    { intros q st1 Hrun Hq.
      destruct (tumalloc_post fuel new_size st l Hreg Hlist Hfuel Hext
                  Hapart Hsz q st1 Hrun Hq)
        as (Hb & Hk & Hl & Hk' & Hq1 & Hq2 & Hsize & Hmagic & Hframe & Hcarve).
      assert (Hkeep : forall x, p - sizeof_header <= x < p + old ->
                                mem st1 x = mem st x).
      { intros x Hx. apply Hframe; [now apply Hout | lia]. }
      assert (Hold1 : rd 8 (mem st1) (p - sizeof_header) = old).
      { unfold old. apply rd_ext. intros x Hx. apply Hkeep.
        change (Z.of_nat 8) with 8 in Hx. unfold sizeof_header in *. lia. }
      assert (Hdisj : q + old <= p - sizeof_header \/ p + old <= q - sizeof_header).
      { destruct (Z.le_gt_cases (q + old) (p - sizeof_header)) as [|H1];
          [now left|].
        destruct (Z.le_gt_cases (p + old) (q - sizeof_header)) as [|H2];
          [now right|].
        exfalso. unfold sizeof_header in *.
        (* a byte of the old block would lie in the new one *)
        destruct (Z.le_gt_cases (q - 16) (p - 16)) as [Hc | Hc].
        - specialize (Hcarve (p - 16) ltac:(lia) (Hout (p - 16) ltac:(lia))). lia.
        - specialize (Hcarve (q - 16) ltac:(lia) (Hout (q - 16) ltac:(lia))). lia. }
      unfold bind at 1. rewrite Hrun.
      destruct (Z.eqb_spec q NULL) as [E|_]; [contradiction|].
      assert (Hv1 : valid (p - sizeof_header) 16 st1 = true)
        by (apply valid_intro; change (Z.of_nat 16) with 16; lia).
      unfold bind at 1. rewrite load_size_Ok by exact Hv1. rewrite Hold1.
      destruct (Z.ltb_spec old new_size) as [_|]; [|lia].
      unfold bind at 1.
      rewrite memcpy_Ok by (unfold sizeof_header in *; lia).
      eexists. split; [reflexivity|]. cbn [mem set_mem].
      split; [|split].
      * intros i Hi. rewrite put_get_bytes by (rewrite Z2Nat.id; lia).
        apply Hkeep. unfold sizeof_header. lia.
      * intros x Hx. rewrite put_bytes_outside.
        -- now apply Hkeep.
        -- rewrite get_bytes_length, Z2Nat.id by lia.
           unfold sizeof_header in *. lia.
      * rewrite <- Hsize. apply rd_ext. intros x Hx.
        change (Z.of_nat 8) with 8 in Hx.
        apply put_bytes_outside. unfold sizeof_header in *. lia. }
    split; [|split].
    + intros st1 Hrun.
      pose proof (tumalloc_null fuel new_size st l Hreg Hlist Hfuel Hext
                    Hapart Hsz st1 Hrun) as ->.
      split; [reflexivity|]. unfold bind. rewrite Hrun. reflexivity.
    + exact Hgrow.
    + intros Hcan.
      destruct (tumalloc_total fuel new_size st l Hreg Hlist Hfuel Hext
                  Hapart Hsz Hcan) as (q & st1 & Hrun).
      destruct (Z.eq_dec q NULL) as [-> | Hq].
      * exists NULL, st1. unfold bind. rewrite Hrun. reflexivity.
      * destruct (Hgrow q st1 Hrun Hq) as (st2 & H2 & _). eauto.
Qed.

(** The heap after one 16-byte allocation. *)
Definition one_block : state :=
  match tumalloc 8 16 heap0 with
  | Ok _ st => st
  | _ => heap0
  end.

Lemma turealloc_correct_witness :
  turealloc 8 4112 8 one_block = Ok 4112 one_block /\
  exists q st2, turealloc 8 4112 32 one_block = Ok q st2.
Proof.
  assert (Hreg : region_ok one_block) by (unfold region_ok; vm_compute; intuition discriminate).
  assert (Hl : is_list one_block (HEAD one_block) []) by reflexivity.
  assert (Hf : (length (@nil Z) < 8)%nat) by (cbn [length]; lia).
  assert (He : forall a, In a (@nil Z) ->
                 a + sizeof_free_block + rd 8 (mem one_block) a <= brk one_block)
    by (intros a []).
  assert (Ha : forall a c, In a (@nil Z) -> In c (@nil Z) -> a <> c ->
                 a + sizeof_free_block + rd 8 (mem one_block) a <= c \/
                 c + sizeof_free_block + rd 8 (mem one_block) c <= a)
    by (intros a c []).
  assert (Hp : 4112 <> NULL) by (unfold NULL; lia).
  assert (Hv : valid (4112 - sizeof_header) 16 one_block = true) by reflexivity.
  assert (Hpay : 4112 + rd 8 (mem one_block) (4112 - sizeof_header)
                 <= brk one_block) by (vm_compute; discriminate).
  assert (Hout : forall x,
             4112 - sizeof_header <= x
             < 4112 + rd 8 (mem one_block) (4112 - sizeof_header) ->
             outside_free one_block [] x) by (intros x _ c []).
  split.
  - apply (turealloc_correct 8 one_block [] 4112 8 Hreg Hl Hf He Ha Hp Hv Hpay Hout);
      [lia | unfold sizeof_header; lia | vm_compute; discriminate].
  - apply (turealloc_correct 8 one_block [] 4112 32 Hreg Hl Hf He Ha Hp Hv Hpay Hout);
      [lia | unfold sizeof_header; lia | vm_compute; reflexivity | now left].
Defined.

(** ** What the overlapping entries lead to *)

(** Two adjacent blocks of 4112 and 4110 bytes, released lower block first
    (the order in which [coalesce] leaves both entries on the list), then
    two more allocations; the four addresses and the free list before and
    after the third allocation. *)
Definition allocate_over_overlap
  : M (Z * Z * Z * Z * option (list (Z * Z)) * option (list (Z * Z))) :=
  a <- tumalloc 8 4112 ;;
  b <- tumalloc 8 4110 ;;
  tufree 8 a ;;;
  tufree 8 b ;;;
  fl <- get_free_list 8 ;;
  c <- tumalloc 8 4104 ;;
  fl' <- get_free_list 8 ;;
  d <- tumalloc 8 5000 ;;
  ret (a, b, c, d, fl, fl').

(** The third allocation splits the merged block, and the remainder node
    it writes lands on the [next] field of the entry that should have been
    unlinked; the list then runs through address 4102, and the fourth
    allocation returns 4118. *)
Lemma overlap_corrupts_list :
  result (allocate_over_overlap (init_state 4096 65536))
  = Some (4112, 8240, 4112, 4118,
          Some [(8224, 4110); (4096, 8238)],
          Some [(8224, 4110); (4102, 1250999861248)]).
Proof. vm_compute. reflexivity. Qed.



(** ** turealloc when the region is full *)

(** A 64-byte region filled by two 16-byte blocks, the lower one released:
    the free list holds one 16-byte block and the break is at the limit. *)
Definition full_region : state :=
  match (a <- tumalloc 8 16 ;; b <- tumalloc 8 16 ;; tufree 8 a)
          (init_state 4096 4160) with
  | Ok _ st => st
  | _ => init_state 4096 4160
  end.

(** The block at 4144 before and after [turealloc(4144, 64)], when the
    call returns: result, recorded size, sentinel, first payload bytes. *)
Definition grow_and_observe : M (Z * Z * Z * Z) :=
  q <- turealloc 8 4144 64 ;;
  sz <- load_size (4144 - sizeof_header) ;;
  mg <- load_magic (4144 - sizeof_header) ;;
  d <- load 8 4144 ;;
  ret (q, sz, mg, d).

(** C8 on the code: the block at 4144 is live, with a valid header that
    records 16 bytes, and the request for 64 bytes cannot be met: no free
    block fits and the region cannot grow.  [do_alloc] reports that with
    NULL, but [tumalloc] writes the header through that NULL, so
    [turealloc] faults where the claim has it return null.  With the free
    list empty, the sibling path of [tumalloc] checks for NULL and
    [turealloc] does return null with the block as it was. *)
Theorem turealloc_faults_when_full :
  free_list 8 full_region = Some [(4096, 16)] /\
  brk full_region = heap_limit full_region /\
  rd 8 (mem full_region) (4144 - sizeof_header) = 16 /\
  rd 4 (mem full_region) (4144 - sizeof_header + off_magic) = MAGIC /\
  result (do_alloc (64 + sizeof_header) full_region) = Some NULL /\
  tumalloc 8 64 full_region = Fault /\
  turealloc 8 4144 64 full_region = Fault /\
  result (grow_and_observe (set_HEAD NULL full_region))
  = Some (NULL, 16, MAGIC, 0).
Proof. repeat split; vm_compute; reflexivity. Qed.

(** * Further properties of the list algorithms *)

(** ** Walks are functions of the memory *)

Lemma is_list_fun st :
  forall l l' curr, is_list st curr l -> is_list st curr l' -> l = l'.
Proof.
  induction l as [|a r IH]; intros [|a' r'] curr H H'; cbn [is_list] in *.
  - reflexivity.
  - destruct H' as (E & Hnz & _). congruence.
  - destruct H as (E & Hnz & _). congruence.
  - destruct H as (-> & _ & _ & Hr), H' as (<- & _ & _ & Hr').
    f_equal. eapply IH; eassumption.
Qed.

Lemma is_list_suffix st l1 :
  forall curr a l2,
    is_list st curr (l1 ++ a :: l2) -> is_list st a (a :: l2).
Proof.
  induction l1 as [|x r IH]; intros curr a l2 H.
  - cbn [app is_list] in *. destruct H as (_ & H). split; [reflexivity | exact H].
  - cbn [app is_list] in H. destruct H as (_ & _ & _ & H). eapply IH, H.
Qed.

(** A list that reaches NULL visits no node twice. *)
Lemma is_list_NoDup st :
  forall l curr, is_list st curr l -> NoDup l.
Proof.
  induction l as [|a r IH]; intros curr H; [constructor|].
  pose proof H as (-> & _ & _ & Hr). constructor; [|eapply IH, Hr].
  intros Hin. apply in_split in Hin as (r1 & r2 & ->).
  pose proof (is_list_suffix st (a :: r1) a a r2 H) as Hs.
  pose proof (is_list_fun st _ _ _ H Hs) as E.
  apply (f_equal (@length Z)) in E.
  cbn [length] in E. rewrite length_app in E. cbn [length] in E. lia.
Qed.

Lemma find_first {A} (f : A -> bool) l x :
  find f l = Some x ->
  exists l1 l2, l = l1 ++ x :: l2 /\ f x = true /\
                forall y, In y l1 -> f y = false.
Proof.
  induction l as [|a r IH]; [discriminate|]. cbn [find].
  destruct (f a) eqn:E.
  - intros H. injection H as <-. exists [], r. repeat split; auto.
    intros y [].
  - intros H. destruct (IH H) as (l1 & l2 & -> & Hx & Hl1).
    exists (a :: l1), l2. repeat split; auto.
    intros y [<- | Hy]; auto.
Qed.

(** ** find_prev and find_next *)

(** X1. [find_prev] changes nothing and returns the first node, in list order,
    whose last byte is just before [block], or NULL when there is none. *)
Theorem find_prev_spec (fuel : nat) (block : Z) (st : state) (l : list Z) :
  is_list st (HEAD st) l ->
  (length l < fuel)%nat ->
  let ends_at a := wrap64 (a + rd 8 (mem st) a + sizeof_free_block) = block in
  exists r,
    find_prev fuel block st = Ok r st /\
    ((r = NULL /\ forall a, In a l -> ~ ends_at a) \/
     (exists l1 l2,
        l = l1 ++ r :: l2 /\ ends_at r /\ forall a, In a l1 -> ~ ends_at a)).
Proof.
  intros Hl Hf ends_at. exists (prev_in (mem st) block l). split.
  - unfold find_prev, bind, get_HEAD. now apply find_prev_loop_spec.
  - unfold prev_in.
    destruct (find _ l) as [a|] eqn:E.
    + right. apply find_first in E as (l1 & l2 & -> & Ha & Hl1).
      exists l1, l2. split; [reflexivity|]. split.
      * now apply Z.eqb_eq in Ha.
      * intros c Hc Hends. apply Hl1 in Hc. unfold ends_at in Hends.
        apply Z.eqb_neq in Hc. contradiction.
    + left. split; [reflexivity|]. intros a Ha Hends.
      apply (find_none _ _ E) in Ha. apply Z.eqb_neq in Ha. contradiction.
Qed.

(** X2. [find_next] changes nothing and returns the address just after
    [block]'s bytes when that address is a node of the list, NULL when it
    is not. *)
Theorem find_next_spec (fuel : nat) (block : Z) (st : state) (l : list Z) :
  is_list st (HEAD st) l ->
  (length l < fuel)%nat ->
  valid block 16 st = true ->
  let block_end := wrap64 (block + rd 8 (mem st) block + sizeof_free_block) in
  exists r,
    find_next fuel block st = Ok r st /\
    ((r = NULL /\ ~ In block_end l) \/ (r = block_end /\ In block_end l)).
Proof.
  intros Hl Hf Hv block_end. exists (next_in block_end l). split.
  - unfold find_next, bind. rewrite load_size_Ok by exact Hv.
    unfold get_HEAD. now apply find_next_loop_spec.
  - unfold next_in.
    destruct (find _ l) as [a|] eqn:E.
    + right. apply find_some in E as [Ha Hb]. apply Z.eqb_eq in Hb.
      subst a. auto.
    + left. split; [reflexivity|]. intros Hin.
      apply (find_none _ _ E) in Hin. now rewrite Z.eqb_refl in Hin.
Qed.

(** Three 16-byte blocks at 4096, 4128 and 4160; the first and the last
    are released, in that order. *)
Definition two_free : state :=
  match (a <- tumalloc 8 16 ;; b <- tumalloc 8 16 ;; c <- tumalloc 8 16 ;;
         tufree 8 a ;;; tufree 8 c) heap0 with
  | Ok _ st => st
  | _ => heap0
  end.

Lemma two_free_list : is_list two_free (HEAD two_free) [4160; 4096].
Proof.
  cbn [is_list]. repeat split; try reflexivity; unfold NULL; lia.
Qed.

Lemma two_free_region : region_ok two_free.
Proof. unfold region_ok. vm_compute. intuition discriminate. Qed.

Lemma find_prev_spec_witness :
  exists r,
    find_prev 8 4128 two_free = Ok r two_free /\
    ((r = NULL /\
      forall a, In a [4160; 4096] ->
        ~ wrap64 (a + rd 8 (mem two_free) a + sizeof_free_block) = 4128) \/
     (exists l1 l2,
        [4160; 4096] = l1 ++ r :: l2 /\
        wrap64 (r + rd 8 (mem two_free) r + sizeof_free_block) = 4128 /\
        forall a, In a l1 ->
          ~ wrap64 (a + rd 8 (mem two_free) a + sizeof_free_block) = 4128)).
Proof.
  apply (find_prev_spec 8 4128 two_free [4160; 4096]).
  - exact two_free_list.
  - cbn [length]. lia.
Defined.

Lemma find_next_spec_witness :
  exists r,
    find_next 8 4128 two_free = Ok r two_free /\
    ((r = NULL /\
      ~ In (wrap64 (4128 + rd 8 (mem two_free) 4128 + sizeof_free_block))
           [4160; 4096]) \/
     (r = wrap64 (4128 + rd 8 (mem two_free) 4128 + sizeof_free_block) /\
      In (wrap64 (4128 + rd 8 (mem two_free) 4128 + sizeof_free_block))
         [4160; 4096])).
Proof.
  apply (find_next_spec 8 4128 two_free [4160; 4096]).
  - exact two_free_list.
  - cbn [length]. lia.
  - reflexivity.
Defined.

(** ** remove_free_block *)




(** Nodes sixteen bytes apart: no two of them share a byte. *)
Definition nodes_apart (l : list Z) : Prop :=
  forall a c, In a l -> In c l -> a <> c -> a + 16 <= c \/ c + 16 <= a.

Section Unlink.
Variables (st : state) (a : Z) (l2 : list Z).

(** The memory once the node before [a] points past it. *)
Definition bypass (z : Z) : state :=
  set_mem (wr 8 (mem st) (z + off_next) (rd 8 (mem st) (a + off_next))) st.

Lemma remove_loop_reaches :
  forall pre x fuel,
    is_list st x (x :: pre ++ a :: l2) ->
    ~ In a (x :: pre) ->
    (length (x :: pre) < fuel)%nat ->
    remove_free_block_loop fuel a x st = Ok tt (bypass (last pre x)).
Proof.
  induction pre as [|y r IH]; intros x fuel Hl Hnot Hf;
    (destruct fuel as [|f]; [cbn [length] in Hf; lia|]);
    cbn [remove_free_block_loop];
    pose proof Hl as (_ & Hx & Hv & Hr);
    (destruct (Z.eqb_spec x NULL) as [E|_]; [contradiction|]);
    unfold bind at 1; rewrite load_next_Ok by exact Hv.
  - cbn [app is_list] in Hr. destruct Hr as (E & Ha & Hva & _).
    rewrite E, Z.eqb_refl.
    unfold bind. rewrite load_next_Ok by exact Hva.
    rewrite store_next_Ok by exact Hv. reflexivity.
  - cbn [app] in Hr. pose proof Hr as (E & _). rewrite E.
    destruct (Z.eqb_spec y a) as [Ey|_].
    { exfalso. apply Hnot. right. left. exact Ey. }
    rewrite <- E in Hr at 1. rewrite E in Hr.
    replace (last (y :: r) x) with (last r y)
      by (clear; revert y; induction r as [|z r IHr]; intros y;
          [reflexivity | cbn [last] in *; destruct r; [reflexivity | apply IHr]]).
    apply IH.
    + exact Hr.
    + intros Hin. apply Hnot. right. exact Hin.
    + cbn [length] in *. lia.
Qed.
End Unlink.

Lemma last_In {A} (r : list A) (y : A) : In (last r y) (y :: r).
Proof.
  revert y. induction r as [|z r IH]; intros y; [now left|].
  right. replace (last (z :: r) y) with (last r z); [apply IH|].
  clear. revert z. induction r as [|w r IHr]; intros z; [reflexivity|].
  cbn [last] in *. destruct r; [reflexivity | apply IHr].
Qed.

Lemma bypass_other st a z n c :
  c + Z.of_nat n <= z + 8 \/ z + 16 <= c ->
  rd n (mem (bypass st a z)) c = rd n (mem st) c.
Proof.
  intros H. unfold bypass, off_next. cbn [mem set_mem].
  apply rd_wr_other. change (Z.of_nat 8) with 8. lia.
Qed.

Lemma bypass_list st a l2 :
  forall pre x,
    is_list st x (x :: pre ++ a :: l2) ->
    NoDup (x :: pre ++ a :: l2) ->
    nodes_apart (x :: pre ++ a :: l2) ->
    forall z, z = last pre x ->
      (forall c, In c (x :: pre ++ a :: l2) -> c <> z -> c + 16 <= z \/ z + 16 <= c) ->
      ~ In z l2 ->
      is_list (bypass st a z) x (x :: pre ++ l2).
Proof.
  induction pre as [|y r IH]; intros x Hl Hnd Hap z Hz Hzap Hzl2.
  - cbn [last] in Hz. subst z. cbn [app] in *.
    destruct Hl as (_ & Hx & Hv & E & Ha & Hva & Hr).
    cbn [is_list]. repeat split; try assumption.
    unfold bypass at 2. cbn [mem set_mem].
    rewrite rd8_wr8_same by apply rd8_range.
    apply is_list_frame with (st := st); try reflexivity; [|exact Hr].
    intros c Hc. apply bypass_other. unfold off_next. change (Z.of_nat 8) with 8.
    assert (Hcx : c <> x) by (intros ->; contradiction).
    destruct (Hzap c ltac:(right; right; exact Hc) Hcx); lia.
  - cbn [app] in *. pose proof Hl as (_ & Hx & Hv & Hr).
    pose proof Hr as (E & _).
    assert (Hzy : z = last r y).
    { rewrite Hz. clear. revert y. induction r as [|w r IHr]; intros y;
        [reflexivity | cbn [last] in *; destruct r; [reflexivity | apply IHr]]. }
    assert (Hxz : x <> z).
    { intros ->. apply NoDup_cons_iff in Hnd as [Hnot _]. apply Hnot.
      rewrite Hzy. pose proof (last_In r y) as Hin.
      destruct Hin as [<- | Hin]; [now left|].
      right. apply in_or_app. now left. }
    change (x = x /\ x <> NULL /\ valid x 16 (bypass st a z) = true /\
            is_list (bypass st a z)
              (rd 8 (mem (bypass st a z)) (x + off_next)) (y :: r ++ l2)).
    split; [reflexivity|]. split; [exact Hx|]. split; [exact Hv|].
    rewrite bypass_other
      by (unfold off_next; change (Z.of_nat 8) with 8;
          destruct (Hzap x ltac:(now left) Hxz); lia).
    rewrite E. rewrite E in Hr.
    apply IH; try assumption.
    + now apply NoDup_cons_iff in Hnd as [_ Hnd].
    + intros c d Hc Hd. apply Hap; now right.
    + intros c Hc. apply Hzap. now right.
Qed.

Lemma unlink_run
    (fuel : nat) (st : state) (l1 : list Z) (a : Z) (l2 : list Z) :
  is_list st (HEAD st) (l1 ++ a :: l2) ->
  (length (l1 ++ a :: l2) < fuel)%nat ->
  nodes_apart (l1 ++ a :: l2) ->
  exists st',
    remove_free_block fuel a st = Ok tt st' /\
    is_list st' (HEAD st') (l1 ++ l2) /\
    same_region st st' /\
    forall c, In c (l1 ++ a :: l2) -> rd 8 (mem st') c = rd 8 (mem st) c.
Proof.
  intros Hl Hf Hap.
  pose proof (is_list_NoDup _ _ _ Hl) as Hnd.
  destruct l1 as [|x pre].
  - cbn [app] in *. destruct Hl as (Eh & Ha & Hv & Hr).
    exists (set_HEAD (rd 8 (mem st) (a + off_next)) st).
    unfold remove_free_block, bind, get_HEAD. rewrite Eh, Z.eqb_refl.
    rewrite load_next_Ok by exact Hv. unfold put_HEAD.
    split; [reflexivity|]. split; [|split; [repeat split | reflexivity]].
    cbn [HEAD set_HEAD].
    apply is_list_frame with (st := st); try reflexivity. exact Hr.
  - cbn [app] in *. pose proof Hl as (Eh & Hx & Hv & Hr).
    rewrite Eh in Hl.
    assert (Hnot : ~ In a (x :: pre)).
    { intros Hin. replace (x :: pre ++ a :: l2) with ((x :: pre) ++ a :: l2)
        in Hnd by reflexivity.
      apply NoDup_remove_2 in Hnd. apply Hnd. apply in_or_app. now left. }
    set (z := last pre x).
    assert (Hzin : In z (x :: pre)) by apply last_In.
    exists (bypass st a z).
    unfold remove_free_block, bind, get_HEAD. rewrite Eh.
    destruct (Z.eqb_spec x a) as [E|_]; [exfalso; apply Hnot; now left|].
    rewrite (remove_loop_reaches st a l2 pre x fuel).
    + split; [reflexivity|].
      assert (Hzap : forall c, In c (x :: pre ++ a :: l2) -> c <> z ->
                               c + 16 <= z \/ z + 16 <= c).
      { intros c Hc Hcz. apply Hap; [exact Hc | | exact Hcz].
        destruct Hzin as [<- | Hzin]; [now left|].
        right. apply in_or_app. now left. }
      split; [|split; [repeat split|]].
      * cbn [HEAD bypass set_mem]. rewrite Eh.
        apply bypass_list; try assumption; try reflexivity.
        -- intros Hin.
           replace (x :: pre ++ a :: l2) with ((x :: pre) ++ a :: l2)
             in Hnd by reflexivity.
           apply NoDup_app_remove_r in Hnd as Hnd1.
           assert (Hnd' : NoDup (((x :: pre) ++ [a]) ++ l2))
             by (rewrite <- app_assoc; exact Hnd).
           clear - Hnd' Hzin Hin.
           induction (x :: pre) as [|w ws IHw]; [destruct Hzin|].
           cbn [app] in Hnd'. apply NoDup_cons_iff in Hnd' as [Hw Hnd'].
           destruct Hzin as [-> | Hzin].
           ++ apply Hw. apply in_or_app. now right.
           ++ now apply IHw.
      * intros c Hc. apply bypass_other. change (Z.of_nat 8) with 8.
        destruct (Z.eq_dec c z) as [-> | Hcz]; [lia|].
        destruct (Hzap c Hc Hcz); lia.
    + exact Hl.
    + exact Hnot.
    + cbn [length] in *. rewrite length_app in Hf. lia.
Qed.



(** * Further properties of the allocation primitives *)

(** ** do_alloc *)

(** What [do_alloc] does for any non-zero [size_t]: the rounding is done
    modulo 2^64, [sbrk] is given the result as an [intptr_t], and NULL
    stands for a refusal by [sbrk]. *)
Lemma do_alloc_run (size : Z) (st : state) :
  region_ok st -> 0 < size < 2 ^ 64 ->
  do_alloc size st =
  let incr := to_intptr (16 * (wrap64 (size + 15) / 16)) in
  if (heap_base st <=? brk st + incr) && (brk st + incr <=? heap_limit st)
  then Ok (brk st) (set_brk (brk st + incr) st)
  else Ok NULL st.
Proof.
  intros (Hr1 & Hr0 & Hr2 & Hr3) Hs. unfold do_alloc.
  destruct (Z.leb_spec size 0); [lia|].
  unfold ALIGNMENT at 1. replace (size + 16 - 1) with (size + 15) by lia.
  rewrite align_mask_eq by (apply Z.mod_pos_bound; lia).
  cbv zeta. unfold bind, sbrk.
  destruct (_ && _).
  - destruct (Z.eqb_spec (brk st) (wrap64 (-1))) as [E|_]; [|reflexivity].
    exfalso. change (wrap64 (-1)) with (2 ^ 64 - 1) in E. lia.
  - rewrite Z.eqb_refl. reflexivity.
Qed.

(** X5. [do_alloc] returns NULL and leaves the state alone for a zero
    size.  For a size of at most 2^63 - 16 bytes it rounds the size up to
    the next multiple of 16, less than 16 bytes more than asked for:
    it returns the old break and moves the break up by that much, or
    returns NULL with the state unchanged when the region cannot grow that
    far.  For larger sizes the rounded size is no positive [intptr_t]:
    up to 2^64 - 16 it is a negative increment, and when the lowered break
    stays in the region [do_alloc] returns the old break with the break
    lowered by 2^64 minus the rounded size; above 2^64 - 16 the rounding
    wraps to zero and [do_alloc] returns the break without moving it. *)
Theorem do_alloc_spec (size : Z) (st : state) :
  region_ok st -> 0 <= size < 2 ^ 64 ->
  let grow := round_up size in
  (size = 0 -> do_alloc size st = Ok NULL st) /\
  (0 < size <= 2 ^ 63 - ALIGNMENT ->
   size <= grow < size + ALIGNMENT /\ grow mod ALIGNMENT = 0 /\
   (brk st + grow <= heap_limit st ->
    do_alloc size st = Ok (brk st) (set_brk (brk st + grow) st)) /\
   (heap_limit st < brk st + grow ->
    do_alloc size st = Ok NULL st)) /\
  (2 ^ 63 - ALIGNMENT < size <= 2 ^ 64 - ALIGNMENT ->
   heap_base st <= brk st - (2 ^ 64 - grow) ->
   do_alloc size st
   = Ok (brk st) (set_brk (brk st - (2 ^ 64 - grow)) st)) /\
  (2 ^ 64 - ALIGNMENT < size ->
   do_alloc size st = Ok (brk st) st).
Proof.
  intros Hreg Hs grow. pose proof Hreg as (Hr1 & Hr0 & Hr2 & Hr3).
  pose proof (round_up_bounds size) as Hb. fold grow in Hb.
  pose proof (round_up_aligned size) as Ha. fold grow in Ha.
  unfold ALIGNMENT.
  split; [intros ->; reflexivity|]. split; [|split].
  - intros Hin. split; [exact Hb|]. split; [exact Ha|].
    assert (Hrun := do_alloc_run size st Hreg ltac:(lia)). cbv zeta in Hrun.
    rewrite (wrap64_small (size + 15)) in Hrun by lia.
    fold (round_up size) in Hrun. fold grow in Hrun.
    rewrite to_intptr_small in Hrun by lia.
    split; intros Hroom; rewrite Hrun.
    + destruct (Z.leb_spec (heap_base st) (brk st + grow)); [|lia].
      destruct (Z.leb_spec (brk st + grow) (heap_limit st)); [|lia].
      reflexivity.
    + destruct (Z.leb_spec (brk st + grow) (heap_limit st)); [lia|].
      rewrite andb_false_r. reflexivity.
  - intros Hin Hlow.
    assert (Hrun := do_alloc_run size st Hreg ltac:(lia)). cbv zeta in Hrun.
    rewrite (wrap64_small (size + 15)) in Hrun by lia.
    fold (round_up size) in Hrun. fold grow in Hrun.
    assert (Hg : 2 ^ 63 <= grow < 2 ^ 64).
    { apply Z.mod_divide in Ha; [|lia]. destruct Ha as [q Hq]. lia. }
    assert (Hi : to_intptr grow = grow - 2 ^ 64).
    { unfold to_intptr.
      replace (grow + 2 ^ 63) with (grow - 2 ^ 63 + 1 * 2 ^ 64) by lia.
      rewrite Z.mod_add by lia. rewrite Z.mod_small by lia. lia. }
    rewrite Hi in Hrun. rewrite Hrun.
    replace (brk st + (grow - 2 ^ 64)) with (brk st - (2 ^ 64 - grow)) by lia.
    destruct (Z.leb_spec (heap_base st) (brk st - (2 ^ 64 - grow))); [|lia].
    destruct (Z.leb_spec (brk st - (2 ^ 64 - grow)) (heap_limit st)); [|lia].
    reflexivity.
  - intros Hin.
    assert (Hrun := do_alloc_run size st Hreg ltac:(lia)). cbv zeta in Hrun.
    assert (Hw : wrap64 (size + 15) = size + 15 - 2 ^ 64).
    { unfold wrap64.
      replace (size + 15) with (size + 15 - 2 ^ 64 + 1 * 2 ^ 64) at 1 by lia.
      rewrite Z.mod_add by lia. apply Z.mod_small. lia. }
    rewrite Hw in Hrun.
    rewrite (Z.div_small (size + 15 - 2 ^ 64) 16) in Hrun by lia.
    change (to_intptr (16 * 0)) with 0 in Hrun. rewrite Z.add_0_r in Hrun.
    rewrite Hrun.
    destruct (Z.leb_spec (heap_base st) (brk st)); [|lia].
    destruct (Z.leb_spec (brk st) (heap_limit st)); [|lia].
    destruct st; reflexivity.
Qed.

Lemma do_alloc_spec_witness :
  do_alloc 40 heap0 = Ok 4096 (set_brk (4096 + 48) heap0) /\
  do_alloc (2 ^ 64 - 32) (set_brk 4176 heap0)
  = Ok 4176 (set_brk (4176 - 32) (set_brk 4176 heap0)) /\
  do_alloc (2 ^ 64 - 1) heap0 = Ok 4096 heap0.
Proof.
  assert (Hreg : region_ok heap0) by (unfold region_ok; simpl; lia).
  assert (Hreg' : region_ok (set_brk 4176 heap0))
    by (unfold region_ok; simpl; lia).
  split; [|split].
  - destruct (do_alloc_spec 40 heap0 Hreg ltac:(lia)) as (_ & H & _).
    destruct H as (_ & _ & H & _); [unfold ALIGNMENT; lia|].
    apply H. vm_compute. discriminate.
  - destruct (do_alloc_spec (2 ^ 64 - 32) (set_brk 4176 heap0) Hreg'
                ltac:(lia)) as (_ & _ & H & _).
    apply H; [unfold ALIGNMENT; lia | vm_compute; discriminate].
  - destruct (do_alloc_spec (2 ^ 64 - 1) heap0 Hreg ltac:(lia))
      as (_ & _ & _ & H).
    apply H. unfold ALIGNMENT. lia.
Defined.

(** ** tufree never moves the break *)

Lemma find_prev_loop_same block :
  forall fuel curr st r st',
    find_prev_loop fuel block curr st = Ok r st' -> st' = st.
Proof.
  induction fuel as [|f IH]; intros curr st r st' H; [discriminate|].
  cbn [find_prev_loop] in H. destruct (curr =? NULL).
  - now apply ret_inv in H.
  - apply bind_inv in H as (sz & s1 & H1 & H). apply load_same in H1. subst s1.
    destruct (_ =? block).
    + now apply ret_inv in H.
    + apply bind_inv in H as (nx & s1 & H1 & H). apply load_same in H1.
      subst s1. eapply IH, H.
Qed.

Lemma find_next_loop_same block_end :
  forall fuel curr st r st',
    find_next_loop fuel block_end curr st = Ok r st' -> st' = st.
Proof.
  induction fuel as [|f IH]; intros curr st r st' H; [discriminate|].
  cbn [find_next_loop] in H. destruct (curr =? NULL).
  - now apply ret_inv in H.
  - destruct (curr =? block_end).
    + now apply ret_inv in H.
    + apply bind_inv in H as (nx & s1 & H1 & H). apply load_same in H1.
      subst s1. eapply IH, H.
Qed.

Definition same_region_head (st st' : state) : Prop :=
  same_region st st' /\ HEAD st' = HEAD st.

Lemma store_same_region_head n a v st u st' :
  store n a v st = Ok u st' -> same_region_head st st'.
Proof. intros H. apply store_inv in H as [_ ->]. repeat split. Qed.

Lemma same_region_head_trans st1 st2 st3 :
  same_region_head st1 st2 -> same_region_head st2 st3 ->
  same_region_head st1 st3.
Proof.
  intros [H1 E1] [H2 E2]. split; [eapply same_region_trans; eassumption|].
  congruence.
Qed.

Lemma coalesce_prev_region block prev st r st' :
  coalesce_prev block prev st = Ok r st' -> same_region_head st st'.
Proof.
  unfold coalesce_prev. intros H.
  assert (Hrefl : same_region_head st st) by (repeat split).
  destruct (prev =? NULL); [apply ret_inv in H as [_ ->]; exact Hrefl|].
  apply bind_inv in H as (ps & s1 & H1 & H). apply load_same in H1. subst s1.
  destruct (_ =? block); [|apply ret_inv in H as [_ ->]; exact Hrefl].
  apply bind_inv in H as (ps' & s1 & H1 & H). apply load_same in H1. subst s1.
  apply bind_inv in H as (bs & s1 & H1 & H). apply load_same in H1. subst s1.
  apply bind_inv in H as (u1 & s1 & H1 & H). apply store_same_region_head in H1.
  apply bind_inv in H as (pn & s2 & H2 & H). apply load_same in H2. subst s2.
  apply bind_inv in H as (u2 & s2 & H2 & H).
  apply ret_inv in H as [_ ->].
  destruct (pn =? block).
  - apply bind_inv in H2 as (bn & s3 & H3 & H2). apply load_same in H3.
    subst s3. apply store_same_region_head in H2.
    exact (same_region_head_trans _ _ _ H1 H2).
  - apply ret_inv in H2 as [_ ->]. exact H1.
Qed.

Lemma coalesce_next_region block next st u st' :
  coalesce_next block next st = Ok u st' -> same_region_head st st'.
Proof.
  unfold coalesce_next. intros H.
  assert (Hrefl : same_region_head st st) by (repeat split).
  destruct (next =? NULL); [apply ret_inv in H as [_ ->]; exact Hrefl|].
  apply bind_inv in H as (bs & s1 & H1 & H). apply load_same in H1. subst s1.
  destruct (_ =? next); [|apply ret_inv in H as [_ ->]; exact Hrefl].
  apply bind_inv in H as (bs' & s1 & H1 & H). apply load_same in H1. subst s1.
  apply bind_inv in H as (ns & s1 & H1 & H). apply load_same in H1. subst s1.
  apply bind_inv in H as (u1 & s1 & H1 & H). apply store_same_region_head in H1.
  apply bind_inv in H as (nn & s2 & H2 & H). apply load_same in H2. subst s2.
  apply store_same_region_head in H.
  exact (same_region_head_trans _ _ _ H1 H).
Qed.

Lemma coalesce_region fuel block st r st' :
  coalesce fuel block st = Ok r st' -> same_region_head st st'.
Proof.
  unfold coalesce. intros H.
  destruct (block =? NULL); [apply ret_inv in H as [_ ->]; repeat split|].
  apply bind_inv in H as (prev & s1 & H1 & H).
  unfold find_prev in H1. apply bind_inv in H1 as (c & s0 & H0 & H1).
  unfold get_HEAD in H0. injection H0 as <- <-.
  apply find_prev_loop_same in H1. subst s1.
  apply bind_inv in H as (next & s1 & H1 & H).
  unfold find_next in H1. apply bind_inv in H1 as (sz & s0 & H0 & H1).
  apply load_same in H0. subst s0.
  apply bind_inv in H1 as (c & s0 & H0 & H1).
  unfold get_HEAD in H0. injection H0 as <- <-.
  apply find_next_loop_same in H1. subst s1.
  apply bind_inv in H as (blk & s1 & H1 & H).
  apply coalesce_prev_region in H1.
  apply bind_inv in H as (u & s2 & H2 & H).
  apply coalesce_next_region in H2.
  apply ret_inv in H as [_ ->].
  exact (same_region_head_trans _ _ _ H1 H2).
Qed.

(** X6. Whenever [tufree] returns, base, break and limit of the region are
    what they were, and HEAD is the header of the released block: memory is
    never given back, and the block is always pushed at the head, merged or
    not. *)
Theorem tufree_keeps_region (fuel : nat) (ptr : Z) (st st' : state) (u : unit) :
  tufree fuel ptr st = Ok u st' ->
  same_region st st' /\ HEAD st' = wrap64 (ptr - sizeof_header).
Proof.
  unfold tufree. intros H.
  apply bind_inv in H as (magic & s1 & H1 & H). apply load_same in H1. subst s1.
  destruct (magic =? MAGIC); [|discriminate].
  apply bind_inv in H as (sz & s1 & H1 & H). apply load_same in H1. subst s1.
  apply bind_inv in H as (u1 & s1 & H1 & H). apply store_same_region_head in H1.
  apply bind_inv in H as (head & s2 & H2 & H).
  unfold get_HEAD in H2. injection H2 as <- <-.
  apply bind_inv in H as (u2 & s2 & H2 & H). apply store_same_region_head in H2.
  apply bind_inv in H as (u3 & s3 & H3 & H).
  unfold put_HEAD in H3. injection H3 as _ <-.
  apply bind_inv in H as (r & s4 & H4 & H). apply coalesce_region in H4.
  apply ret_inv in H as [_ ->].
  destruct H1 as [R1 _], H2 as [R2 _], H4 as [R4 E4].
  split.
  - eapply same_region_trans; [exact R1|].
    eapply same_region_trans; [exact R2|]. exact R4.
  - rewrite E4. reflexivity.
Qed.

Lemma one_block_region : region_ok one_block.
Proof. unfold region_ok. vm_compute. intuition discriminate. Qed.

Lemma one_block_free :
  tufree 8 4112 one_block = Ok tt (freed 4096 one_block []).
Proof.
  apply (tufree_Ok 8 4096 one_block []).
  - exact one_block_region.
  - reflexivity.
  - cbn [length]. lia.
  - intros a [].
  - reflexivity.
  - reflexivity.
  - vm_compute. discriminate.
  - intros a [].
Qed.

Lemma tufree_keeps_region_witness :
  same_region one_block (freed 4096 one_block []) /\
  HEAD (freed 4096 one_block []) = wrap64 (4112 - sizeof_header).
Proof.
  exact (tufree_keeps_region 8 4112 one_block _ tt one_block_free).
Defined.

(** ** tucalloc *)

Lemma put_repeat_inside m p (b : byte) k i :
  0 <= i < Z.of_nat k -> put_bytes m p (repeat b k) (p + i) = b.
Proof.
  intros Hi. unfold put_bytes. rewrite repeat_length.
  destruct (Z.leb_spec p (p + i)); [|lia].
  destruct (Z.ltb_spec (p + i) (p + Z.of_nat k)); [|lia].
  cbn [andb]. destruct (Nat.lt_ge_cases (Z.to_nat (p + i - p)) k) as [Hlt | Hge].
  - rewrite nth_indep with (d' := b) by now rewrite repeat_length.
    apply nth_repeat.
  - lia.
Qed.

(** X7. [tucalloc] takes the product modulo 2^64 as the total: when that is
    zero (a zero factor, or a product that is a multiple of 2^64) it
    returns NULL and changes nothing.  For a positive total with
    [total + sizeof(header) < 2^31], what the [int] parameter of [split]
    can hold, and a well-formed heap, it is [tumalloc] of that many bytes:
    NULL is passed on with the state untouched, and a block is returned
    with every one of its payload bytes zero, its header recording the
    total, and nothing outside the payload written after the allocation.
    The call returns whenever the free list is empty, the region has room
    for the block, or a free block fits. *)
Theorem tucalloc_spec
    (fuel : nat) (st : state) (l : list Z) (num size : Z) :
  region_ok st ->
  is_list st (HEAD st) l ->
  (length l < fuel)%nat ->
  (forall a, In a l -> a + sizeof_free_block + rd 8 (mem st) a <= brk st) ->
  (forall a c, In a l -> In c l -> a <> c ->
     a + sizeof_free_block + rd 8 (mem st) a <= c \/
     c + sizeof_free_block + rd 8 (mem st) c <= a) ->
  let total := wrap64 (num * size) in
  (total = 0 -> tucalloc fuel num size st = Ok NULL st) /\
  (0 < total -> total + sizeof_header < 2 ^ 31 ->
   (forall st1, tumalloc fuel total st = Ok NULL st1 ->
      tucalloc fuel num size st = Ok NULL st) /\
   (forall q st1, tumalloc fuel total st = Ok q st1 -> q <> NULL ->
      exists st2,
        tucalloc fuel num size st = Ok q st2 /\
        (forall i, 0 <= i < total -> mem st2 (q + i) = Byte.x00) /\
        (forall x, x < q \/ q + total <= x -> mem st2 x = mem st1 x) /\
        rd 8 (mem st2) (q - sizeof_header) = total) /\
   (HEAD st = NULL \/
    brk st + round_up (total + sizeof_header) <= heap_limit st \/
    (exists a, In a l /\ total + sizeof_header <= rd 8 (mem st) a) ->
    exists q st2, tucalloc fuel num size st = Ok q st2)).
Proof.
  intros Hreg Hlist Hfuel Hext Hapart total.
  split.
  - intros Hz. unfold tucalloc. fold total. rewrite Hz. reflexivity.
  - intros Hpos Hint.
    assert (Hsz : 0 <= total /\ total + sizeof_header < 2 ^ 31) by lia.
    assert (Hstart : tucalloc fuel num size st =
                     (ptr <- tumalloc fuel total ;;
                      if ptr =? NULL then ret NULL
                      else memset0 ptr total ;;; ret ptr) st).
    { unfold tucalloc. fold total.
      destruct (Z.eqb_spec total 0) as [E|_]; [lia | reflexivity]. }
    rewrite Hstart.
    assert (Hfill : forall q st1,
               tumalloc fuel total st = Ok q st1 -> q <> NULL ->
               exists st2,
                 (ptr <- tumalloc fuel total ;;
                  if ptr =? NULL then ret NULL
                  else memset0 ptr total ;;; ret ptr) st = Ok q st2 /\
                 (forall i, 0 <= i < total -> mem st2 (q + i) = Byte.x00) /\
                 (forall x, x < q \/ q + total <= x -> mem st2 x = mem st1 x) /\
                 rd 8 (mem st2) (q - sizeof_header) = total).
    { intros q st1 Hrun Hq.
      destruct (tumalloc_post fuel total st l Hreg Hlist Hfuel Hext
                  Hapart Hsz q st1 Hrun Hq)
        as (Hb & Hk & Hl & Hk' & Hq1 & Hq2 & Hsize & _).
      unfold bind at 1. rewrite Hrun.
      destruct (Z.eqb_spec q NULL) as [E|_]; [contradiction|].
      unfold bind, memset0.
      rewrite valid_intro
        by (rewrite ?Z2Nat.id by lia; unfold sizeof_header in *; lia).
      eexists. split; [reflexivity|]. cbn [mem set_mem].
      split; [|split].
      - intros i Hi. apply put_repeat_inside. rewrite Z2Nat.id; lia.
      - intros x Hx. apply put_bytes_outside.
        rewrite repeat_length, Z2Nat.id by lia. exact Hx.
      - rewrite <- Hsize. apply rd_ext. intros x Hx.
        change (Z.of_nat 8) with 8 in Hx.
        apply put_bytes_outside. unfold sizeof_header in *. lia. }
    split; [|split].
    + intros st1 Hrun.
      pose proof (tumalloc_null fuel total st l Hreg Hlist Hfuel Hext
                    Hapart Hsz st1 Hrun) as ->.
      unfold bind. rewrite Hrun. reflexivity.
    + exact Hfill.
    + intros Hcan.
      destruct (tumalloc_total fuel total st l Hreg Hlist Hfuel Hext
                  Hapart Hsz Hcan) as (q & st1 & Hrun).
      destruct (Z.eq_dec q NULL) as [-> | Hq].
      * exists NULL, st1. unfold bind. rewrite Hrun. reflexivity.
      * destruct (Hfill q st1 Hrun Hq) as (st2 & H2 & _). eauto.
Qed.

Lemma tucalloc_spec_witness :
  tucalloc 8 0 7 one_block = Ok NULL one_block /\
  exists q st2, tucalloc 8 4 6 one_block = Ok q st2.
Proof.
  assert (Hl : is_list one_block (HEAD one_block) []) by reflexivity.
  assert (Hf : (length (@nil Z) < 8)%nat) by (cbn [length]; lia).
  assert (He : forall a, In a (@nil Z) ->
                 a + sizeof_free_block + rd 8 (mem one_block) a <= brk one_block)
    by (intros a []).
  assert (Ha : forall a c, In a (@nil Z) -> In c (@nil Z) -> a <> c ->
                 a + sizeof_free_block + rd 8 (mem one_block) a <= c \/
                 c + sizeof_free_block + rd 8 (mem one_block) c <= a)
    by (intros a c []).
  split.
  - apply (tucalloc_spec 8 one_block [] 0 7 one_block_region Hl Hf He Ha).
    reflexivity.
  - apply (tucalloc_spec 8 one_block [] 4 6 one_block_region Hl Hf He Ha);
      [reflexivity | vm_compute; reflexivity | now left].
Defined.

(** ** tumalloc is first fit *)

Section FirstFitShape.
Variables (F : nat) (size : Z) (st : state) (l1 : list Z) (a : Z) (l2 : list Z).
Let l := l1 ++ a :: l2.
Hypothesis Hreg : region_ok st.
Hypothesis Hlist : is_list st (HEAD st) l.
Hypothesis HF : (length l < F)%nat.
Hypothesis Hext_l :
  forall c, In c l -> c + sizeof_free_block + rd 8 (mem st) c <= brk st.
Hypothesis Hapart_l :
  forall c d, In c l -> In d l -> c <> d ->
    c + sizeof_free_block + rd 8 (mem st) c <= d \/
    d + sizeof_free_block + rd 8 (mem st) d <= c.
Hypothesis Hsize : 0 <= size /\ size + sizeof_header < 2 ^ 31.
(** [a] is the first block of the list that fits. *)
Hypothesis Hskip :
  forall c, In c l1 -> rd 8 (mem st) c < size + sizeof_header.
Hypothesis Hfit : size + sizeof_header <= rd 8 (mem st) a.

Lemma extents_nodes_apart : nodes_apart l.
Proof.
  intros c d Hc Hd Hne.
  pose proof (rd8_range (mem st) c). pose proof (rd8_range (mem st) d).
  destruct (Hapart_l c d Hc Hd Hne); unfold sizeof_free_block in *; lia.
Qed.

Lemma a_in_l : In a l.
Proof. unfold l. apply in_or_app. right. now left. Qed.

Lemma rest_in_l c : In c (l1 ++ l2) -> In c l /\ c <> a.
Proof.
  intros Hc. pose proof (is_list_NoDup _ _ _ Hlist) as Hnd. unfold l in *.
  split.
  - apply in_app_or in Hc as [Hc | Hc]; apply in_or_app; [now left|].
    right. now right.
  - intros ->. apply NoDup_remove_2 in Hnd. contradiction.
Qed.

Lemma take_fit_shape :
  exists st1,
    (forall f, tumalloc_loop (S f) F size a st
               = Ok (Some (a + sizeof_header)) st1) /\
    same_region st st1 /\
    is_list st1 (HEAD st1) (l1 ++ l2) /\
    (forall c, In c (l1 ++ l2) -> rd 8 (mem st1) c = rd 8 (mem st) c) /\
    (forall x, outside_free st l x -> mem st1 x = mem st x) /\
    rd 8 (mem st1) a = size /\
    rd 4 (mem st1) (a + off_magic) = MAGIC.
Proof.
  pose proof a_in_l as Ha.
  destruct (is_list_In_valid _ _ _ _ Hlist Ha) as [Hnz Hv].
  pose proof (rd8_range (mem st) a) as HS.
  destruct (split_step F size st l Hreg Hlist HF Hext_l Hapart_l Hsize a Ha Hfit)
    as (hdr & s1 & Hsplit & Hhdr & Hreg1 & Hh1 & Hl1 & Hm1).
  assert (Hv1 : valid a 16 s1 = true).
  { destruct Hreg1 as (Hb & Hk & _). apply valid_elim in Hv as [H1 H2].
    apply valid_intro; lia. }
  destruct (unlink_run F s1 l1 a l2 Hl1 HF extents_nodes_apart)
    as (s2 & Hrem & Hl2 & Hreg2 & Hsz2).
  destruct (remove_free_block_total F a s1 l Hv1 Hl1 HF)
    as (s2' & Hrem' & _ & Hm2).
  rewrite Hrem in Hrem'. injection Hrem' as <-.
  assert (Hreg' : region_ok s2).
  { destruct Hreg1 as (Hb & Hk & Hl'), Hreg2 as (Hb2 & Hk2 & Hl2').
    unfold region_ok in *. rewrite Hb2, Hk2, Hl2', Hb, Hk, Hl'. exact Hreg. }
  assert (Hv2 : valid a 16 s2 = true).
  { destruct Hreg2 as (Hb & Hk & _). apply valid_elim in Hv1 as [H1 H2].
    apply valid_intro; lia. }
  assert (Hw : wrap64 (size + sizeof_header) = size + sizeof_header)
    by (unfold sizeof_header in *; apply wrap64_small; lia).
  assert (Hfar : forall c, In c (l1 ++ l2) -> c + 16 <= a \/ a + 16 <= c).
  { intros c Hc. destruct (rest_in_l c Hc) as [Hin Hne].
    apply extents_nodes_apart; assumption. }
  exists (set_mem (stamp_mem (mem s2) a size) s2).
  split; [|split; [|split; [|split; [|split; [|split]]]]].
  - intros f. cbn [tumalloc_loop].
    destruct (Z.eqb_spec a NULL) as [E|_]; [contradiction|].
    unfold bind at 1. rewrite load_size_Ok by exact Hv.
    destruct (Z.leb_spec (wrap64 (size + sizeof_header)) (rd 8 (mem st) a))
      as [_|Hc]; [|rewrite Hw in Hc; lia].
    unfold bind at 1. rewrite Hsplit.
    assert (Hinner :
              (if hdr =? NULL
               then remove_free_block F a ;;; ret a
               else remove_free_block F hdr ;;; ret hdr) s1 = Ok a s2).
    { destruct Hhdr as [-> | ->].
      - cbn [Z.eqb NULL]. unfold bind. now rewrite Hrem.
      - destruct (Z.eqb_spec a NULL) as [E|_]; [contradiction|].
        unfold bind. now rewrite Hrem. }
    unfold bind at 1. rewrite Hinner.
    unfold bind at 1. rewrite stamp_Ok by assumption.
    reflexivity.
  - destruct Hreg1 as (Hb & Hk & Hl'), Hreg2 as (Hb2 & Hk2 & Hl2').
    unfold same_region. cbn [heap_base brk heap_limit set_mem].
    repeat split; congruence.
  - cbn [HEAD set_mem].
    apply is_list_frame with (st := s2); try reflexivity; [|exact Hl2].
    intros c Hc. cbn [mem set_mem]. apply rd_ext. intros x Hx.
    change (Z.of_nat 8) with 8 in Hx. unfold off_next in Hx.
    apply stamp_mem_byte_outside. destruct (Hfar c Hc); lia.
  - intros c Hc. cbn [mem set_mem].
    destruct (rest_in_l c Hc) as [Hin Hne].
    transitivity (rd 8 (mem s2) c).
    + apply rd_ext. intros x Hx. change (Z.of_nat 8) with 8 in Hx.
      apply stamp_mem_byte_outside. destruct (Hfar c Hc); lia.
    + rewrite (Hsz2 c Hin). apply rd_ext. intros x Hx.
      change (Z.of_nat 8) with 8 in Hx. apply Hm1.
      pose proof (rd8_range (mem st) c).
      destruct (Hapart_l a c Ha Hin ltac:(congruence));
        unfold sizeof_free_block in *; lia.
  - intros x Hx. cbn [mem set_mem].
    pose proof (Hx a Ha) as Hxa. unfold sizeof_free_block in *.
    rewrite stamp_mem_byte_outside by lia.
    rewrite Hm2.
    + apply Hm1. exact Hxa.
    + intros c Hc. specialize (Hx c Hc). unfold sizeof_free_block in Hx.
      pose proof (rd8_range (mem st) c). lia.
  - cbn [mem set_mem]. apply stamp_mem_size. unfold sizeof_header in *. lia.
  - cbn [mem set_mem]. apply stamp_mem_magic.
Qed.

Lemma scan_first r st1 :
  (forall f, tumalloc_loop (S f) F size a st = Ok r st1) ->
  forall pre fuel curr,
    is_list st curr (pre ++ a :: l2) ->
    (forall c, In c pre -> In c l1) ->
    (length (pre ++ a :: l2) < fuel)%nat ->
    tumalloc_loop fuel F size curr st = Ok r st1.
Proof.
  intros Hrun.
  assert (Hw : wrap64 (size + sizeof_header) = size + sizeof_header)
    by (unfold sizeof_header in *; apply wrap64_small; lia).
  induction pre as [|x pre IH]; intros fuel curr Hl Hsub Hf;
    (destruct fuel as [|f]; [cbn [length] in Hf; lia|]).
  - cbn [app] in Hl. destruct Hl as (-> & _). apply Hrun.
  - cbn [app] in Hl. destruct Hl as (-> & Hnz & Hv & Hr).
    assert (Hx : rd 8 (mem st) x < size + sizeof_header)
      by (apply Hskip, Hsub; now left).
    transitivity (tumalloc_loop f F size (rd 8 (mem st) (x + off_next)) st).
    + cbn [tumalloc_loop].
      destruct (Z.eqb_spec x NULL) as [E|_]; [contradiction|].
      unfold bind at 1. rewrite load_size_Ok by exact Hv.
      destruct (Z.leb_spec (wrap64 (size + sizeof_header)) (rd 8 (mem st) x))
        as [Hc|_]; [rewrite Hw in Hc; lia|].
      unfold bind. now rewrite load_next_Ok by exact Hv.
    + apply IH.
      * exact Hr.
      * intros c Hc. apply Hsub. now right.
      * cbn [length app] in Hf. lia.
Qed.
End FirstFitShape.

(** X8. For a request with [size + sizeof(header) < 2^31], what the [int]
    parameter of [split] can hold, [tumalloc] on a well-formed heap takes
    the first block, in list order, that records at least
    [size + sizeof(header)] bytes.  It returns that
    block's payload, stamps the header with [size], leaves the break
    alone, and afterwards the free list is the old one without that block:
    the other blocks are there in their order and with their sizes, and the
    remainder of a split is not among them.  No byte outside the free
    blocks is written. *)
Theorem tumalloc_first_fit
    (fuel : nat) (size : Z) (st : state) (l1 : list Z) (a : Z) (l2 : list Z) :
  region_ok st ->
  is_list st (HEAD st) (l1 ++ a :: l2) ->
  (length (l1 ++ a :: l2) < fuel)%nat ->
  (forall c, In c (l1 ++ a :: l2) ->
     c + sizeof_free_block + rd 8 (mem st) c <= brk st) ->
  (forall c d, In c (l1 ++ a :: l2) -> In d (l1 ++ a :: l2) -> c <> d ->
     c + sizeof_free_block + rd 8 (mem st) c <= d \/
     d + sizeof_free_block + rd 8 (mem st) d <= c) ->
  0 <= size /\ size + sizeof_header < 2 ^ 31 ->
  (forall c, In c l1 -> rd 8 (mem st) c < size + sizeof_header) ->
  size + sizeof_header <= rd 8 (mem st) a ->
  exists st1,
    tumalloc fuel size st = Ok (a + sizeof_header) st1 /\
    same_region st st1 /\
    is_list st1 (HEAD st1) (l1 ++ l2) /\
    (forall c, In c (l1 ++ l2) -> rd 8 (mem st1) c = rd 8 (mem st) c) /\
    (forall x, outside_free st (l1 ++ a :: l2) x -> mem st1 x = mem st x) /\
    rd 8 (mem st1) a = size /\
    rd 4 (mem st1) (a + off_magic) = MAGIC.
Proof.
  intros Hreg Hlist Hfuel Hext Hapart Hsize Hskip Hfit.
  destruct (take_fit_shape fuel size st l1 a l2 Hreg Hlist Hfuel Hext Hapart
              Hsize Hfit) as (st1 & Hrun & Hrest).
  exists st1. split; [|exact Hrest].
  unfold tumalloc, bind, get_HEAD.
  assert (Hne : HEAD st <> NULL).
  { destruct l1; cbn [app is_list] in Hlist;
      destruct Hlist as (-> & Hnz & _); exact Hnz. }
  destruct (Z.eqb_spec (HEAD st) NULL) as [E|_]; [contradiction|].
  rewrite (scan_first fuel size st l1 a l2 Hfuel Hsize Hskip _ _ Hrun l1 fuel
             (HEAD st) Hlist (fun c H => H) Hfuel).
  reflexivity.
Qed.

(** Blocks of 64, 16 and 16 bytes at 4096, 4176 and 4208; the first and
    the last are released, in that order. *)
Definition mixed_free : state :=
  match (a <- tumalloc 8 64 ;; b <- tumalloc 8 16 ;; c <- tumalloc 8 16 ;;
         tufree 8 a ;;; tufree 8 c) heap0 with
  | Ok _ st => st
  | _ => heap0
  end.

Lemma mixed_free_region : region_ok mixed_free.
Proof. unfold region_ok. vm_compute. intuition discriminate. Qed.

Lemma mixed_free_list : is_list mixed_free (HEAD mixed_free) [4208; 4096].
Proof.
  cbn [is_list]. repeat split; try reflexivity; unfold NULL; lia.
Qed.

Lemma mixed_free_extents c :
  In c [4208; 4096] ->
  c + sizeof_free_block + rd 8 (mem mixed_free) c <= brk mixed_free.
Proof. intros [<- | [<- | []]]; vm_compute; discriminate. Qed.

Lemma mixed_free_apart c d :
  In c [4208; 4096] -> In d [4208; 4096] -> c <> d ->
  c + sizeof_free_block + rd 8 (mem mixed_free) c <= d \/
  d + sizeof_free_block + rd 8 (mem mixed_free) d <= c.
Proof.
  intros [<- | [<- | []]] [<- | [<- | []]] Hne; try contradiction.
  - right. vm_compute. discriminate.
  - left. vm_compute. discriminate.
Qed.

Lemma tumalloc_first_fit_witness :
  exists st1,
    tumalloc 8 32 mixed_free = Ok (4096 + sizeof_header) st1 /\
    is_list st1 (HEAD st1) ([4208] ++ []).
Proof.
  destruct (tumalloc_first_fit 8 32 mixed_free [4208] 4096 [])
    as (st1 & H1 & _ & H2 & _).
  - exact mixed_free_region.
  - exact mixed_free_list.
  - cbn [length app]. lia.
  - exact mixed_free_extents.
  - exact mixed_free_apart.
  - unfold sizeof_header. lia.
  - intros c [<- | []]. vm_compute. reflexivity.
  - vm_compute. discriminate.
  - exists st1. split; assumption.
Defined.

(** X9. For a request with [size + sizeof(header) < 2^31]: when no block
    of a well-formed free list fits, [tumalloc] asks [do_alloc] for
    [size + sizeof(header)] bytes.  If the region can grow,
    the block starts at the old break: the break moves by the rounded
    size, the header is stamped there, the free list and every byte below
    the old break are as before.  If the region cannot grow, the result is
    NULL with the state untouched when the list is empty, and a write
    through the null pointer when it is not. *)
Theorem tumalloc_no_fit (fuel : nat) (size : Z) (st : state) (l : list Z) :
  region_ok st ->
  is_list st (HEAD st) l ->
  (length l < fuel)%nat ->
  (forall a, In a l -> a + sizeof_free_block + rd 8 (mem st) a <= brk st) ->
  (forall a c, In a l -> In c l -> a <> c ->
     a + sizeof_free_block + rd 8 (mem st) a <= c \/
     c + sizeof_free_block + rd 8 (mem st) c <= a) ->
  0 <= size /\ size + sizeof_header < 2 ^ 31 ->
  (forall a, In a l -> rd 8 (mem st) a < size + sizeof_header) ->
  let grow := round_up (size + sizeof_header) in
  (brk st + grow <= heap_limit st ->
   exists st1,
     tumalloc fuel size st = Ok (brk st + sizeof_header) st1 /\
     brk st1 = brk st + grow /\
     brk st + sizeof_header + size <= brk st1 /\
     is_list st1 (HEAD st1) l /\
     (forall x, x < brk st -> mem st1 x = mem st x) /\
     rd 8 (mem st1) (brk st) = size /\
     rd 4 (mem st1) (brk st + off_magic) = MAGIC) /\
  (heap_limit st < brk st + grow -> HEAD st = NULL ->
   tumalloc fuel size st = Ok NULL st) /\
  (heap_limit st < brk st + grow -> HEAD st <> NULL ->
   tumalloc fuel size st = Fault).
Proof.
  intros Hreg Hlist Hfuel Hext Hapart Hsize Hnone grow.
  pose proof (round_up_bounds (size + sizeof_header)) as Hb. fold grow in Hb.
  destruct (tumalloc_cases fuel size st l Hreg Hlist Hfuel Hext Hapart Hsize)
    as [(a & s1 & Ha & Hfit & _) | [_ Hcases]].
  { specialize (Hnone a Ha). lia. }
  fold grow in Hcases.
  split; [|split].
  - intros Hroom.
    destruct Hcases as [[_ Hrun] | [Hno _]]; [|lia].
    exists (fresh_state size st). split; [exact Hrun|].
    unfold fresh_state. cbn [brk HEAD mem set_mem set_brk]. fold grow.
    split; [reflexivity|]. split; [lia|]. split; [|split; [|split]].
    + apply is_list_frame with (st := st);
        [reflexivity
        | cbn [brk set_mem set_brk]; fold grow; unfold sizeof_header in *; lia
        | | exact Hlist].
      intros c Hc. cbn [mem set_mem set_brk]. apply rd_ext. intros x Hx.
      change (Z.of_nat 8) with 8 in Hx. apply stamp_mem_byte_outside.
      pose proof (Hext c Hc). pose proof (rd8_range (mem st) c).
      unfold off_next, sizeof_free_block in *. lia.
    + intros x Hx. apply stamp_mem_byte_outside. lia.
    + apply stamp_mem_size. unfold sizeof_header in *. lia.
    + apply stamp_mem_magic.
  - intros Hroom Hh.
    destruct Hcases as [[Hyes _] | [_ [[_ Hrun] | [Hne _]]]];
      [lia | exact Hrun | contradiction].
  - intros Hroom Hh.
    destruct Hcases as [[Hyes _] | [_ [[Hnull _] | [_ Hrun]]]];
      [lia | contradiction | exact Hrun].
Qed.

Lemma tumalloc_no_fit_witness :
  exists st1,
    tumalloc 8 100 mixed_free = Ok (brk mixed_free + sizeof_header) st1 /\
    brk st1 = brk mixed_free + round_up (100 + sizeof_header).
Proof.
  destruct (tumalloc_no_fit 8 100 mixed_free [4208; 4096])
    as (H & _).
  - exact mixed_free_region.
  - exact mixed_free_list.
  - cbn [length]. lia.
  - exact mixed_free_extents.
  - exact mixed_free_apart.
  - unfold sizeof_header. lia.
  - intros a [<- | [<- | []]]; vm_compute; reflexivity.
  - destruct H as (st1 & H1 & H2 & _).
    + vm_compute. discriminate.
    + exists st1. split; assumption.
Defined.

(** * Further properties of release *)

Lemma rd4_low m a : rd 4 m a = rd 8 m a mod 2 ^ 32.
Proof.
  unfold rd, get_bytes, addrs.
  change (seq 0 8) with (seq 0 4 ++ seq 4 4).
  rewrite !map_app, le_combine_app.
  rewrite !length_map, length_seq.
  set (lo := le_combine _). set (hi := le_combine _).
  assert (Hlo : 0 <= lo < 2 ^ 32).
  { pose proof (le_combine_bound
                  (map m (map (fun i => a + Z.of_nat i) (seq 0 4)))) as H.
    rewrite !length_map, length_seq in H. exact H. }
  change (Z.of_nat 4 * 8) with 32.
  rewrite <- Z.land_ones by lia.
  rewrite Z.land_lor_distr_l.
  rewrite (Z.land_ones lo) by lia. rewrite (Z.land_ones (Z.shiftl hi 32)) by lia.
  rewrite Z.shiftl_mul_pow2 by lia. rewrite Z.mod_mul by lia.
  rewrite Z.lor_0_r. now rewrite Z.mod_small.
Qed.

Section FreeShape.
Variables (fuel : nat) (b : Z) (st : state) (l : list Z).
Hypothesis Hreg : region_ok st.
Hypothesis Hlist : is_list st (HEAD st) l.
Hypothesis Hfuel : (length l + 1 < fuel)%nat.
Hypothesis Hext_l :
  forall a, In a l -> a + sizeof_free_block + rd 8 (mem st) a <= brk st.
Hypothesis Hnode : valid b 16 st = true.
Hypothesis Hmagic : rd 4 (mem st) (b + off_magic) = MAGIC.
Hypothesis Hextent : b + sizeof_header + rd 8 (mem st) b <= brk st.
Hypothesis Hapart : forall a, In a l -> a + 16 <= b \/ b + 16 <= a.

Let s := rd 8 (mem st) b.
Let P := prev_in (mem st) b l.
Let N := next_in (b + sizeof_free_block + s) l.
Let st2 := freed b st l.

Lemma freed_run : tufree fuel (b + sizeof_header) st = Ok tt st2.
Proof. now apply tufree_Ok. Qed.



Lemma next_found : In (b + sizeof_free_block + s) l ->
  N = b + sizeof_free_block + s.
Proof.
  intros Hin. subst N. unfold next_in.
  destruct (find _ l) as [x|] eqn:E.
  - apply find_some in E as [_ E]. now apply Z.eqb_eq in E.
  - apply (find_none _ _ E) in Hin. now rewrite Z.eqb_refl in Hin.
Qed.

Lemma b_facts :
  b <> NULL /\ 0 < b /\ 0 <= s /\ s + 16 < 2 ^ 63 /\ b + 16 <= brk st.
Proof.
  destruct Hreg as (Hr1 & Hr0 & Hr2 & Hr3).
  pose proof Hnode as Hn. apply valid_elim in Hn as [Hb1 Hb2].
  change (Z.of_nat 16) with 16 in Hb2.
  pose proof (rd8_range (mem st) b). fold s in H.
  unfold sizeof_header in *. fold s in Hextent. unfold NULL. lia.
Qed.

(** No free neighbour on either side. *)
Lemma freed_alone :
  P = NULL -> N = NULL -> st2 = pushed b st.
Proof.
  intros HP HN. subst st2. unfold freed, merge_next_mem, merge_prev_mem.
  fold s. fold P. fold N. rewrite HP, HN. reflexivity.
Qed.

(** A free block right after, none right before. *)
Lemma freed_next :
  P = NULL -> N <> NULL ->
  mem st2 =
  wr 8 (wr 8 (mem (pushed b st)) b (s + (rd 8 (mem st) N + sizeof_free_block)))
       (b + off_next) (rd 8 (mem st) (N + off_next)).
Proof.
  intros HP HN. subst st2. unfold freed, merge_next_mem, merge_prev_mem, merged_block.
  fold s. fold P. fold N. rewrite HP.
  destruct (Z.eqb_spec N NULL) as [E|_]; [contradiction|].
  cbn [Z.eqb NULL mem set_mem].
  rewrite (pushed_size fuel b st l Hreg Hfuel Hnode Hextent). reflexivity.
Qed.

(** A free block right before, none right after. *)
Lemma freed_prev :
  P <> NULL -> N = NULL ->
  mem st2 = wr 8 (mem (pushed b st)) P (rd 8 (mem st) P + (s + sizeof_free_block)).
Proof.
  intros HP HN. subst st2. unfold freed, merge_next_mem, merge_prev_mem.
  fold s. fold P. fold N. rewrite HN.
  destruct (Z.eqb_spec P NULL) as [E|_]; [contradiction|].
  reflexivity.
Qed.

(** In every case the [next] field of the released block ends up holding
    NULL or a node of the old list. *)
Lemma freed_block_next :
  rd 8 (mem st2) (b + off_next) = NULL \/ In (rd 8 (mem st2) (b + off_next)) l.
Proof.
  pose proof b_facts as (Hbnz & Hbpos & Hs0 & Hs1 & Hbk).
  assert (Hhead : HEAD st = NULL \/ In (HEAD st) l).
  { destruct (is_list_head _ _ _ Hlist) as [H | [H _]]; auto. }
  pose proof (pushed_next fuel b st l Hreg Hlist Hfuel) as Hpn.
  destruct (P_cases fuel b st l Hreg Hlist Hfuel Hext_l)
    as [HP | (HPin & HPnz & HPv & HPend)];
    destruct (N_cases b st l Hlist) as [HN | (HNin & HNnz & HNv & HNeq)];
    fold s in HN || fold s in HNin, HNnz, HNv, HNeq;
    fold P in HP || fold P in HPin, HPnz, HPv, HPend;
    fold N in HN || fold N in HNin, HNnz, HNv, HNeq.
  - rewrite (freed_alone HP HN), Hpn. exact Hhead.
  - rewrite (freed_next HP HNnz).
    rewrite rd8_wr8_same by apply rd8_range.
    exact (is_list_next_In _ _ _ _ Hlist HNin).
  - rewrite (freed_prev HPnz HN).
    pose proof (rd8_range (mem st) P).
    rewrite rd_wr_other
      by (unfold off_next, sizeof_free_block in *; change (Z.of_nat 8) with 8; lia).
    rewrite Hpn. exact Hhead.
  - subst st2. unfold freed, merge_next_mem, merge_prev_mem, merged_block.
    fold s. fold P. fold N.
    destruct (Z.eqb_spec N NULL) as [E|_]; [contradiction|].
    destruct (Z.eqb_spec P NULL) as [E|_]; [contradiction|].
    cbn [mem set_mem].
    pose proof (rd8_range (mem st) P).
    rewrite !rd_wr_other
      by (unfold off_next, sizeof_free_block in *; change (Z.of_nat 8) with 8; lia).
    rewrite Hpn. exact Hhead.
Qed.
End FreeShape.


(** ** Release with no free neighbour *)



(** ** Release below a free block *)






(** ** Release above a free block *)





(** ** Releasing twice *)

(** X13. [tufree] writes the successor link over the sentinel.  On a heap
    whose free nodes are 16-byte aligned that link is NULL or an aligned
    address, never the sentinel value, so releasing the same pointer a
    second time is always detected: the first call returns, the second
    prints the message and aborts. *)
Theorem double_free_aborts (fuel : nat) (b : Z) (st : state) (l : list Z) :
  region_ok st ->
  is_list st (HEAD st) l ->
  (length l + 1 < fuel)%nat ->
  (forall a, In a l -> a + sizeof_free_block + rd 8 (mem st) a <= brk st) ->
  valid b 16 st = true ->
  rd 4 (mem st) (b + off_magic) = MAGIC ->
  b + sizeof_header + rd 8 (mem st) b <= brk st ->
  (forall a, In a l -> a + 16 <= b \/ b + 16 <= a) ->
  (forall a, In a l -> a mod ALIGNMENT = 0) ->
  exists st',
    tufree fuel (b + sizeof_header) st = Ok tt st' /\
    tufree fuel (b + sizeof_header) st' = Aborted corruption_msg.
Proof.
  intros Hreg Hlist Hfuel Hext Hnode Hmagic Hextent Hapart Halign.
  pose proof Hreg as (Hr1 & Hr0 & Hr2 & Hr3).
  pose proof (b_facts fuel b st l Hreg Hfuel Hnode Hextent)
    as (Hbnz & Hbpos & Hs0 & Hs1 & Hbk).
  exists (freed b st l). split; [now apply freed_run|].
  unfold tufree. replace (b + sizeof_header - sizeof_header) with b by lia.
  rewrite (wrap64_small b) by lia.
  unfold bind at 1.
  rewrite (load_magic_Ok b (freed b st l)) by exact Hnode.
  rewrite rd4_low. unfold off_magic.
  set (nx := rd 8 (mem (freed b st l)) (b + 8)).
  assert (Hnx : nx mod 16 = 0).
  { destruct (freed_block_next fuel b st l Hreg Hlist Hfuel Hext Hnode Hextent)
      as [H0 | Hin]; unfold off_next in *; fold nx in H0 || fold nx in Hin.
    - rewrite H0. reflexivity.
    - exact (Halign _ Hin). }
  destruct (Z.eqb_spec (nx mod 2 ^ 32) MAGIC) as [E|_]; [|reflexivity].
  exfalso.
  assert (Hm : (nx mod 2 ^ 32) mod 16 = nx mod 16).
  { rewrite (Z.mod_eq nx (2 ^ 32)) by lia.
    replace (nx - 2 ^ 32 * (nx / 2 ^ 32))
      with (nx + (- (2 ^ 28 * (nx / 2 ^ 32))) * 16) by lia.
    now rewrite Z.mod_add by lia. }
  rewrite E, Hnx in Hm. vm_compute in Hm. discriminate.
Qed.

Lemma double_free_aborts_witness :
  exists st',
    tufree 8 (4096 + sizeof_header) one_block = Ok tt st' /\
    tufree 8 (4096 + sizeof_header) st' = Aborted corruption_msg.
Proof.
  apply (double_free_aborts 8 4096 one_block []).
  - exact one_block_region.
  - reflexivity.
  - cbn [length]. lia.
  - intros a [].
  - reflexivity.
  - reflexivity.
  - vm_compute. discriminate.
  - intros a [].
  - intros a [].
Defined.

(** ** Release between two free blocks *)

Lemma is_list_app_next st :
  forall l1 curr x r,
    is_list st curr (l1 ++ x :: r) ->
    forall a, In a l1 -> In (rd 8 (mem st) (a + off_next)) (l1 ++ [x]).
Proof.
  induction l1 as [|y l1 IH]; intros curr x r Hl a Ha; [destruct Ha|].
  cbn [app] in Hl. destruct Hl as (_ & _ & _ & Hr).
  destruct Ha as [<- | Ha].
  - destruct l1 as [|z l1]; cbn [app is_list] in Hr;
      destruct Hr as (-> & _); right; now left.
  - right. exact (IH _ _ _ Hr a Ha).
Qed.


(** A set of nodes closed under [next] holds no walk that ends. *)
Lemma closed_no_list st (S : list Z) :
  (forall a, In a S ->
     a <> NULL /\ In (rd 8 (mem st) (a + off_next)) S) ->
  forall l curr, In curr S -> ~ is_list st curr l.
Proof.
  intros Hclosed.
  induction l as [|a r IH]; intros curr Hc Hl; cbn [is_list] in Hl.
  - destruct (Hclosed _ Hc) as [Hnz _]. contradiction.
  - destruct Hl as (-> & _ & _ & Hr).
    destruct (Hclosed _ Hc) as [_ Hin]. exact (IH _ Hin Hr).
Qed.

(** On such a set the scan of [tumalloc] runs for ever when no node is
    large enough. *)
Lemma closed_scan_runs st (S : list Z) (size : Z) :
  (forall a, In a S ->
     a <> NULL /\ valid a 16 st = true /\
     In (rd 8 (mem st) (a + off_next)) S /\
     rd 8 (mem st) a < wrap64 (size + sizeof_header)) ->
  forall fuel F curr, In curr S ->
    tumalloc_loop fuel F size curr st = OutOfFuel.
Proof.
  intros Hclosed.
  induction fuel as [|f IH]; intros F curr Hc; [reflexivity|].
  cbn [tumalloc_loop].
  destruct (Hclosed _ Hc) as (Hnz & Hv & Hin & Hsz).
  destruct (Z.eqb_spec curr NULL) as [E|_]; [contradiction|].
  unfold bind at 1. rewrite load_size_Ok by exact Hv.
  destruct (Z.leb_spec (wrap64 (size + sizeof_header)) (rd 8 (mem st) curr));
    [lia|].
  unfold bind at 1. rewrite load_next_Ok by exact Hv.
  apply IH. exact Hin.
Qed.

Section FreeBoth.
Variables (fuel : nat) (b p : Z) (st : state) (l : list Z).
Hypothesis Hreg : region_ok st.
Hypothesis Hlist : is_list st (HEAD st) l.
Hypothesis Hfuel : (length l + 1 < fuel)%nat.
Hypothesis Hext_l :
  forall a, In a l -> a + sizeof_free_block + rd 8 (mem st) a <= brk st.
Hypothesis Hdisj :
  forall a c, In a l -> In c l -> a <> c ->
    a + sizeof_free_block + rd 8 (mem st) a <= c \/
    c + sizeof_free_block + rd 8 (mem st) c <= a.
Hypothesis Hnode : valid b 16 st = true.
Hypothesis Hmagic : rd 4 (mem st) (b + off_magic) = MAGIC.
Hypothesis Hextent : b + sizeof_header + rd 8 (mem st) b <= brk st.
Hypothesis Hapart : forall a, In a l -> a + 16 <= b \/ b + 16 <= a.
(** [p] ends where [b] starts, and a free block starts where [b] ends. *)
Hypothesis Hp : In p l.
Hypothesis Hpend : p + sizeof_free_block + rd 8 (mem st) p = b.
Hypothesis Hn : In (b + sizeof_free_block + rd 8 (mem st) b) l.

Let s := rd 8 (mem st) b.
Let ps := rd 8 (mem st) p.
Let n := b + sizeof_free_block + s.
Let ns := rd 8 (mem st) n.
Let st2 := freed b st l.

Lemma both_bounds :
  0 < p /\ 0 <= ps /\ 0 <= s /\ 0 <= ns /\
  p + 16 + ps = b /\ n = b + 16 + s /\ n + 16 + ns <= brk st /\
  brk st < 2 ^ 63 /\ heap_base st <= p.
Proof.
  destruct Hreg as (Hr1 & Hr0 & Hr2 & Hr3).
  pose proof (rd8_range (mem st) p). pose proof (rd8_range (mem st) b).
  pose proof (rd8_range (mem st) n).
  destruct (is_list_In_valid _ _ _ _ Hlist Hp) as [_ Hpv].
  apply valid_elim in Hpv as [Hp1 _].
  pose proof (Hext_l _ Hn) as Hne.
  unfold sizeof_free_block in *. fold s in Hne. fold n in Hne. fold ns in Hne.
  subst s ps n ns. repeat split; lia.
Qed.

Lemma both_P : prev_in (mem st) b l = p.
Proof.
  pose proof both_bounds as (B1 & B2 & B3 & B4 & B5 & B6 & B7 & B8 & B9).
  destruct (P_cases fuel b st l Hreg Hlist Hfuel Hext_l)
    as [H0 | (HPin & HPnz & HPv & HPend)].
  - exfalso. unfold prev_in in H0.
    destruct (find _ l) as [x|] eqn:E.
    + apply find_some in E as [Hx _].
      destruct (is_list_In_valid _ _ _ _ Hlist Hx) as [Hxnz _]. congruence.
    + pose proof (find_none _ _ E _ Hp) as Hf. apply Z.eqb_neq in Hf.
      apply Hf. unfold sizeof_free_block, ps in *.
      rewrite wrap64_small by lia. lia.
  - set (P := prev_in (mem st) b l) in *.
    destruct (Z.eq_dec P p) as [E | Hne]; [exact E|]. exfalso.
    pose proof (rd8_range (mem st) P).
    destruct (Hdisj P p HPin Hp Hne); unfold sizeof_free_block, ps in *; lia.
Qed.

Lemma both_N : next_in (b + sizeof_free_block + s) l = n.
Proof. exact (next_found b st l Hn). Qed.

Lemma both_mem :
  mem st2 =
  wr 8 (wr 8 (wr 8 (mem (pushed b st)) p (ps + (s + sizeof_free_block)))
             p (ps + (s + sizeof_free_block) + (ns + sizeof_free_block)))
       (p + off_next) (rd 8 (mem st) (n + off_next)).
Proof.
  pose proof both_bounds as (B1 & B2 & B3 & B4 & B5 & B6 & B7 & B8 & B9).
  subst st2. unfold freed, merge_next_mem, merge_prev_mem, merged_block.
  fold s. rewrite both_P, both_N.
  destruct (Z.eqb_spec n NULL) as [E|_]; [unfold NULL in E; lia|].
  destruct (Z.eqb_spec p NULL) as [E|_]; [unfold NULL in E; lia|].
  cbn [mem set_mem]. fold ps. fold ns.
  rewrite rd8_wr8_same by (unfold sizeof_free_block; lia).
  reflexivity.
Qed.

(** The released block keeps its size and points at the old head. *)
Lemma both_b :
  rd 8 (mem st2) b = s /\ rd 8 (mem st2) (b + off_next) = HEAD st.
Proof.
  pose proof both_bounds as (B1 & B2 & B3 & B4 & B5 & B6 & B7 & B8 & B9).
  rewrite both_mem. unfold off_next, sizeof_free_block in *.
  rewrite !rd_wr_other by (change (Z.of_nat 8) with 8; lia).
  split.
  - exact (pushed_size fuel b st l Hreg Hfuel Hnode Hextent).
  - exact (pushed_next fuel b st l Hreg Hlist Hfuel).
Qed.

(** The lower block covers all three and points past the upper one. *)
Lemma both_p :
  rd 8 (mem st2) p = ps + sizeof_free_block + s + sizeof_free_block + ns /\
  rd 8 (mem st2) (p + off_next) = rd 8 (mem st) (n + off_next).
Proof.
  pose proof both_bounds as (B1 & B2 & B3 & B4 & B5 & B6 & B7 & B8 & B9).
  rewrite both_mem. unfold off_next, sizeof_free_block in *. split.
  - rewrite rd_wr_other by (change (Z.of_nat 8) with 8; lia).
    rewrite rd8_wr8_same by lia. lia.
  - rewrite rd8_wr8_same by apply rd8_range. reflexivity.
Qed.

(** Every other node is as it was. *)
Lemma both_other a :
  In a l -> a <> p ->
  rd 8 (mem st2) a = rd 8 (mem st) a /\
  rd 8 (mem st2) (a + off_next) = rd 8 (mem st) (a + off_next).
Proof.
  intros Ha Hne.
  pose proof both_bounds as (B1 & B2 & B3 & B4 & B5 & B6 & B7 & B8 & B9).
  pose proof (rd8_range (mem st) a).
  destruct (pushed_node fuel b st l Hfuel Hapart a Ha) as [Hs' Hn'].
  rewrite both_mem. unfold off_next, sizeof_free_block in *.
  assert (a + 16 <= p \/ p + 16 <= a)
    by (destruct (Hdisj a p Ha Hp Hne); unfold sizeof_free_block, ps in *;
        lia).
  rewrite !rd_wr_other by (change (Z.of_nat 8) with 8; lia).
  split; assumption.
Qed.
End FreeBoth.






(** X15. When the upper free block comes first on the list instead, the same
    merge links the lower block back to a node that leads to it: the list
    becomes a cycle.  No walk from HEAD ends any more, and a later
    [tumalloc] that no block on the cycle satisfies never returns. *)
Theorem tufree_merges_both_cycle
    (fuel : nat) (b p : Z) (st : state) (l1 l2 : list Z) :
  let s := rd 8 (mem st) b in
  let l := l1 ++ p :: l2 in
  region_ok st ->
  is_list st (HEAD st) l ->
  (length l + 1 < fuel)%nat ->
  (forall a, In a l -> a + sizeof_free_block + rd 8 (mem st) a <= brk st) ->
  (forall a c, In a l -> In c l -> a <> c ->
     a + sizeof_free_block + rd 8 (mem st) a <= c \/
     c + sizeof_free_block + rd 8 (mem st) c <= a) ->
  valid b 16 st = true ->
  rd 4 (mem st) (b + off_magic) = MAGIC ->
  b + sizeof_header + s <= brk st ->
  (forall a, In a l -> a + 16 <= b \/ b + 16 <= a) ->
  p + sizeof_free_block + rd 8 (mem st) p = b ->
  In (b + sizeof_free_block + s) l1 ->
  exists st',
    tufree fuel (b + sizeof_header) st = Ok tt st' /\
    (forall l', ~ is_list st' (HEAD st') l') /\
    (forall f size,
       (forall a, In a (b :: l1 ++ [p]) ->
          rd 8 (mem st') a < wrap64 (size + sizeof_header)) ->
       tumalloc f size st' = OutOfFuel).
Proof.
  intros s l Hreg Hlist Hfuel Hext Hdisj Hnode Hmagic Hextent Hapart Hpend Hn1.
  assert (Hp : In p l) by (apply in_or_app; right; now left).
  assert (Hn : In (b + sizeof_free_block + s) l)
    by (apply in_or_app; now left).
  pose proof (is_list_NoDup _ _ _ Hlist) as Hnd.
  apply NoDup_remove_2 in Hnd.
  pose proof (both_b fuel b p st l Hreg Hlist Hfuel Hext Hdisj Hnode Hextent
                Hp Hpend Hn) as [Hbs Hbn].
  pose proof (both_p fuel b p st l Hreg Hlist Hfuel Hext Hdisj Hp Hpend Hn)
    as [Hpsz Hpn].
  pose proof (both_other fuel b p st l Hreg Hlist Hfuel Hext Hdisj Hapart
                Hp Hpend Hn) as Hother.
  pose proof (b_facts fuel b st l Hreg Hfuel Hnode Hextent)
    as (Hbnz & _).
  assert (Hl1 : forall a, In a l1 -> In a l /\ a <> p).
  { intros a Ha. split; [apply in_or_app; now left|].
    intros ->. apply Hnd. apply in_or_app. now left. }
  assert (Hhead : In (HEAD st) (l1 ++ [p])).
  { unfold l in Hlist. destruct l1 as [|y r]; [destruct Hn1|].
    cbn [app is_list] in Hlist. destruct Hlist as (-> & _). now left. }
  set (st' := freed b st l) in *.
  assert (Hclosed : forall a, In a (b :: l1 ++ [p]) ->
             a <> NULL /\ valid a 16 st' = true /\
             In (rd 8 (mem st') (a + off_next)) (b :: l1 ++ [p])).
  { intros a [<- | Ha].
    - split; [exact Hbnz|]. split; [exact Hnode|].
      rewrite Hbn. right. exact Hhead.
    - apply in_app_or in Ha. destruct Ha as [Ha | [<- | []]].
      + destruct (Hl1 a Ha) as [Hin Hne].
        destruct (is_list_In_valid _ _ _ _ Hlist Hin) as [Hnz Hv].
        split; [exact Hnz|]. split; [exact Hv|].
        rewrite (proj2 (Hother a Hin Hne)). right.
        exact (is_list_app_next st l1 _ p l2 Hlist a Ha).
      + destruct (is_list_In_valid _ _ _ _ Hlist Hp) as [Hnz Hv].
        split; [exact Hnz|]. split; [exact Hv|].
        rewrite Hpn. right.
        exact (is_list_app_next st l1 _ p l2 Hlist _ Hn1). }
  exists st'. split; [now apply freed_run|]. split.
  - intros l'. apply (closed_no_list st' (b :: l1 ++ [p])).
    + intros a Ha. destruct (Hclosed a Ha) as (H1 & _ & H3). now split.
    + now left.
  - intros f size Hsz. unfold tumalloc. unfold bind at 1.
    change (get_HEAD st') with (Ok b st'). cbv beta iota.
    destruct (Z.eqb_spec b NULL) as [E|_]; [contradiction|].
    unfold bind at 1.
    rewrite (closed_scan_runs st' (b :: l1 ++ [p]) size); [reflexivity | |].
    + intros a Ha. destruct (Hclosed a Ha) as (H1 & H2 & H3).
      repeat split; auto.
    + now left.
Qed.

Lemma tufree_merges_both_cycle_witness :
  exists st',
    tufree 8 (4128 + sizeof_header) two_free = Ok tt st' /\
    (forall l', ~ is_list st' (HEAD st') l') /\
    (forall f, tumalloc f 4096 st' = OutOfFuel).
Proof.
  destruct (tufree_merges_both_cycle 8 4128 4096 two_free [4160] [])
    as (st' & H1 & H2 & H3).
  - exact two_free_region.
  - exact two_free_list.
  - vm_compute. lia.
  - intros a Ha. vm_compute in Ha.
    destruct Ha as [<- | [<- | []]]; vm_compute; discriminate.
  - intros a c Ha Hc Hne. vm_compute in Ha, Hc.
    destruct Ha as [<- | [<- | []]]; destruct Hc as [<- | [<- | []]];
      try contradiction; (left; vm_compute; discriminate) ||
                         (right; vm_compute; discriminate).
  - reflexivity.
  - reflexivity.
  - vm_compute. discriminate.
  - intros a Ha. vm_compute in Ha.
    destruct Ha as [<- | [<- | []]];
      (left; vm_compute; discriminate) || (right; vm_compute; discriminate).
  - reflexivity.
  - vm_compute. now left.
  - exists st'. split; [exact H1|]. split; [exact H2|].
    intros f. apply H3. intros a Ha.
    assert (E : st' = match tufree 8 (4128 + sizeof_header) two_free with
                      | Ok _ s => s
                      | _ => two_free
                      end) by (rewrite H1; reflexivity).
    rewrite E. vm_compute in Ha.
    destruct Ha as [<- | [<- | [<- | []]]]; vm_compute; reflexivity.
Defined.

(** ** The heap after an allocation *)

(** What a successful [tumalloc] leaves behind on a well-formed heap: a
    free list [l'] drawn from the old one with the sizes it had, and a
    stamped block inside the region that shares no byte with the blocks
    of [l']. *)
Lemma tumalloc_shape (fuel : nat) (size : Z) (st : state) (l : list Z)
      (q : Z) (st1 : state) :
  region_ok st ->
  is_list st (HEAD st) l ->
  (length l < fuel)%nat ->
  (forall a, In a l -> a + sizeof_free_block + rd 8 (mem st) a <= brk st) ->
  (forall a c, In a l -> In c l -> a <> c ->
     a + sizeof_free_block + rd 8 (mem st) a <= c \/
     c + sizeof_free_block + rd 8 (mem st) c <= a) ->
  0 <= size /\ size + sizeof_header < 2 ^ 31 ->
  tumalloc fuel size st = Ok q st1 -> q <> NULL ->
  exists l',
    region_ok st1 /\
    is_list st1 (HEAD st1) l' /\
    (length l' <= length l)%nat /\
    (forall c, In c l' -> In c l /\ rd 8 (mem st1) c = rd 8 (mem st) c) /\
    brk st <= brk st1 /\
    valid (q - sizeof_header) 16 st1 = true /\
    rd 8 (mem st1) (q - sizeof_header) = size /\
    rd 4 (mem st1) (q - sizeof_header + off_magic) = MAGIC /\
    q + size <= brk st1 /\
    (forall x, q - sizeof_header <= x < q + size -> outside_free st1 l' x).
Proof.
  intros Hreg Hlist Hfuel Hext Hdisj Hsize Hrun Hq.
  pose proof Hreg as (Hr1 & Hr0 & Hr2 & Hr3).
  destruct (find (fun c => size + sizeof_header <=? rd 8 (mem st) c) l)
    as [a|] eqn:E.
  - (* a block fits: the first one is taken *)
    apply find_first in E as (l1 & l2 & -> & Hfit & Hskip).
    apply Z.leb_le in Hfit.
    assert (Hskip' : forall c, In c l1 -> rd 8 (mem st) c < size + sizeof_header).
    { intros c Hc. specialize (Hskip c Hc). apply Z.leb_gt in Hskip. exact Hskip. }
    destruct (take_fit_shape fuel size st l1 a l2 Hreg Hlist Hfuel Hext Hdisj
                Hsize Hfit)
      as (s1 & Hloop & Hsame & Hl' & Hsz & Hout & Hasz & Hamagic).
    assert (Hne : HEAD st <> NULL).
    { destruct l1; cbn [app is_list] in Hlist;
        destruct Hlist as (-> & Hnz & _); exact Hnz. }
    assert (Hrun' : tumalloc fuel size st = Ok (a + sizeof_header) s1).
    { unfold tumalloc, bind, get_HEAD.
      destruct (Z.eqb_spec (HEAD st) NULL) as [E|_]; [contradiction|].
      rewrite (scan_first fuel size st l1 a l2 Hfuel Hsize Hskip' _ _ Hloop l1
                 fuel (HEAD st) Hlist (fun c H => H) Hfuel).
      reflexivity. }
    rewrite Hrun' in Hrun. injection Hrun as <- <-.
    replace (a + sizeof_header - sizeof_header) with a by lia.
    destruct Hsame as (Hs1 & Hs2 & Hs3).
    assert (Ha : In a (l1 ++ a :: l2)) by (apply in_or_app; right; now left).
    destruct (is_list_In_valid _ _ _ _ Hlist Ha) as [Hanz Hav].
    pose proof (Hext a Ha) as Hae.
    pose proof (is_list_NoDup _ _ _ Hlist) as Hnd. apply NoDup_remove_2 in Hnd.
    assert (Hin : forall c, In c (l1 ++ l2) -> In c (l1 ++ a :: l2) /\ c <> a).
    { intros c Hc. split.
      - apply in_app_or in Hc. apply in_or_app.
        destruct Hc; [now left | right; now right].
      - intros ->. contradiction. }
    exists (l1 ++ l2).
    split; [unfold region_ok; rewrite Hs1, Hs2, Hs3; exact Hreg|].
    split; [exact Hl'|].
    split; [rewrite !length_app; cbn [length]; lia|].
    split; [intros c Hc; split; [exact (proj1 (Hin c Hc)) | exact (Hsz c Hc)]|].
    split; [lia|].
    split.
    { apply valid_elim in Hav as [H1 H2]. apply valid_intro; lia. }
    split; [exact Hasz|]. split; [exact Hamagic|].
    unfold sizeof_header, sizeof_free_block in *.
    split; [lia|].
    intros x Hx c Hc. destruct (Hin c Hc) as [Hcl Hca].
    rewrite (Hsz c Hc). unfold sizeof_free_block.
    pose proof (rd8_range (mem st) c).
    destruct (Hdisj c a Hcl Ha Hca); [right | left]; lia.
  - (* none fits: the region grows *)
    assert (Hnone : forall c, In c l -> rd 8 (mem st) c < size + sizeof_header).
    { intros c Hc. pose proof (find_none _ _ E c Hc) as H.
      apply Z.leb_gt in H. exact H. }
    pose proof (round_up_bounds (size + sizeof_header)) as Hb.
    destruct (tumalloc_cases fuel size st l Hreg Hlist Hfuel Hext Hdisj Hsize)
      as [(a & s1 & Ha & Hfit & _) | [_ [[Hroom Hrun'] | [_ [[_ Hrun'] | [_ Hrun']]]]]].
    + specialize (Hnone a Ha). lia.
    + rewrite Hrun' in Hrun. injection Hrun as <- <-.
      replace (brk st + sizeof_header - sizeof_header) with (brk st) by lia.
      assert (Hsame : forall c, In c l ->
                 forall n' d, (d + Z.of_nat n' <= 16)%Z -> 0 <= d ->
                 rd n' (mem (fresh_state size st)) (c + d)
                 = rd n' (mem st) (c + d)).
      { intros c Hc n' d Hd Hd0. unfold fresh_state. cbn [mem set_mem set_brk].
        apply rd_ext. intros x Hx. apply stamp_mem_byte_outside.
        pose proof (Hext c Hc). pose proof (rd8_range (mem st) c).
        unfold sizeof_free_block in *. lia. }
      exists l.
      unfold fresh_state at 1 2 5 6 9. cbn [brk HEAD heap_base heap_limit set_mem set_brk].
      unfold sizeof_header, sizeof_free_block, off_next in *.
      split; [unfold region_ok; cbn [brk heap_base heap_limit set_mem set_brk]; lia|].
      split.
      { apply is_list_frame with (st := st);
          [reflexivity | cbn [brk set_mem set_brk]; lia | | exact Hlist].
        intros c Hc. apply (Hsame c Hc 8%nat 8); change (Z.of_nat 8) with 8; lia. }
      split; [lia|].
      split.
      { intros c Hc. split; [exact Hc|].
        rewrite <- (Z.add_0_r c).
        apply (Hsame c Hc 8%nat 0); change (Z.of_nat 8) with 8; lia. }
      split; [lia|].
      split.
      { apply valid_intro; cbn [brk heap_base set_mem set_brk];
          change (Z.of_nat 16) with 16; lia. }
      split; [apply stamp_mem_size; lia|].
      split; [apply stamp_mem_magic|].
      split; [lia|].
      intros x Hx c Hc. right.
      rewrite <- (Z.add_0_r c) at 2.
      rewrite (Hsame c Hc 8%nat 0) by (change (Z.of_nat 8) with 8; lia).
      rewrite Z.add_0_r. pose proof (Hext c Hc). unfold sizeof_free_block in *. lia.
    + rewrite Hrun' in Hrun. injection Hrun as <- _. contradiction.
    + rewrite Hrun' in Hrun. discriminate.
Qed.

Lemma carried_extents (st st1 : state) (l l' : list Z) :
  (forall c, In c l' -> In c l /\ rd 8 (mem st1) c = rd 8 (mem st) c) ->
  brk st <= brk st1 ->
  (forall a, In a l -> a + sizeof_free_block + rd 8 (mem st) a <= brk st) ->
  (forall a c, In a l -> In c l -> a <> c ->
     a + sizeof_free_block + rd 8 (mem st) a <= c \/
     c + sizeof_free_block + rd 8 (mem st) c <= a) ->
  (forall a, In a l' -> a + sizeof_free_block + rd 8 (mem st1) a <= brk st1) /\
  (forall a c, In a l' -> In c l' -> a <> c ->
     a + sizeof_free_block + rd 8 (mem st1) a <= c \/
     c + sizeof_free_block + rd 8 (mem st1) c <= a).
Proof.
  intros Hsub Hbrk Hext Hdisj. split.
  - intros a Ha. destruct (Hsub a Ha) as [Hin ->].
    specialize (Hext a Hin). lia.
  - intros a c Ha Hc Hne.
    destruct (Hsub a Ha) as [Hina ->], (Hsub c Hc) as [Hinc ->].
    exact (Hdisj a c Hina Hinc Hne).
Qed.

(** X16. For a request with [size + sizeof(header) < 2^31], what the [int]
    parameter of [split] can hold, [tumalloc] keeps a well-formed heap well
    formed.  Whatever it returns, the free list afterwards is made of
    blocks of the old list, each inside the region and no two of them
    overlapping; and a block it hands out lies inside the region and
    shares no byte with any block still free. *)
Theorem tumalloc_keeps_heap
    (fuel : nat) (size : Z) (st : state) (l : list Z) (q : Z) (st1 : state) :
  region_ok st ->
  is_list st (HEAD st) l ->
  (length l < fuel)%nat ->
  (forall a, In a l -> a + sizeof_free_block + rd 8 (mem st) a <= brk st) ->
  (forall a c, In a l -> In c l -> a <> c ->
     a + sizeof_free_block + rd 8 (mem st) a <= c \/
     c + sizeof_free_block + rd 8 (mem st) c <= a) ->
  0 <= size /\ size + sizeof_header < 2 ^ 31 ->
  tumalloc fuel size st = Ok q st1 ->
  exists l',
    region_ok st1 /\
    is_list st1 (HEAD st1) l' /\
    (forall a, In a l' -> In a l) /\
    (forall a, In a l' ->
       a + sizeof_free_block + rd 8 (mem st1) a <= brk st1) /\
    (forall a c, In a l' -> In c l' -> a <> c ->
       a + sizeof_free_block + rd 8 (mem st1) a <= c \/
       c + sizeof_free_block + rd 8 (mem st1) c <= a) /\
    (q <> NULL ->
     heap_base st1 <= q - sizeof_header /\ q + size <= brk st1 /\
     forall x, q - sizeof_header <= x < q + size -> outside_free st1 l' x).
Proof.
  intros Hreg Hlist Hfuel Hext Hdisj Hsize Hrun.
  destruct (Z.eq_dec q NULL) as [-> | Hq].
  - rewrite (tumalloc_null fuel size st l Hreg Hlist Hfuel Hext Hdisj Hsize
               st1 Hrun).
    exists l. split; [exact Hreg|]. split; [exact Hlist|].
    split; [auto|]. split; [exact Hext|]. split; [exact Hdisj|].
    intros H. contradiction.
  - destruct (tumalloc_shape fuel size st l q st1 Hreg Hlist Hfuel Hext Hdisj
                Hsize Hrun Hq)
      as (l' & Hreg1 & Hl' & _ & Hsub & Hbrk & Hv & _ & _ & Hend & Hout).
    destruct (carried_extents st st1 l l' Hsub Hbrk Hext Hdisj) as [He Hd].
    exists l'. split; [exact Hreg1|]. split; [exact Hl'|].
    split; [intros a Ha; exact (proj1 (Hsub a Ha))|].
    split; [exact He|]. split; [exact Hd|].
    intros _. apply valid_elim in Hv as [H1 _].
    split; [exact H1|]. split; [exact Hend | exact Hout].
Qed.

(** A run whose value is known, with the state it leaves. *)
Lemma run_of_result {A} (c : M A) (st d : state) (a : A) :
  result (c st) = Some a ->
  c st = Ok a (match c st with Ok _ s => s | _ => d end).
Proof.
  destruct (c st); cbn [result]; intros H; try discriminate.
  injection H as ->. reflexivity.
Qed.

(** [mixed_free] after [tumalloc(32)] took its 64-byte block, and after a
    further [tumalloc(8)] grew the region. *)
Definition mixed_taken : state :=
  match tumalloc 8 32 mixed_free with Ok _ s => s | _ => mixed_free end.

Definition mixed_grown : state :=
  match tumalloc 8 8 mixed_taken with Ok _ s => s | _ => mixed_taken end.

Lemma mixed_taken_run : tumalloc 8 32 mixed_free = Ok 4112 mixed_taken.
Proof. apply run_of_result. vm_compute. reflexivity. Qed.

Lemma mixed_grown_run : tumalloc 8 8 mixed_taken = Ok 4256 mixed_grown.
Proof. apply run_of_result. vm_compute. reflexivity. Qed.

Lemma tumalloc_keeps_heap_witness :
  exists l',
    region_ok mixed_taken /\
    is_list mixed_taken (HEAD mixed_taken) l' /\
    (forall a, In a l' -> In a [4208; 4096]) /\
    forall x, 4112 - sizeof_header <= x < 4112 + 32 ->
              outside_free mixed_taken l' x.
Proof.
  destruct (tumalloc_keeps_heap 8 32 mixed_free [4208; 4096] 4112 mixed_taken)
    as (l' & H1 & H2 & H3 & _ & _ & H6).
  - exact mixed_free_region.
  - exact mixed_free_list.
  - cbn [length]. lia.
  - exact mixed_free_extents.
  - exact mixed_free_apart.
  - unfold sizeof_header. lia.
  - exact mixed_taken_run.
  - exists l'. split; [exact H1|]. split; [exact H2|]. split; [exact H3|].
    apply H6. unfold NULL. lia.
Defined.

(** ** Allocation followed by release *)

(** X17. On a well-formed heap, a pointer that [tumalloc] returned for a
    request with [size + sizeof(header) < 2^31] can be given to [tufree]
    at once: the sentinel is found, no scan faults, and the
    call returns with the block at the head of the free list, recording at
    least the bytes that were asked for, and with the break unmoved. *)
Theorem alloc_then_free
    (fuel : nat) (size : Z) (st : state) (l : list Z) (q : Z) (st1 : state) :
  region_ok st ->
  is_list st (HEAD st) l ->
  (length l + 1 < fuel)%nat ->
  (forall a, In a l -> a + sizeof_free_block + rd 8 (mem st) a <= brk st) ->
  (forall a c, In a l -> In c l -> a <> c ->
     a + sizeof_free_block + rd 8 (mem st) a <= c \/
     c + sizeof_free_block + rd 8 (mem st) c <= a) ->
  0 <= size /\ size + sizeof_header < 2 ^ 31 ->
  tumalloc fuel size st = Ok q st1 -> q <> NULL ->
  exists st2,
    tufree fuel q st1 = Ok tt st2 /\
    HEAD st2 = q - sizeof_header /\
    size <= rd 8 (mem st2) (q - sizeof_header) /\
    brk st2 = brk st1.
Proof.
  intros Hreg Hlist Hfuel Hext Hdisj Hsize Hrun Hq.
  assert (Hfuel' : (length l < fuel)%nat) by lia.
  destruct (tumalloc_shape fuel size st l q st1 Hreg Hlist Hfuel' Hext Hdisj
              Hsize Hrun Hq)
    as (l' & Hreg1 & Hl' & Hlen & Hsub & Hbrk & Hv & Hsz & Hmg & Hend & Hout).
  destruct (carried_extents st st1 l l' Hsub Hbrk Hext Hdisj) as [He Hd].
  set (b := q - sizeof_header) in *.
  assert (Hfl : (length l' + 1 < fuel)%nat) by lia.
  assert (Hextent : b + sizeof_header + rd 8 (mem st1) b <= brk st1)
    by (rewrite Hsz; unfold b; lia).
  assert (Hapart : forall a, In a l' -> a + 16 <= b \/ b + 16 <= a).
  { intros a Ha. pose proof (rd8_range (mem st1) a).
    assert (H1 : b <= b < q + size) by (unfold b, sizeof_header in *; lia).
    assert (H2 : b <= q - 1 < q + size) by (unfold b, sizeof_header in *; lia).
    pose proof (Hout _ H1 a Ha). pose proof (Hout _ H2 a Ha).
    unfold b, sizeof_header, sizeof_free_block in *. lia. }
  exists (freed b st1 l').
  replace q with (b + sizeof_header) at 1 by (unfold b; lia).
  split; [exact (tufree_Ok fuel b st1 l' Hreg1 Hl' Hfl He Hv Hmg Hextent Hapart)|].
  split; [reflexivity|]. split; [|reflexivity].
  rewrite <- Hsz.
  exact (proj1 (freed_head_size fuel b st1 l' Hreg1 Hl' Hfl He Hv Hextent)).
Qed.

Lemma alloc_then_free_witness :
  exists st2,
    tufree 8 4112 mixed_taken = Ok tt st2 /\
    HEAD st2 = 4112 - sizeof_header /\
    32 <= rd 8 (mem st2) (4112 - sizeof_header) /\
    brk st2 = brk mixed_taken.
Proof.
  apply (alloc_then_free 8 32 mixed_free [4208; 4096] 4112 mixed_taken).
  - exact mixed_free_region.
  - exact mixed_free_list.
  - cbn [length]. lia.
  - exact mixed_free_extents.
  - exact mixed_free_apart.
  - unfold sizeof_header. lia.
  - exact mixed_taken_run.
  - unfold NULL. lia.
Defined.

(** ** Two live blocks *)

(** X18. Two blocks handed out one after the other on a well-formed heap,
    each for a request with [size + sizeof(header) < 2^31], share no byte,
    headers included, and the second call leaves the header and the
    payload of the first block as they were. *)
Theorem live_blocks_disjoint
    (fuel : nat) (s1 s2 : Z) (st : state) (l : list Z)
    (q1 : Z) (st1 : state) (q2 : Z) (st2 : state) :
  region_ok st ->
  is_list st (HEAD st) l ->
  (length l < fuel)%nat ->
  (forall a, In a l -> a + sizeof_free_block + rd 8 (mem st) a <= brk st) ->
  (forall a c, In a l -> In c l -> a <> c ->
     a + sizeof_free_block + rd 8 (mem st) a <= c \/
     c + sizeof_free_block + rd 8 (mem st) c <= a) ->
  0 <= s1 /\ s1 + sizeof_header < 2 ^ 31 ->
  0 <= s2 /\ s2 + sizeof_header < 2 ^ 31 ->
  tumalloc fuel s1 st = Ok q1 st1 -> q1 <> NULL ->
  tumalloc fuel s2 st1 = Ok q2 st2 -> q2 <> NULL ->
  (q1 + s1 <= q2 - sizeof_header \/ q2 + s2 <= q1 - sizeof_header) /\
  (forall x, q1 - sizeof_header <= x < q1 + s1 -> mem st2 x = mem st1 x).
Proof.
  intros Hreg Hlist Hfuel Hext Hdisj Hs1 Hs2 Hrun1 Hq1 Hrun2 Hq2.
  destruct (tumalloc_shape fuel s1 st l q1 st1 Hreg Hlist Hfuel Hext Hdisj
              Hs1 Hrun1 Hq1)
    as (l' & Hreg1 & Hl' & Hlen & Hsub & Hbrk & Hv & Hsz & Hmg & Hend & Hout).
  destruct (carried_extents st st1 l l' Hsub Hbrk Hext Hdisj) as [He Hd].
  assert (Hfl : (length l' < fuel)%nat) by lia.
  destruct (tumalloc_post fuel s2 st1 l' Hreg1 Hl' Hfl He Hd Hs2 q2 st2
              Hrun2 Hq2)
    as (_ & _ & _ & _ & _ & _ & _ & _ & Hkeep & Habove).
  split.
  - destruct (Z.le_gt_cases (q1 + s1) (q2 - sizeof_header)) as [|H1];
      [now left|].
    destruct (Z.le_gt_cases (q2 + s2) (q1 - sizeof_header)) as [|H2];
      [now right|].
    exfalso. unfold sizeof_header in *.
    destruct (Z.le_gt_cases (q2 - 16) (q1 - 16)) as [H3 | H3].
    + assert (Hx : q1 - 16 <= q1 - 16 < q1 + s1) by lia.
      pose proof (Habove (q1 - 16) ltac:(lia) (Hout _ Hx)). lia.
    + assert (Hx : q1 - 16 <= q2 - 16 < q1 + s1) by lia.
      pose proof (Habove (q2 - 16) ltac:(lia) (Hout _ Hx)). lia.
  - intros x Hx. apply Hkeep; [exact (Hout x Hx) | lia].
Qed.

Lemma live_blocks_disjoint_witness :
  (4112 + 32 <= 4256 - sizeof_header \/ 4256 + 8 <= 4112 - sizeof_header) /\
  (forall x, 4112 - sizeof_header <= x < 4112 + 32 ->
             mem mixed_grown x = mem mixed_taken x).
Proof.
  apply (live_blocks_disjoint 8 32 8 mixed_free [4208; 4096]
           4112 mixed_taken 4256 mixed_grown).
  - exact mixed_free_region.
  - exact mixed_free_list.
  - cbn [length]. lia.
  - exact mixed_free_extents.
  - exact mixed_free_apart.
  - unfold sizeof_header. lia.
  - unfold sizeof_header. lia.
  - exact mixed_taken_run.
  - unfold NULL. lia.
  - exact mixed_grown_run.
  - unfold NULL. lia.
Defined.

(** ** What turealloc does with the old block *)

(** A growing [turealloc] that returns a block is [tumalloc] followed by
    the copy. *)
Lemma turealloc_grow_run
    (fuel : nat) (st : state) (p new_size q : Z) (st2 : state) :
  region_ok st ->
  p <> NULL ->
  valid (p - sizeof_header) 16 st = true ->
  rd 8 (mem st) (p - sizeof_header) < new_size ->
  turealloc fuel p new_size st = Ok q st2 -> q <> NULL ->
  exists st1 n,
    tumalloc fuel new_size st = Ok q st1 /\
    st2 = set_mem (put_bytes (mem st1) q (get_bytes (mem st1) p n)) st1 /\
    Z.of_nat n <= Z.max 0 new_size.
Proof.
  intros Hreg Hp Hhdr Hlt Hrun Hq.
  pose proof Hreg as (Hr1 & Hr0 & Hr2 & Hr3).
  pose proof Hhdr as Hhdr'. apply valid_elim in Hhdr' as [Hh1 Hh2].
  change (Z.of_nat 16) with 16 in Hh2.
  pose proof (rd8_range (mem st) (p - sizeof_header)) as Hold.
  unfold turealloc in Hrun.
  destruct (Z.eqb_spec p NULL) as [E|_]; [contradiction|].
  destruct (Z.eqb_spec new_size 0) as [E|_]; [lia|].
  rewrite wrap64_small in Hrun by lia.
  apply bind_inv in Hrun as (old & s0 & Hload & Hrun).
  rewrite load_size_Ok in Hload by exact Hhdr. injection Hload as <- <-.
  destruct (Z.leb_spec new_size (rd 8 (mem st) (p - sizeof_header))); [lia|].
  apply bind_inv in Hrun as (q' & st1 & Hm & Hrun).
  destruct (Z.eqb_spec q' NULL) as [E|_].
  { apply ret_inv in Hrun as [-> _]. contradiction. }
  apply bind_inv in Hrun as (old' & s1 & Hload & Hrun).
  unfold load_size in Hload. apply load_inv in Hload as (_ & _ & ->).
  apply bind_inv in Hrun as ([] & s2 & Hcopy & Hrun).
  apply ret_inv in Hrun as [-> ->].
  unfold memcpy in Hcopy.
  destruct (_ && _ && _) in Hcopy; [|discriminate].
  injection Hcopy as <-.
  exists st1. eexists. split; [exact Hm|]. split; [reflexivity|].
  destruct (old' <? new_size) eqn:E; [apply Z.ltb_lt in E|]; lia.
Qed.

(** X19. On the growing path, for a new size with
    [new_size + sizeof(header) < 2^31] and a live block of a well-formed
    heap, [turealloc] never gives the old block back: when it returns a
    block, the call leaves behind a free list made of blocks that were
    free before, the old block is not among them, and its header still
    records its size and carries the sentinel.  The block stays allocated
    although the caller was handed another one. *)
Theorem turealloc_keeps_old_block
    (fuel : nat) (st : state) (l : list Z) (p new_size q : Z) (st2 : state) :
  region_ok st ->
  is_list st (HEAD st) l ->
  (length l < fuel)%nat ->
  (forall a, In a l -> a + sizeof_free_block + rd 8 (mem st) a <= brk st) ->
  (forall a c, In a l -> In c l -> a <> c ->
     a + sizeof_free_block + rd 8 (mem st) a <= c \/
     c + sizeof_free_block + rd 8 (mem st) c <= a) ->
  p <> NULL ->
  valid (p - sizeof_header) 16 st = true ->
  let old := rd 8 (mem st) (p - sizeof_header) in
  p + old <= brk st ->
  (forall x, p - sizeof_header <= x < p + old -> outside_free st l x) ->
  old < new_size -> new_size + sizeof_header < 2 ^ 31 ->
  turealloc fuel p new_size st = Ok q st2 -> q <> NULL ->
  q <> p /\
  exists l',
    is_list st2 (HEAD st2) l' /\
    (forall a, In a l' -> In a l) /\
    ~ In (p - sizeof_header) l' /\
    rd 8 (mem st2) (p - sizeof_header) = old /\
    rd 4 (mem st2) (p - sizeof_header + off_magic)
    = rd 4 (mem st) (p - sizeof_header + off_magic).
Proof.
  intros Hreg Hlist Hfuel Hext Hdisj Hp Hhdr old Hpay Hout Hlt Hint Hrun Hq.
  pose proof Hreg as (Hr1 & Hr0 & Hr2 & Hr3).
  pose proof Hhdr as Hhdr'. apply valid_elim in Hhdr' as [Hh1 Hh2].
  change (Z.of_nat 16) with 16 in Hh2.
  pose proof (rd8_range (mem st) (p - sizeof_header)) as Hold. fold old in Hold.
  assert (Hsz : 0 <= new_size /\ new_size + sizeof_header < 2 ^ 31) by lia.
  destruct (turealloc_grow_run fuel st p new_size q st2 Hreg Hp Hhdr Hlt
              Hrun Hq) as (st1 & n & Hm & -> & Hn).
  destruct (tumalloc_shape fuel new_size st l q st1 Hreg Hlist Hfuel Hext
              Hdisj Hsz Hm Hq)
    as (l' & Hreg1 & Hl' & Hlen & Hsub & Hbrk & Hv & Hs & Hmg & Hend & Hfree).
  destruct (tumalloc_post fuel new_size st l Hreg Hlist Hfuel Hext Hdisj Hsz
              q st1 Hm Hq)
    as (_ & _ & _ & _ & _ & _ & _ & _ & Hkeep & Habove).
  assert (Hhdr_out : outside_free st l (p - sizeof_header))
    by (apply Hout; unfold sizeof_header; lia).
  (* the blocks share no byte *)
  assert (Hapart : q + new_size <= p - sizeof_header \/ p + old <= q - sizeof_header).
  { destruct (Z.le_gt_cases (q + new_size) (p - sizeof_header)) as [|H1];
      [now left|].
    destruct (Z.le_gt_cases (p + old) (q - sizeof_header)) as [|H2];
      [now right|].
    exfalso. unfold sizeof_header in *.
    destruct (Z.le_gt_cases (q - 16) (p - 16)) as [Hc | Hc].
    - specialize (Habove (p - 16) ltac:(lia) (Hout (p - 16) ltac:(lia))). lia.
    - specialize (Habove (q - 16) ltac:(lia) (Hout (q - 16) ltac:(lia))). lia. }
  assert (Hcopy_out : forall x, p - sizeof_header <= x < p + old ->
            put_bytes (mem st1) q (get_bytes (mem st1) p n) x = mem st x).
  { intros x Hx. rewrite put_bytes_outside.
    - apply Hkeep; [now apply Hout | lia].
    - rewrite get_bytes_length. unfold sizeof_header in *. lia. }
  split; [unfold sizeof_header in *; lia|].
  exists l'. cbn [HEAD mem set_mem].
  split; [|split; [|split; [|split]]].
  - apply is_list_frame with (st := st1); try reflexivity; [|exact Hl'].
    intros a Ha. cbn [mem set_mem]. apply rd_ext. intros x Hx.
    change (Z.of_nat 8) with 8 in Hx.
    apply put_bytes_outside. rewrite get_bytes_length.
    pose proof (rd8_range (mem st1) a).
    destruct (Z.lt_ge_cases x q) as [|Hge]; [now left | right].
    destruct (Z.le_gt_cases (q + new_size) x) as [|Hin]; [lia|].
    exfalso.
    destruct (Hfree x ltac:(unfold sizeof_header; lia) a Ha);
      unfold off_next, sizeof_free_block in *; lia.
  - intros a Ha. exact (proj1 (Hsub a Ha)).
  - intros Hin. apply Hsub in Hin as [Hin _].
    pose proof (rd8_range (mem st) (p - sizeof_header)).
    destruct (Hhdr_out _ Hin); unfold sizeof_free_block in *; lia.
  - unfold old. apply rd_ext. intros x Hx. change (Z.of_nat 8) with 8 in Hx.
    apply Hcopy_out. unfold sizeof_header in *. lia.
  - apply rd_ext. intros x Hx. change (Z.of_nat 4) with 4 in Hx.
    apply Hcopy_out. unfold sizeof_header, off_magic in *. lia.
Qed.

(** [one_block] after its block was grown from 16 to 32 bytes. *)
Definition one_block_regrown : state :=
  match turealloc 8 4112 32 one_block with Ok _ s => s | _ => one_block end.

Lemma one_block_regrown_run :
  turealloc 8 4112 32 one_block = Ok 4144 one_block_regrown.
Proof. apply run_of_result. vm_compute. reflexivity. Qed.

Lemma turealloc_keeps_old_block_witness :
  4144 <> 4112 /\
  exists l',
    is_list one_block_regrown (HEAD one_block_regrown) l' /\
    (forall a, In a l' -> In a []) /\
    ~ In (4112 - sizeof_header) l' /\
    rd 8 (mem one_block_regrown) (4112 - sizeof_header) = 16 /\
    rd 4 (mem one_block_regrown) (4112 - sizeof_header + off_magic) = MAGIC.
Proof.
  apply (turealloc_keeps_old_block 8 one_block [] 4112 32 4144
           one_block_regrown).
  - exact one_block_region.
  - reflexivity.
  - cbn [length]. lia.
  - intros a [].
  - intros a c [].
  - unfold NULL. lia.
  - reflexivity.
  - vm_compute. discriminate.
  - intros x _ c [].
  - vm_compute. reflexivity.
  - unfold sizeof_header. lia.
  - exact one_block_regrown_run.
  - unfold NULL. lia.
Defined.

(** ** Requests whose size wraps around *)


